(** * graphql-s2s: the schema transpiler of [src/graphqls2s.js]

    A shallow embedding of the parsing and resolution pipeline of
    [graphqls2s.js] (bit extractor, declaration parser, inheritance resolver,
    interface closure, generic instantiator, serializer) and the properties
    of the specification checked against it.

    Conventions of the embedding.
    - A JavaScript string is a [string]: a sequence of bytes, the UTF-8
      encoding of the text.  The line-break marker [░] is its three bytes.
      A regular expression consumes bytes; every expression of the source
      uses [░] as a plain literal, so on ASCII schema text the byte reading
      and the UTF-16 reading of JavaScript select the same matches.
    - Regular expressions are parsed from the very text of the source
      literals and run by a backtracking matcher that follows the
      ECMAScript order of alternatives (leftmost alternative first, greedy
      and lazy quantifiers, capture groups, look-ahead).
    - The module-level caches of the source ([_s], [memoized...]) are the
      fields of one [Memory] record threaded through a state-and-exception
      monad; a [throw] keeps the memory reached so far.
    - The three recursive resolvers have no recursion guard in the source;
      they take a [fuel] argument and answer [Diverge] when it runs out.
      A run that ends with some fuel ends the same way with more
      ([transpileSchema_fuel] and its companions).
    - A plain object used as a map is read as a finite map.  The memo of
      the interface closure is keyed by names read from the schema, which
      may be names of members of [Object.prototype]: its lookup finds these
      members too ([memoizedInterface]).  The keys of the other caches
      (whole schema texts, generic uses and their aliases, memo keys of the
      form kind, name, generic parameters) are taken not to be such names.
    - [addComments] writes the [comments] field in place; the copies of a
      declaration kept in the [inherits] list of its children are the
      declaration as it was before that write.
    - A chain of [lodash] calls runs one call after the other, as [lodash]
      does below two hundred elements. *)

From Stdlib Require Import String Ascii List Bool Arith ZArith Lia.
From stdpp Require Import base gmap strings list fin_maps.
Import ListNotations.

Local Open Scope Z_scope.
Local Open Scope nat_scope.

(* ===================================================================== *)
(** * JavaScript strings *)
(* ===================================================================== *)

Module Js.

Definition chars (s : string) : list ascii := list_ascii_of_string s.
Definition str (l : list ascii) : string := string_of_list_ascii l.

Definition LF : string := String (ascii_of_nat 10) "".
Definition TAB : string := String (ascii_of_nat 9) "".

Definition ch (n : nat) : ascii := ascii_of_nat n.

Definition eqc (a b : ascii) : bool := Ascii.eqb a b.

Definition code (c : ascii) : nat := nat_of_ascii c.

Definition in_range (lo hi : nat) (c : ascii) : bool :=
  (lo <=? code c) && (code c <=? hi).

(** [\s] and [trim]: tab, line feed, vertical tab, form feed, carriage
    return and space. *)
Definition is_space (c : ascii) : bool :=
  in_range 9 13 c || (code c =? 32).

Definition is_digit (c : ascii) : bool := in_range 48 57 c.
Definition is_upper (c : ascii) : bool := in_range 65 90 c.
Definition is_lower (c : ascii) : bool := in_range 97 122 c.

(** [\w] *)
Definition is_word (c : ascii) : bool :=
  is_digit c || is_upper c || is_lower c || (code c =? 95).

(** Line terminators, which [.] refuses. *)
Definition is_newline (c : ascii) : bool :=
  (code c =? 10) || (code c =? 13).

Fixpoint prefix_of (p l : list ascii) : option (list ascii) :=
  match p, l with
  | [], _ => Some l
  | a :: p', b :: l' => if eqc a b then prefix_of p' l' else None
  | _ :: _, [] => None
  end.

(** [s.indexOf(sub)], with [-1] for absence. *)
Fixpoint index_from (sub l : list ascii) (i : Z) : Z :=
  match prefix_of sub l with
  | Some _ => i
  | None => match l with
            | [] => (-1)%Z
            | _ :: l' => index_from sub l' (i + 1)%Z
            end
  end.

Definition indexOf (s sub : string) : Z := index_from (chars sub) (chars s) 0%Z.

(** [s.split(sep)] for a separator string: [skip] counts the bytes of a
    separator still to be passed over. *)
Fixpoint split_go (sep l acc : list ascii) (skip : nat) : list (list ascii) :=
  match l with
  | [] => [rev acc]
  | c :: l' =>
      match skip with
      | S k => split_go sep l' acc k
      | 0 =>
          match prefix_of sep l with
          | Some _ => rev acc :: split_go sep l' [] (List.length sep - 1)
          | None => split_go sep l' (c :: acc) 0
          end
      end
  end.

Definition split (s sep : string) : list string :=
  map str (split_go (chars sep) (chars s) [] 0).

Fixpoint join (sep : string) (l : list string) : string :=
  match l with
  | [] => ""
  | [x] => x
  | x :: l' => x +:+ sep +:+ join sep l'
  end.

Fixpoint drop_space (l : list ascii) : list ascii :=
  match l with
  | c :: l' => if is_space c then drop_space l' else l
  | [] => []
  end.

Definition trim (s : string) : string :=
  str (rev (drop_space (rev (drop_space (chars s))))).

Definition lower_char (c : ascii) : ascii :=
  if is_upper c then ch (code c + 32) else c.
Definition upper_char (c : ascii) : ascii :=
  if is_lower c then ch (code c - 32) else c.
Definition toLowerCase (s : string) : string := str (map lower_char (chars s)).
Definition toUpperCase (s : string) : string := str (map upper_char (chars s)).

(** Truthiness of a string: the empty string is falsy. *)
Definition truthy (s : string) : bool :=
  match s with EmptyString => false | String _ _ => true end.

(** The special patterns of a replacement string: [$$], [$&], [$`] and
    [$'].  No replacement of the source names a capture group. *)
Fixpoint substitute (rep before matched after : list ascii) : list ascii :=
  match rep with
  | [] => []
  | d :: rep' =>
      if eqc d "$" then
        match rep' with
        | e :: rep'' =>
            if eqc e "$" then "$"%char :: substitute rep'' before matched after
            else if eqc e "&" then matched ++ substitute rep'' before matched after
            else if eqc e "`" then before ++ substitute rep'' before matched after
            else if eqc e "'" then after ++ substitute rep'' before matched after
            else d :: substitute rep' before matched after
        | [] => [d]
        end
      else d :: substitute rep' before matched after
  end.

(** [s.replace(pat, rep)] for a string pattern: the first occurrence only. *)
Fixpoint replace_str_go (pat rep l acc : list ascii) : list ascii :=
  match prefix_of pat l with
  | Some rest => rev acc ++ substitute rep (rev acc) pat rest ++ rest
  | None =>
      match l with
      | [] => rev acc
      | c :: l' => replace_str_go pat rep l' (c :: acc)
      end
  end.

Definition replaceStr (s pat rep : string) : string :=
  str (replace_str_go (chars pat) (chars rep) (chars s) []).

(* --------------------------------------------------------------------- *)
(** ** Regular expressions *)

Inductive cls_item : Type :=
  | CChar (c : ascii)
  | CRange (lo hi : ascii)
  | CSpace
  | CWord
  | CDigit.

Inductive regex : Type :=
  | REmpty
  | RChar (c : ascii)
  | RAny
  | RSet (neg : bool) (items : list cls_item)
  | RBol
  | REol
  | RSeq (r1 r2 : regex)
  | RAlt (r1 r2 : regex)
  | RRep (mn : nat) (mx : option nat) (greedy : bool) (r : regex)
  | RGroup (idx : nat) (r : regex)
  | RLook (positive : bool) (r : regex).

Definition in_item (x : ascii) (i : cls_item) : bool :=
  match i with
  | CChar c => eqc c x
  | CRange lo hi => in_range (code lo) (code hi) x
  | CSpace => is_space x
  | CWord => is_word x
  | CDigit => is_digit x
  end.

Definition in_class (items : list cls_item) (x : ascii) : bool :=
  existsb (in_item x) items.

Definition caps : Type := list (nat * list ascii).

(** A matcher state: position, remaining input, captures. *)
Definition mst : Type := (nat * list ascii * caps)%type.

Definition at_max (mx : option nat) (n : nat) : bool :=
  match mx with Some m => m <=? n | None => false end.

Definition orelse {A} (a : option A) (b : unit -> option A) : option A :=
  match a with Some x => Some x | None => b tt end.

(** The backtracking matcher, in continuation-passing style.  A quantifier
    stops iterating once an iteration past the minimum consumes nothing, as
    ECMAScript's RepeatMatcher does; its fuel bounds the iterations by the
    length of the remaining input. *)
Fixpoint rmatch (r : regex) (pos : nat) (rest : list ascii) (cs : caps)
    (k : nat -> list ascii -> caps -> option mst) {struct r} : option mst :=
  match r with
  | REmpty => k pos rest cs
  | RChar c =>
      match rest with
      | x :: rest' => if eqc c x then k (S pos) rest' cs else None
      | [] => None
      end
  | RAny =>
      match rest with
      | x :: rest' => if is_newline x then None else k (S pos) rest' cs
      | [] => None
      end
  | RSet neg items =>
      match rest with
      | x :: rest' =>
          if xorb neg (in_class items x) then k (S pos) rest' cs else None
      | [] => None
      end
  | RBol => if pos =? 0 then k pos rest cs else None
  | REol => match rest with [] => k pos rest cs | _ :: _ => None end
  | RSeq r1 r2 => rmatch r1 pos rest cs (fun p l c => rmatch r2 p l c k)
  | RAlt r1 r2 =>
      orelse (rmatch r1 pos rest cs k) (fun _ => rmatch r2 pos rest cs k)
  | RGroup i r1 =>
      rmatch r1 pos rest cs
        (fun p l c => k p l ((i, firstn (p - pos) rest) :: c))
  | RLook positive r1 =>
      match rmatch r1 pos rest cs (fun p l c => Some (p, l, c)) with
      | Some (_, _, c) => if positive then k pos rest c else None
      | None => if positive then None else k pos rest cs
      end
  | RRep mn mx greedy r1 =>
      (fix loop (fuel n pos : nat) (rest : list ascii) (cs : caps)
           {struct fuel} : option mst :=
         let stop := fun _ : unit =>
           if mn <=? n then k pos rest cs else None in
         let more := fun _ : unit =>
           match fuel with
           | 0 => None
           | S f =>
               if at_max mx n then None
               else rmatch r1 pos rest cs
                      (fun p l c =>
                         if (mn <=? n) && (p =? pos) then None
                         else loop f (S n) p l c)
           end in
         if greedy then orelse (more tt) stop else orelse (stop tt) more)
        (mn + List.length rest + 1) 0 pos rest cs
  end.

Record found : Type := Found {
  m_index : nat;
  m_text : list ascii;
  m_groups : caps;
  m_after : list ascii
}.

(** The leftmost match at or after [pos]. *)
Fixpoint exec_at (r : regex) (pos : nat) (rest : list ascii) : option found :=
  match rmatch r pos rest [] (fun p l c => Some (p, l, c)) with
  | Some (p, l, c) => Some (Found pos (firstn (p - pos) rest) c l)
  | None =>
      match rest with
      | [] => None
      | _ :: rest' => exec_at r (S pos) rest'
      end
  end.

Fixpoint cap_lookup (i : nat) (cs : caps) : option (list ascii) :=
  match cs with
  | [] => None
  | (j, t) :: cs' => if i =? j then Some t else cap_lookup i cs'
  end.

(** [s.match(re)] without the [g] flag; [whole m] is [m[0]] and
    [group i m] is [m[i]] ([None] for [undefined]). *)
Definition exec (r : regex) (s : string) : option found := exec_at r 0 (chars s).
Definition whole (m : found) : string := str (m_text m).
Definition group (i : nat) (m : found) : option string :=
  option_map str (cap_lookup i (m_groups m)).

Definition test (r : regex) (s : string) : bool :=
  match exec r s with Some _ => true | None => false end.

(** [s.match(re)] with the [g] flag: every match, left to right; the
    empty list stands for [null]. *)
Fixpoint match_all_go (fuel : nat) (r : regex) (pos : nat) (rest : list ascii)
    : list (list ascii) :=
  match fuel with
  | 0 => []
  | S f =>
      match exec_at r pos rest with
      | None => []
      | Some m =>
          m_text m ::
          match m_text m, m_after m with
          | [], [] => []
          | [], _ :: l' => match_all_go f r (S (m_index m)) l'
          | _ :: _, l' =>
              match_all_go f r (m_index m + List.length (m_text m)) l'
          end
      end
  end.

Definition matchAll (r : regex) (s : string) : list string :=
  map str (match_all_go (S (String.length s)) r 0 (chars s)).

(** [s.replace(re, rep)]; [global] is the [g] flag. *)
Fixpoint replace_go (fuel : nat) (global : bool) (r : regex) (rep : list ascii)
    (pos : nat) (rest done : list ascii) : list ascii :=
  match fuel with
  | 0 => rest
  | S f =>
      match exec_at r pos rest with
      | None => rest
      | Some m =>
          let before := firstn (m_index m - pos) rest in
          let out := substitute rep (rev_append done before) (m_text m) (m_after m) in
          before ++ out ++
          (if global then
             match m_text m, m_after m with
             | [], [] => []
             | [], c :: l' =>
                 c :: replace_go f global r rep (S (m_index m)) l'
                        (c :: rev_append before done)
             | t, l' =>
                 replace_go f global r rep (m_index m + List.length t) l'
                   (rev_append t (rev_append before done))
             end
           else m_after m)
      end
  end.

Definition replace (r : regex) (s rep : string) : string :=
  str (replace_go (S (String.length s)) false r (chars rep) 0 (chars s) []).
Definition replaceAll (r : regex) (s rep : string) : string :=
  str (replace_go (S (String.length s)) true r (chars rep) 0 (chars s) []).

(* --------------------------------------------------------------------- *)
(** ** Reading a regular expression literal *)

Fixpoint read_nat (l : list ascii) (acc : nat) : nat * list ascii :=
  match l with
  | c :: l' => if is_digit c then read_nat l' (10 * acc + (code c - 48)) else (acc, l)
  | [] => (acc, l)
  end.

(** A counted quantifier [{n}], [{n,}] or [{n,m}] at the head of [l]; a
    brace that opens none is an ordinary character. *)
Definition read_counted (l : list ascii) : option (nat * option nat * list ascii) :=
  match l with
  | b :: d :: l' =>
      if eqc b "{" && is_digit d then
        let '(n, l1) := read_nat (d :: l') 0 in
        match l1 with
        | e :: l2 =>
            if eqc e "}" then Some (n, Some n, l2)
            else if eqc e "," then
              match l2 with
              | f :: l3 =>
                  if eqc f "}" then Some (n, None, l3)
                  else if is_digit f then
                    let '(m, l4) := read_nat l2 0 in
                    match l4 with
                    | g :: l5 => if eqc g "}" then Some (n, Some m, l5) else None
                    | [] => None
                    end
                  else None
              | [] => None
              end
            else None
        | [] => None
        end
      else None
  | _ => None
  end.

Definition read_lazy (l : list ascii) : bool * list ascii :=
  match l with
  | c :: l' => if eqc c "?" then (false, l') else (true, l)
  | [] => (true, l)
  end.

(** The quantifier, if any, that follows an atom. *)
Definition read_quant (a : regex) (l : list ascii) : regex * list ascii :=
  match l with
  | c :: l' =>
      if eqc c "*" then let '(g, l2) := read_lazy l' in (RRep 0 None g a, l2)
      else if eqc c "+" then let '(g, l2) := read_lazy l' in (RRep 1 None g a, l2)
      else if eqc c "?" then let '(g, l2) := read_lazy l' in (RRep 0 (Some 1) g a, l2)
      else match read_counted l with
           | Some (n, m, l1) => let '(g, l2) := read_lazy l1 in (RRep n m g a, l2)
           | None => (a, l)
           end
  | [] => (a, l)
  end.

(** An escape [\c], inside or outside a class. *)
Definition read_escape (c : ascii) : cls_item :=
  if eqc c "s" then CSpace
  else if eqc c "w" then CWord
  else if eqc c "d" then CDigit
  else if eqc c "n" then CChar (ch 10)
  else if eqc c "r" then CChar (ch 13)
  else if eqc c "t" then CChar (ch 9)
  else CChar c.

Definition item_regex (i : cls_item) : regex :=
  match i with
  | CChar c => RChar c
  | _ => RSet false [i]
  end.

(** The items of a class, up to its closing bracket. *)
Fixpoint read_class (l : list ascii) (acc : list cls_item)
    : option (list cls_item * list ascii) :=
  match l with
  | [] => None
  | c :: l' =>
      if eqc c "]" then Some (rev acc, l')
      else if eqc c "\" then
        match l' with
        | e :: l2 => read_class l2 (read_escape e :: acc)
        | [] => None
        end
      else
        match l' with
        | d :: hi :: l2 =>
            if eqc d "-" && negb (eqc hi "]")
            then read_class l2 (CRange c hi :: acc)
            else read_class l' (CChar c :: acc)
        | _ => read_class l' (CChar c :: acc)
        end
  end.

Definition is_close (l : list ascii) : option (list ascii) :=
  match l with
  | c :: l' => if eqc c ")" then Some l' else None
  | [] => None
  end.

(** Disjunction, sequence and atom; [g] counts the capture groups opened
    so far, which numbers them in the order of their opening parenthesis. *)
Fixpoint read_alt (fuel : nat) (l : list ascii) (g : nat)
    : option (regex * list ascii * nat) :=
  match fuel with
  | 0 => None
  | S f =>
      match read_seq f l g with
      | Some (r1, l1, g1) =>
          match l1 with
          | c :: l2 =>
              if eqc c "|" then
                match read_alt f l2 g1 with
                | Some (r2, l3, g2) => Some (RAlt r1 r2, l3, g2)
                | None => None
                end
              else Some (r1, l1, g1)
          | [] => Some (r1, l1, g1)
          end
      | None => None
      end
  end
with read_seq (fuel : nat) (l : list ascii) (g : nat)
    : option (regex * list ascii * nat) :=
  match fuel with
  | 0 => None
  | S f =>
      match l with
      | [] => Some (REmpty, l, g)
      | c :: _ =>
          if eqc c "|" || eqc c ")" then Some (REmpty, l, g)
          else
            match read_atom f l g with
            | Some (a, l1, g1) =>
                let '(q, l2) := read_quant a l1 in
                match read_seq f l2 g1 with
                | Some (REmpty, l3, g3) => Some (q, l3, g3)
                | Some (r, l3, g3) => Some (RSeq q r, l3, g3)
                | None => None
                end
            | None => None
            end
      end
  end
with read_atom (fuel : nat) (l : list ascii) (g : nat)
    : option (regex * list ascii * nat) :=
  match fuel with
  | 0 => None
  | S f =>
      match l with
      | [] => None
      | c :: l1 =>
          if eqc c "(" then
            match l1 with
            | q :: k :: l2 =>
                if eqc q "?" then
                  match read_alt f l2 g with
                  | Some (r, l3, g3) =>
                      match is_close l3 with
                      | Some l4 =>
                          if eqc k ":" then Some (r, l4, g3)
                          else if eqc k "=" then Some (RLook true r, l4, g3)
                          else if eqc k "!" then Some (RLook false r, l4, g3)
                          else None
                      | None => None
                      end
                  | None => None
                  end
                else
                  match read_alt f l1 (S g) with
                  | Some (r, l3, g3) =>
                      match is_close l3 with
                      | Some l4 => Some (RGroup (S g) r, l4, g3)
                      | None => None
                      end
                  | None => None
                  end
            | _ => None
            end
          else if eqc c "[" then
            match l1 with
            | n :: l2 =>
                let '(neg, body) := if eqc n "^" then (true, l2) else (false, l1) in
                match read_class body [] with
                | Some (items, l3) => Some (RSet neg items, l3, g)
                | None => None
                end
            | [] => None
            end
          else if eqc c "\" then
            match l1 with
            | e :: l2 => Some (item_regex (read_escape e), l2, g)
            | [] => None
            end
          else if eqc c "." then Some (RAny, l1, g)
          else if eqc c "^" then Some (RBol, l1, g)
          else if eqc c "$" then Some (REol, l1, g)
          else Some (RChar c, l1, g)
      end
  end.

Definition read_regex (src : string) : option regex :=
  match read_alt (3 * String.length src + 3) (chars src) 0 with
  | Some (r, [], _) => Some r
  | _ => None
  end.

(** [re src] is the expression written [/src/] in the source; it is
    well-typed only where [src] reads as an expression. *)
Definition must {A : Type} (o : option A)
    : match o with Some _ => A | None => unit end :=
  match o with Some a => a | None => tt end.

Abbreviation re src := (must (read_regex src)) (only parsing).

(* --------------------------------------------------------------------- *)
(** ** Plain objects used as caches *)

(** The source keeps its caches in plain objects [{}] and tests
    [cache[key]] for truthiness.  A plain object inherits the members of
    [Object.prototype], so such a test succeeds for their names even on an
    empty cache.  [Object_prototype k] is the member of name [k], if any,
    as the text it prints to ([String(value)]): the members are functions,
    [constructor] is [Object], and the accessor [__proto__] yields
    [Object.prototype] itself.  Such a text holds spaces, which no name
    that the parser reads does. *)
Definition native (name : string) : string :=
  "function " +:+ name +:+ "() { [native code] }".

Definition Object_prototype (k : string) : option string :=
  if existsb (String.eqb k)
       ["__defineGetter__"; "__defineSetter__"; "hasOwnProperty"; "__lookupGetter__";
        "__lookupSetter__"; "isPrototypeOf"; "propertyIsEnumerable"; "toString";
        "valueOf"; "toLocaleString"]
  then Some (native k)
  else if String.eqb k "constructor" then Some (native "Object")
  else if String.eqb k "__proto__" then Some "[object Object]"
  else None.

End Js.

(* ===================================================================== *)
(** * The regular expressions of the source *)
(* ===================================================================== *)

Definition GENERICTYPEREGEX : Js.regex := Eval vm_compute in Js.re "<(.*?)>".
Definition TYPENAMEREGEX : Js.regex := Eval vm_compute in Js.re "type\s(.*?){".
Definition INPUTNAMEREGEX : Js.regex := Eval vm_compute in Js.re "input\s(.*?){".
Definition ENUMNAMEREGEX : Js.regex := Eval vm_compute in Js.re "enum\s(.*?){".
Definition INTERFACENAMEREGEX : Js.regex := Eval vm_compute in Js.re "interface\s(.*?){".
Definition ABSTRACTNAMEREGEX : Js.regex := Eval vm_compute in Js.re "abstract\s(.*?){".
Definition INHERITSREGEX : Js.regex :=
  Eval vm_compute in Js.re "inherits\s+\w+(?:\s*,\s*\w+)*".
Definition IMPLEMENTSREGEX : Js.regex := Eval vm_compute in Js.re "implements\s(.*?)\{".
Definition PROPERTYPARAMSREGEX : Js.regex := Eval vm_compute in Js.re "\((.*?)\)".

(** The seven extraction expressions; [rx_type] is the [type] field of the
    source's [{ regex, type }] pairs. *)
Inductive rx_type : Type :=
  | rx_block
  | rx_scalar
  | rx_union.

Record Rx : Type := { rx_regex : Js.regex; rx_kind : rx_type }.

Definition TYPE_REGEX_regex : Js.regex :=
  Eval vm_compute in Js.re "(extend type|type)\s(.*?){(.*?)░([^#]*?)}".
Definition TYPE_REGEX : Rx := {| rx_regex := TYPE_REGEX_regex; rx_kind := rx_block |}.
Definition INPUT_REGEX_regex : Js.regex :=
  Eval vm_compute in Js.re "(extend input|input)\s(.*?){(.*?)░([^#]*?)}".
Definition INPUT_REGEX : Rx := {| rx_regex := INPUT_REGEX_regex; rx_kind := rx_block |}.
Definition ENUM_REGEX_regex : Js.regex :=
  Eval vm_compute in Js.re "enum\s(.*?){(.*?)░([^#]*?)}".
Definition ENUM_REGEX : Rx := {| rx_regex := ENUM_REGEX_regex; rx_kind := rx_block |}.
Definition INTERFACE_REGEX_regex : Js.regex :=
  Eval vm_compute in Js.re "(extend interface|interface)\s(.*?){(.*?)░([^#]*?)}".
Definition INTERFACE_REGEX : Rx := {| rx_regex := INTERFACE_REGEX_regex; rx_kind := rx_block |}.
Definition ABSTRACT_REGEX_regex : Js.regex :=
  Eval vm_compute in Js.re "(extend abstract|abstract)\s(.*?){(.*?)░([^#]*?)}".
Definition ABSTRACT_REGEX : Rx := {| rx_regex := ABSTRACT_REGEX_regex; rx_kind := rx_block |}.
Definition SCALAR_REGEX_regex : Js.regex :=
  Eval vm_compute in Js.re "(.{1}|.{0})scalar\s(.*?)([^\s]*?)(?![a-zA-Z0-9])".
Definition SCALAR_REGEX : Rx := {| rx_regex := SCALAR_REGEX_regex; rx_kind := rx_scalar |}.
Definition UNION_REGEX_regex : Js.regex :=
  Eval vm_compute in Js.re "(.{1}|.{0})union([^\n]*?)\n".
Definition UNION_REGEX : Rx := {| rx_regex := UNION_REGEX_regex; rx_kind := rx_union |}.

Definition carrReturnEsc : string := "░".
Definition tabEsc : string := "_t_".

(** The expressions written in line in the functions of the source. *)
Definition RX_COMMENT_ESC : Js.regex := Eval vm_compute in Js.re "#(.*?)░".
Definition RX_COMMENT_LF : Js.regex := Eval vm_compute in Js.re "#(.*?)\n".
Definition RX_NOT_ALNUM_START : Js.regex := Eval vm_compute in Js.re "^(?![a-zA-Z0-9])".
Definition RX_BLOCK : Js.regex := Eval vm_compute in Js.re "{(.*?)░([^#]*?)}".
Definition RX_TAB_ESC : Js.regex := Eval vm_compute in Js.re "_t_".
Definition RX_OPEN_START : Js.regex := Eval vm_compute in Js.re "^{".
Definition RX_CLOSE_END : Js.regex := Eval vm_compute in Js.re "}$".
Definition RX_OPEN_END : Js.regex := Eval vm_compute in Js.re "{$".
Definition RX_SPACES : Js.regex := Eval vm_compute in Js.re " +(?= )".
Definition RX_UNION_WORD : Js.regex := Eval vm_compute in Js.re "(^union\s|\sunion\s|\n)".
Definition RX_ENTITY (kw : string) : option Js.regex :=
  Js.read_regex (kw +:+ "\s+(.*?)\s+.*").
Definition RX_COMMENT_HEAD : Js.regex := Eval vm_compute in Js.re "#(.*?)░([^#]*?)({|:)".
Definition RX_SPACE : Js.regex := Eval vm_compute in Js.re "\s".
Definition RX_BANG_END : Js.regex := Eval vm_compute in Js.re "!$".
Definition RX_BRACKETS : Js.regex := Eval vm_compute in Js.re "\[(.*?)\]".
Definition RX_UPTO_LT : Js.regex := Eval vm_compute in Js.re ".*<".
Definition RX_LT_END : Js.regex := Eval vm_compute in Js.re "<$".
Definition RX_DIRECTIVE : Js.regex := Eval vm_compute in Js.re "@.+".
Definition RX_COMMA_END : Js.regex := Eval vm_compute in Js.re ",$".
Definition RX_TYPEDEF : Js.regex := Eval vm_compute in Js.re "(.*?){".
Definition RX_HEAD_DIRECTIVE : Js.regex := Eval vm_compute in Js.re "@[a-zA-Z0-9_]+(.*?)$".
Definition SANITIZE_GEN_TYPE_REGEX : Js.regex :=
  Eval vm_compute in Js.re "^\[|\s|\](\s*)(!*)(\s*)$|!".
Definition RX_ARRAY : Js.regex := Eval vm_compute in Js.re "^\[.*\]$".
Definition RX_ARRAY_ENDS : Js.regex := Eval vm_compute in Js.re "^\[|\]$".
Definition RX_CR_ESC : Js.regex := Eval vm_compute in Js.re "░".

(* ===================================================================== *)
(** * Data model *)
(* ===================================================================== *)

(** The [type] field of a schema object: the upper-cased keyword. *)
Inductive SchemaType : Type :=
  | TYPE | INPUT | ENUM | INTERFACE | ABSTRACT | SCALAR | UNION | DIRECTIVE.

Definition type_name (t : SchemaType) : string :=
  match t with
  | TYPE => "TYPE" | INPUT => "INPUT" | ENUM => "ENUM"
  | INTERFACE => "INTERFACE" | ABSTRACT => "ABSTRACT" | SCALAR => "SCALAR"
  | UNION => "UNION" | DIRECTIVE => "DIRECTIVE"
  end.

Definition type_eqb (a b : SchemaType) : bool :=
  String.eqb (type_name a) (type_name b).

(** A metadata annotation, as the metadata extractor hands it over; the
    fields are those the source reads. *)
Record Metadata : Type := {
  md_name : string;
  md_body : option string;
  md_schemaType : string;
  md_schemaName : string;
  md_parent : option (string * string);
  md_directive : bool
}.

(** The result of [getTypeDetails] (and of the parameter variant built in
    [getTranspiledParams]); a field the source leaves [undefined] is [None],
    [false] or [[]]. *)
Record TypeDetails : Type := {
  td_originName : option string;
  td_directive : option string;
  td_isGen : bool;
  td_dependsOnParent : bool;
  td_metadata : list Metadata;
  td_genericParentTypes : option (list string);
  td_name : string;
  td_paramName : option string
}.

Record PropDetails : Type := {
  pd_name : string;
  pd_metadata : option Metadata;
  pd_params : option string;
  pd_result : TypeDetails
}.

Record BlockProp : Type := {
  bp_comments : string;
  bp_details : PropDetails;
  bp_value : string
}.

(** [inherits] holds the parent names after parsing and the resolved
    parents after [getObjWithExtensions]. *)
Inductive Inherits (A : Type) : Type :=
  | Names (l : list string)
  | Parents (l : list A).
Arguments Names {A} l.
Arguments Parents {A} l.

#[warnings="-register-all"]
Inductive SchemaObj : Type := mkSchemaObj {
  so_type : SchemaType;
  so_extend : bool;
  so_name : string;
  so_metadata : option Metadata;
  so_directive : option string;
  so_genericType : option string;
  so_blockProps : list BlockProp;
  so_originalBlockProps : option (list BlockProp);
  so_inherits : option (Inherits SchemaObj);
  so_implements : option (list string);
  so_comments : option string;
  so_raw : option string
}.

(** A fragment cut out by [getSchemaBits]: [block] is the list of body
    lines of a braced declaration and the bare text of a scalar or union. *)
Inductive Block : Type :=
  | Lines (l : list string)
  | Text (s : string).

Record Bit : Type := { property : string; block : Block; extend : bool }.

Record Entity : Type := { en_type : option SchemaType; en_name : option string }.

Record CommentBit : Type := { cb_text : string; cb_property : Entity }.

(** What [createNewSchemaObjectFromGeneric] returns and memoizes. *)
Record GenericResult : Type := {
  obj : option SchemaObj;
  stringObj : option string
}.

(** A JavaScript object read in insertion order: [memoizedGenericSchemaObjects]
    and the [resolvedGenericTypes] of the callers. *)
Definition Dict (V : Type) : Type := list (string * V).

Fixpoint dict_get {V} (d : Dict V) (k : string) : option V :=
  match d with
  | [] => None
  | (k', v) :: d' => if String.eqb k k' then Some v else dict_get d' k
  end.

Fixpoint dict_set {V} (d : Dict V) (k : string) (v : V) : Dict V :=
  match d with
  | [] => [(k, v)]
  | (k', v') :: d' =>
      if String.eqb k k' then (k, v) :: d' else (k', v') :: dict_set d' k v
  end.

Definition dict_values {V} (d : Dict V) : list V := map snd d.

(** The module-level caches. *)
Record Memory : Type := mkMemory {
  _s : gmap string string;
  memoizedGenericSchemaObjects : Dict TypeDetails;
  memoizedExtendedObject : gmap string SchemaObj;
  memoizedInterfaceWithAncestors : gmap string (list string);
  memoizedGenericNameAliases : gmap string string;
  memoizedAliases : option (list Metadata)
}.

Definition emptyMemory : Memory := mkMemory ∅ [] ∅ ∅ ∅ None.

(* ===================================================================== *)
(** * Exceptions, state and fuel *)
(* ===================================================================== *)

(** [throw new Error(msg)] is [Err msg]; a property read on [null] or
    [undefined] is [TypeError], with the expression that was read. *)
Inductive Error : Type :=
  | Err (message : string)
  | TypeError (expression : string).

Inductive outcome (A : Type) : Type :=
  | Val (a : A)
  | Throw (e : Error)
  | Diverge.
Arguments Val {A} a.
Arguments Throw {A} e.
Arguments Diverge {A}.

Definition obind {A B} (c : outcome A) (k : A -> outcome B) : outcome B :=
  match c with
  | Val a => k a
  | Throw e => Throw e
  | Diverge => Diverge
  end.

Notation "x <-? c1 ;; c2" := (obind c1 (fun x => c2))
  (at level 100, c1 at next level, right associativity).

Fixpoint omap {A B} (f : A -> outcome B) (l : list A) : outcome (list B) :=
  match l with
  | [] => Val []
  | x :: l' => y <-? f x ;; ys <-? omap f l' ;; Val (y :: ys)
  end.

Definition M (A : Type) : Type := Memory -> outcome A * Memory.

Definition ret {A} (a : A) : M A := fun m => (Val a, m).
Definition throw {A} (e : Error) : M A := fun m => (Throw e, m).
Definition diverge {A} : M A := fun m => (Diverge, m).
Definition lift {A} (c : outcome A) : M A := fun m => (c, m).
Definition bind {A B} (c : M A) (k : A -> M B) : M B :=
  fun m =>
    match c m with
    | (Val a, m') => k a m'
    | (Throw e, m') => (Throw e, m')
    | (Diverge, m') => (Diverge, m')
    end.
Definition get : M Memory := fun m => (Val m, m).
Definition put (m' : Memory) : M unit := fun _ => (Val tt, m').

Notation "x <- c1 ;; c2" := (bind c1 (fun x => c2))
  (at level 100, c1 at next level, right associativity).

Fixpoint mapM {A B} (f : A -> M B) (l : list A) : M (list B) :=
  match l with
  | [] => ret []
  | x :: l' => y <- f x ;; ys <- mapM f l' ;; ret (y :: ys)
  end.

(** A left fold whose step runs in [M]: [forEach] and [reduce] over an
    accumulator that the callback updates. *)
Fixpoint foldM {A S} (f : S -> A -> M S) (l : list A) (s : S) : M S :=
  match l with
  | [] => ret s
  | x :: l' => s' <- f s x ;; foldM f l' s'
  end.

Definition set_s (f : gmap string string -> gmap string string) (m : Memory) : Memory :=
  mkMemory (f (_s m)) (memoizedGenericSchemaObjects m) (memoizedExtendedObject m)
    (memoizedInterfaceWithAncestors m) (memoizedGenericNameAliases m) (memoizedAliases m).
Definition set_memoizedGenericSchemaObjects (f : Dict TypeDetails -> Dict TypeDetails)
    (m : Memory) : Memory :=
  mkMemory (_s m) (f (memoizedGenericSchemaObjects m)) (memoizedExtendedObject m)
    (memoizedInterfaceWithAncestors m) (memoizedGenericNameAliases m) (memoizedAliases m).
Definition set_memoizedExtendedObject (f : gmap string SchemaObj -> gmap string SchemaObj)
    (m : Memory) : Memory :=
  mkMemory (_s m) (memoizedGenericSchemaObjects m) (f (memoizedExtendedObject m))
    (memoizedInterfaceWithAncestors m) (memoizedGenericNameAliases m) (memoizedAliases m).
Definition set_memoizedInterfaceWithAncestors
    (f : gmap string (list string) -> gmap string (list string)) (m : Memory) : Memory :=
  mkMemory (_s m) (memoizedGenericSchemaObjects m) (memoizedExtendedObject m)
    (f (memoizedInterfaceWithAncestors m)) (memoizedGenericNameAliases m) (memoizedAliases m).
Definition set_memoizedGenericNameAliases (f : gmap string string -> gmap string string)
    (m : Memory) : Memory :=
  mkMemory (_s m) (memoizedGenericSchemaObjects m) (memoizedExtendedObject m)
    (memoizedInterfaceWithAncestors m) (f (memoizedGenericNameAliases m)) (memoizedAliases m).
Definition set_memoizedAliases (a : option (list Metadata)) (m : Memory) : Memory :=
  mkMemory (_s m) (memoizedGenericSchemaObjects m) (memoizedExtendedObject m)
    (memoizedInterfaceWithAncestors m) (memoizedGenericNameAliases m) a.

Definition modify (f : Memory -> Memory) : M unit := fun m => (Val tt, f m).

(* ===================================================================== *)
(** * The functions of [graphqls2s.js] *)
(* ===================================================================== *)

Definition quote : string := String (ascii_of_nat 34) "".

(** [(a[i])] for an array of strings: [None] is [undefined]. *)
Definition nth_str (l : list string) (i : nat) : option string := nth_error l i.

Definition last_str (l : list string) : option string := List.last (map Some l) None.

Definition opt_truthy (o : option string) : bool :=
  match o with Some s => Js.truthy s | None => false end.

Definition breakdownSchemabBit (str : string) : outcome Bit :=
  match Js.exec RX_BLOCK str with
  | None => Throw (Err "Schema error: Missing block")
  | Some blockMatch =>
      let block :=
        List.filter (fun x => negb (String.eqb x ""))
          (map Js.trim
             (Js.split
                (Js.replace RX_CLOSE_END
                   (Js.replace RX_OPEN_START
                      (Js.replaceAll RX_TAB_ESC (Js.whole blockMatch) "") "") "")
                carrReturnEsc)) in
      let rawProperty :=
        Js.trim
          (Js.replaceAll RX_SPACES
             (Js.join " " (Js.split (Js.join " " (Js.split str carrReturnEsc)) tabEsc))
             "") in
      if (Js.indexOf rawProperty "extend" =? 0)%Z
      then Val {| property := Js.replaceStr rawProperty "extend " "";
                  block := Lines block; extend := true |}
      else Val {| property := rawProperty; block := Lines block; extend := false |}
  end.

Definition breakdownScalarBit (str : string) : Bit :=
  let block := default "" (last_str (Js.split str " ")) in
  {| property := "scalar " +:+ block; block := Text block; extend := false |}.

Definition breakdownUnionBit (str : string) : Bit :=
  let block := Js.trim (Js.replaceAll RX_UNION_WORD str "") in
  {| property := "union " +:+ block; block := Text block; extend := false |}.

(** [firstLine.match(/kw\s+(.*?)\s+.*/)[1].trim()] *)
Definition entity_name (kw firstLine : string) : outcome string :=
  match RX_ENTITY kw with
  | Some rx =>
      match Js.exec rx firstLine with
      | Some m => Val (Js.trim (default "" (Js.group 1 m)))
      | None => Throw (TypeError "firstLine.match(...)[1]")
      end
  | None => Throw (TypeError "firstLine.match(...)[1]")
  end.

Definition getSchemaEntity (firstLine : string) : outcome Entity :=
  let starts kw := (Js.indexOf firstLine kw =? 0)%Z in
  let entity t kw :=
    n <-? entity_name kw firstLine ;;
    Val {| en_type := Some t; en_name := Some n |} in
  if starts "type" then entity TYPE "type"
  else if starts "enum" then entity ENUM "enum"
  else if starts "input" then entity INPUT "input"
  else if starts "interface" then entity INTERFACE "interface"
  else if starts "union" then entity UNION "union"
  else if starts "scalar" then entity SCALAR "scalar"
  else Val {| en_type := None; en_name := None |}.

(** Gets the alias for a generic type (e.g. Paged<Product> -> PagedProduct) *)
Definition genericDefaultNameAlias (genName : string) : string :=
  if negb (Js.truthy genName) then ""
  else
    match Js.exec GENERICTYPEREGEX genName with
    | Some m =>
        let parts := Js.split genName (Js.whole m) in
        default "" (nth_str parts 0) +:+
        Js.join "" (map Js.trim (Js.split (default "" (Js.group 1 m)) ","))
    | None => genName
    end.

(** The [for] loop of [replaceGenericWithType]: the concrete type at the
    first index below [cTypesLength] whose letter is [t]. *)
Fixpoint matching_type (gLetters cTypes : list string) (t : string) : option string :=
  match cTypes with
  | [] => None
  | c :: cTypes' =>
      match gLetters with
      | g :: gLetters' =>
          if String.eqb g t then Some c else matching_type gLetters' cTypes' t
      | [] => matching_type [] cTypes' t
      end
  end.

Definition mismatch_count (genericLetters : list string) (what value : string) : Error :=
  Err ("Invalid argument exception. Mismatch between the number of types in 'genericLetters' ("
       +:+ Js.join "," genericLetters +:+ ") and '" +:+ what +:+ "' (" +:+ value +:+ ").").

Definition mismatch_types (genericType : string) (genericLetters : list string) : Error :=
  Err ("Invalid argument exception. Mismatch types between the 'genericType' ("
       +:+ genericType +:+ ") and the allowed types 'genericLetters' ("
       +:+ Js.join "," genericLetters +:+ ").").

(** Example: [T] -> [User], or T -> User or Toy<T> -> Toy<User> *)
Definition replaceGenericWithType (genericType : string) (genericLetters : list string)
    (concreteType : string) : outcome string :=
  let gType := Js.replaceAll RX_SPACE genericType "" in
  let gLetters := map (fun x => Js.replaceAll RX_SPACE x "") genericLetters in
  let cTypes := map (fun x => Js.replaceAll RX_SPACE x "") (Js.split concreteType ",") in
  let cTypesLength := List.length cTypes in
  let genericTypeIsArray :=
    (Js.indexOf gType "[" =? 0)%Z && (0 <? Js.indexOf gType "]")%Z in
  let endingChar := if Js.test RX_BANG_END gType then "!" else "" in
  let inner :=
    if genericTypeIsArray then
      match Js.exec RX_BRACKETS gType with
      | Some m => Val (default "" (Js.group 1 m))
      | None => Throw (TypeError "gType.match(/\[(.*?)\]/)[1]")
      end
    else Val gType in
  let wrap result :=
    if genericTypeIsArray then "[" +:+ result +:+ "]" +:+ endingChar
    else result +:+ endingChar in
  if negb (List.length gLetters =? cTypesLength) then
    Throw (mismatch_count genericLetters "concreteType" concreteType)
  else if (List.length gLetters =? 1)
          && String.eqb (Js.replace RX_BANG_END gType "") (default "" (nth_str gLetters 0))
  then Val (default "" (nth_str cTypes 0) +:+ endingChar)
  else if (0 <? Js.indexOf gType "<")%Z && (0 <? Js.indexOf gType ">")%Z then
    type <-? inner ;;
    match Js.exec RX_UPTO_LT type, Js.exec GENERICTYPEREGEX type with
    | Some mn, Some mt =>
        let typeName := Js.trim (Js.replace RX_LT_END (Js.whole mn) "") in
        let types := map Js.trim (Js.split (default "" (Js.group 1 mt)) ",") in
        if negb (List.length types =? List.length gLetters) then
          Throw (mismatch_count genericLetters "genericType" genericType)
        else
          matchingConcreteTypes <-?
            omap (fun t =>
                    match matching_type gLetters cTypes t with
                    | Some c => Val c
                    | None => Throw (mismatch_types genericType genericLetters)
                    end) types ;;
          Val (wrap (typeName +:+ "<" +:+ Js.join "," matchingConcreteTypes +:+ ">"))
    | None, _ => Throw (TypeError "type.match(/.*</)[0]")
    | _, None => Throw (TypeError "type.match(/<(.*?)>/)[1]")
    end
  else
    type <-? inner ;;
    matchingConcreteTypes <-?
      omap (fun t =>
              let isRequired := Js.test RX_BANG_END t in
              let t' := Js.trim (if isRequired then Js.replace RX_BANG_END t "" else t) in
              match matching_type gLetters cTypes t' with
              | Some c => Val (c +:+ (if isRequired then "!" else ""))
              | None => Throw (mismatch_types genericType genericLetters)
              end) (Js.split type ",") ;;
    Val (wrap (Js.join "," matchingConcreteTypes)).

Definition getPropertyValue (d : PropDetails) : string :=
  let leftPart :=
    pd_name d +:+
    (if opt_truthy (pd_params d) then "(" +:+ default "" (pd_params d) +:+ ")" else "") in
  if Js.truthy (td_name (pd_result d)) then
    let rightPart := td_name (pd_result d) in
    let rightPart :=
      if opt_truthy (td_directive (pd_result d))
      then rightPart +:+ " " +:+ default "" (td_directive (pd_result d))
      else rightPart in
    leftPart +:+ ": " +:+ rightPart
  else leftPart.

Definition inheritingIsAllowed (o subClass : SchemaObj) : bool :=
  if type_eqb (so_type o) TYPE
  then type_eqb (so_type subClass) TYPE || type_eqb (so_type subClass) INTERFACE
  else type_eqb (so_type o) (so_type subClass).

Definition entity_is (e : Entity) (t : SchemaType) (n : string) : bool :=
  match en_type e, en_name e with
  | Some t', Some n' => type_eqb t' t && String.eqb n' n
  | _, _ => false
  end.

Definition with_comments (o : SchemaObj) (c : option string) : SchemaObj :=
  mkSchemaObj (so_type o) (so_extend o) (so_name o) (so_metadata o) (so_directive o)
    (so_genericType o) (so_blockProps o) (so_originalBlockProps o) (so_inherits o)
    (so_implements o) c (so_raw o).

Definition addComments (o : SchemaObj) (comments : list CommentBit) : SchemaObj :=
  with_comments o
    (head (map cb_text
             (List.filter (fun c => entity_is (cb_property c) (so_type o) (so_name o)) comments))).

Definition parseSchemaObjToString (comments : option string) (type : SchemaType)
    (name : string) (_implements : option (list string)) (blockProps : list BlockProp)
    (extend : bool) (directive : option string) : string :=
  let some := match blockProps with [] => false | _ :: _ => true end in
  Js.join Js.LF
    (List.filter Js.truthy
       [ (if opt_truthy comments then Js.LF +:+ default "" comments else "");
         (if extend then "extend " else "") +:+ Js.toLowerCase (type_name type) +:+ " "
           +:+ Js.replaceStr name "!" ""
           +:+ (match _implements with
                | Some (i :: l) => " implements " +:+ Js.join ", " (i :: l)
                | _ => ""
                end)
           +:+ " "
           +:+ (if some
                then (if opt_truthy directive
                      then " " +:+ default "" directive +:+ " " else "") +:+ "{"
                else "")
           +:+ " ";
         Js.join Js.LF
           (map (fun prop =>
                   "    " +:+
                   (if negb (String.eqb (bp_comments prop) "")
                    then bp_comments prop +:+ Js.LF +:+ "    " else "")
                   +:+ bp_value prop) blockProps);
         (if some then "}" else "") ]).

(** An argument of [isTypeGeneric], which is exported and takes any value:
    [null], [undefined], a string, or a value [JOther truthy] that is no
    string and has no [replace] method (a number, a boolean, a plain object
    or an array), of which only the truthiness matters. *)
Inductive jsvalue : Type :=
  | JNull
  | JUndefined
  | JStr (s : string)
  | JOther (truthy : bool).

Definition falsy (v : jsvalue) : bool :=
  match v with
  | JStr s => negb (Js.truthy s)
  | JOther truthy => negb truthy
  | JNull | JUndefined => true
  end.

(** [v ? v.replace(SANITIZE_GEN_TYPE_REGEX, '') : v], for the argument
    written [what] in the source. *)
Definition sanitize (what : string) (v : jsvalue) : outcome jsvalue :=
  match v with
  | JStr s =>
      if Js.truthy s then Val (JStr (Js.replaceAll SANITIZE_GEN_TYPE_REGEX s "")) else Val v
  | JOther true => Throw (TypeError (what +:+ ".replace"))
  | _ => Val v
  end.

(** Tests if the type is a generic type based on the value of genericLetter *)
Definition isTypeGeneric (type genericLetter : jsvalue) : outcome bool :=
  sanitizedType <-? sanitize "type" type ;;
  sanitizedgenericLetter <-? sanitize "genericLetter" genericLetter ;;
  if falsy sanitizedType || falsy sanitizedgenericLetter then Val false
  else
    match sanitizedType, sanitizedgenericLetter with
    | JStr st, JStr sg =>
        if String.eqb st sg then Val true
        else if (0 <? Js.indexOf st "<")%Z && (0 <? Js.indexOf st ">")%Z then
          let genericLetters := Js.split sg "," in
          let inside :=
            match Js.exec GENERICTYPEREGEX st with
            | Some m => default "" (Js.group 1 m)
            | None => ""
            end in
          Val (existsb (fun x => existsb (fun y => String.eqb y (Js.trim x)) genericLetters)
                 (Js.split inside ","))
        else Val (existsb (fun x => String.eqb (Js.trim x) st) (Js.split sg ","))
    | _, _ => Val false
    end.

Section Pipeline.

(** The collaborators required from [./utilities] and [./graphmetadata],
    which are not part of this file of the source.
    - [escapeGraphQlSchema sch cr t]: the escaper;
    - [newShortId k]: the identifier drawn for the [k]-th comment of a text;
    - [removeGraphMetadata sch]: the annotation-free schema text
      ([stdSchema]) and the annotations ([metadata]);
    - [jsEval src]: the value of [eval(src)], for an alias supplied by the
      schema author. *)
Variable escapeGraphQlSchema : string -> string -> string -> string.
Variable newShortId : nat -> string.
Variable removeGraphMetadata : string -> string * list Metadata.
Variable jsEval : string -> string.

Definition escapeGraphQlSchemaPlus (sch cr t : string) : M string :=
  if negb (Js.truthy sch) then ret sch
  else
    m <- get ;;
    match _s m !! sch with
    | Some v =>
        if Js.truthy v then ret v
        else
          let v' := escapeGraphQlSchema sch cr t in
          _ <- modify (set_s (insert sch v')) ;; ret v'
    | None =>
        let v' := escapeGraphQlSchema sch cr t in
        _ <- modify (set_s (insert sch v')) ;; ret v'
    end.

(** The comment tokens of [getSchemaBits]: every comment of the escaped
    text is replaced, at its first occurrence, by a fresh token. *)
Fixpoint tokenize (ms : list string) (k : nat) (schema : string)
    (tokens : list (string * string)) : string * list (string * string) :=
  match ms with
  | [] => (schema, tokens)
  | m :: ms' =>
      let commentToken := "#" +:+ newShortId k +:+ "░" in
      tokenize ms' (S k) (Js.replaceStr schema m commentToken)
        (tokens ++ [(commentToken, m)])
  end.

Definition token_value (tokens : list (string * string)) (m : string) : option string :=
  option_map snd (find (fun t => String.eqb (fst t) m) tokens).

Definition restore_comments (tokens : list (string * string)) (b : string) : string :=
  fold_left
    (fun acc m =>
       match token_value tokens m with
       | Some value => if Js.truthy value then Js.replaceStr acc m value else acc
       | None => acc
       end)
    (Js.matchAll RX_COMMENT_ESC b) b.

(** Gets a first rough breakdown of the string schema *)
Definition getSchemaBits (sch : string) : M (list Bit) :=
  escapedSchemaWithComments <- escapeGraphQlSchemaPlus sch carrReturnEsc tabEsc ;;
  let '(escSchemaWithEscComments, tokens) :=
    tokenize (Js.matchAll RX_COMMENT_ESC escapedSchemaWithComments) 0
      escapedSchemaWithComments [] in
  let schemaWithoutComments := " " +:+ Js.replaceAll RX_COMMENT_LF sch "" +:+ Js.LF in
  escapedSchemaWithoutComments <-
    escapeGraphQlSchemaPlus schemaWithoutComments carrReturnEsc tabEsc ;;
  let bits_of (rx : Rx) : outcome (list Bit) :=
    let regexMatches :=
      Js.matchAll (rx_regex rx)
        (match rx_kind rx with
         | rx_scalar => escapedSchemaWithoutComments
         | rx_union => schemaWithoutComments
         | rx_block => escSchemaWithEscComments
         end) in
    let keep kw m :=
      (Js.indexOf m kw =? 0)%Z || Js.test RX_NOT_ALNUM_START m in
    let regexMatches :=
      match rx_kind rx with
      | rx_scalar => List.filter (keep "scalar") regexMatches
      | rx_union => List.filter (keep "union") regexMatches
      | rx_block => regexMatches
      end in
    let regexMatches := map (restore_comments tokens) regexMatches in
    match rx_kind rx with
    | rx_scalar => Val (map breakdownScalarBit regexMatches)
    | rx_union => Val (map breakdownUnionBit regexMatches)
    | rx_block => omap breakdownSchemabBit regexMatches
    end in
  bits <- lift (omap bits_of
                  [TYPE_REGEX; INPUT_REGEX; ENUM_REGEX; INTERFACE_REGEX;
                   ABSTRACT_REGEX; SCALAR_REGEX; UNION_REGEX]) ;;
  ret (concat bits).

Definition getCommentsBits (sch : string) : M (list CommentBit) :=
  escaped <- escapeGraphQlSchemaPlus sch carrReturnEsc tabEsc ;;
  let heads := List.filter (Js.test RX_OPEN_END) (Js.matchAll RX_COMMENT_HEAD escaped) in
  bits <- lift (omap
    (fun c =>
       let parts :=
         List.filter (fun x => negb (String.eqb x ""))
           (map (fun l => Js.trim (Js.replaceAll RX_TAB_ESC l "    "))
              (Js.split c carrReturnEsc)) in
       let hashCount :=
         List.length (List.filter (fun b => (Js.indexOf b "#" =? 0)%Z) parts) in
       match last_str parts with
       | Some lastPart =>
           e <-? getSchemaEntity lastPart ;;
           Val (removelast parts, e, hashCount =? List.length parts - 1)
       | None => Throw (TypeError "firstLine.indexOf")
       end) heads) ;;
  ret (map (fun x => {| cb_text := Js.join Js.LF (fst (fst x));
                         cb_property := snd (fst x) |})
         (List.filter (fun x => snd x) bits)).

Definition getGenericAlias (s : string) (genName : string) : string :=
  if negb (Js.truthy s) then genericDefaultNameAlias genName
  else
    match Js.exec GENERICTYPEREGEX genName with
    | Some m =>
        let genericTypeName :=
          Js.join ","
            (map (fun x => quote +:+ Js.trim x +:+ quote)
               (Js.split (default "" (Js.group 1 m)) ",")) in
        jsEval (s +:+ "(" +:+ genericTypeName +:+ ")")
    | None => genName
    end.

Definition getAllAliases (metadata : list Metadata) : M (list Metadata) :=
  m <- get ;;
  match memoizedAliases m with
  | Some aliases => ret aliases
  | None =>
      let aliases := List.filter (fun x => String.eqb (md_name x) "alias") metadata in
      _ <- modify (set_memoizedAliases (Some aliases)) ;; ret aliases
  end.

(** [genericType] is [None] where the source passes [undefined], which is
    looked up under the key [undefined] before [match] fails on it. *)
Definition getAliasName (genericType : option string) (metadata : list Metadata) : M string :=
  m <- get ;;
  let memoized :=
    match memoizedGenericNameAliases m !! default "undefined" genericType with
    | Some a => if Js.truthy a then Some a else None
    | None => None
    end in
  match memoized, genericType with
  | Some a, _ => ret a
  | None, None => throw (TypeError "genericType.match")
  | None, Some genericType =>
      match Js.exec RX_UPTO_LT genericType with
      | None => throw (TypeError "genericType.match(/.*</)[0]")
      | Some ms =>
          let genericStart := Js.whole ms in
          aliases <- getAllAliases metadata ;;
          let aliasObj :=
            find (fun x => (Js.indexOf (md_schemaName x) genericStart =? 0)%Z) aliases in
          let alias :=
            match aliasObj with
            | Some a =>
                if opt_truthy (md_body a)
                then getGenericAlias (default "" (md_body a)) genericType
                else genericDefaultNameAlias genericType
            | None => genericDefaultNameAlias genericType
            end in
          _ <- modify (set_memoizedGenericNameAliases (insert genericType alias)) ;;
          ret alias
      end
  end.

(** [if (result.isGen && !memoizedGenericSchemaObjects[result.name]) ...] *)
Definition remember (result : TypeDetails) : M unit :=
  if td_isGen result then
    m <- get ;;
    match dict_get (memoizedGenericSchemaObjects m) (td_name result) with
    | Some _ => ret tt
    | None =>
        modify (set_memoizedGenericSchemaObjects
                  (fun d => dict_set d (td_name result) result))
    end
  else ret tt.

(** [genericTypes.some(x => genericParentTypes.some(y => x == y))], behind
    the guards on [genericParentTypes]. *)
Definition depends_on (genericParentTypes : option (list string))
    (genericTypes : list string) : bool :=
  match genericParentTypes with
  | Some (p :: ps) =>
      existsb (fun x => existsb (fun y => String.eqb x y) (p :: ps)) genericTypes
  | _ => false
  end.

(** Get all the type details *)
Definition getTypeDetails (t : string) (metadata : list Metadata)
    (genericParentTypes : option (list string)) : M TypeDetails :=
  let genTypes :=
    match Js.exec GENERICTYPEREGEX t with
    | Some m => Js.group 1 m
    | None => None
    end in
  let isGen := opt_truthy genTypes in
  let genericTypes :=
    if isGen then map Js.trim (Js.split (default "" genTypes) ",") else [] in
  let originName := Js.trim (Js.replace RX_DIRECTIVE t "") in
  let directive := option_map Js.whole (Js.exec RX_DIRECTIVE t) in
  let endingChar := if Js.test RX_BANG_END originName then "!" else "" in
  let dependsOnParent := isGen && depends_on genericParentTypes genericTypes in
  name <- (if isGen && negb dependsOnParent
           then a <- getAliasName (Some originName) metadata ;; ret (a +:+ endingChar)
           else ret originName) ;;
  let result :=
    {| td_originName := Some originName; td_directive := directive; td_isGen := isGen;
       td_dependsOnParent := dependsOnParent; td_metadata := metadata;
       td_genericParentTypes := genericParentTypes; td_name := name;
       td_paramName := None |} in
  _ <- remember result ;;
  ret result.

(** Transpile parameters if generic types are used in them *)
Definition getTranspiledParams (params : string)
    (genericParentTypes : option (list string)) : M string :=
  let genTypes := Js.split params "," in
  transpiledParams <-
    mapM (fun genType =>
            let isGen := Js.test GENERICTYPEREGEX genType in
            let genericTypes := if isGen then map Js.trim genTypes else [] in
            let parts := map Js.trim (Js.split genType ":") in
            let paramName := default "" (nth_str parts 0) in
            match nth_str parts 1 with
            | None => throw (TypeError "originName.match")
            | Some originName =>
                let endingChar := if Js.test RX_BANG_END originName then "!" else "" in
                let dependsOnParent := isGen && depends_on genericParentTypes genericTypes in
                name <- (if isGen && negb dependsOnParent
                         then a <- getAliasName (Some originName) [] ;;
                              ret (a +:+ endingChar)
                         else ret originName) ;;
                let result :=
                  {| td_originName := Some originName; td_directive := None;
                     td_isGen := isGen; td_dependsOnParent := false; td_metadata := [];
                     td_genericParentTypes := None; td_name := name;
                     td_paramName := Some paramName |} in
                _ <- remember result ;;
                ret (paramName +:+ ": " +:+ name)
            end) genTypes ;;
  ret (Js.join ", " transpiledParams).

(** The [baseObj] argument of [getBlockProperties]. *)
Record BaseObj : Type := {
  bo_type : string;
  bo_name : string;
  bo_genericTypes : option (list string)
}.

(** Breaks down a string representing a block { ... } into its various parts. *)
Definition getBlockProperties (blockParts : list string) (baseObj : BaseObj)
    (metadata : list Metadata) : M (list BlockProp) :=
  let meta :=
    List.filter
      (fun m =>
         String.eqb (md_schemaType m) "PROPERTY" &&
         match md_parent m with
         | Some (t, n) => String.eqb t (bo_type baseObj) && String.eqb n (bo_name baseObj)
         | None => false
         end) metadata in
  a <- foldM
    (fun (a : list string * list BlockProp) part =>
       let p := Js.trim part in
       let mData := head (List.filter (fun m => String.eqb (md_schemaName m) p) meta) in
       if (Js.indexOf p "#" =? 0)%Z then ret (fst a ++ [p], snd a)
       else
         let prop := Js.replace RX_COMMA_END (Js.replaceAll RX_SPACES p "") "" in
         propDetails <-
           match Js.exec PROPERTYPARAMSREGEX (Js.replace RX_DIRECTIVE prop "") with
           | Some paramsMatch =>
               let parts := Js.split prop (Js.whole paramsMatch) in
               params <- getTranspiledParams (default "" (Js.group 1 paramsMatch))
                           (bo_genericTypes baseObj) ;;
               result <- getTypeDetails
                           (Js.trim (Js.replaceStr (default "" (nth_str parts 1)) ":" ""))
                           metadata (bo_genericTypes baseObj) ;;
               ret {| pd_name := Js.trim (default "" (nth_str parts 0));
                      pd_metadata := mData; pd_params := Some params;
                      pd_result := result |}
           | None =>
               let parts := Js.split prop ":" in
               result <- getTypeDetails (Js.trim (Js.join ":" (tl parts)))
                           metadata (bo_genericTypes baseObj) ;;
               ret {| pd_name := Js.trim (default "" (nth_str parts 0));
                      pd_metadata := mData; pd_params := None; pd_result := result |}
           end ;;
         ret ([], snd a ++
                  [{| bp_comments := Js.join (Js.LF +:+ "    ") (fst a);
                      bp_details := propDetails;
                      bp_value := getPropertyValue propDetails |}]))
    blockParts ([], []) ;;
  ret (snd a).

Definition plain_object (t : SchemaType) (name : string) : SchemaObj :=
  mkSchemaObj t false name None None None [] None None None None None.

Definition keyword (t : SchemaType) : string := Js.toLowerCase (type_name t).

(** [getSchemaObject definitions typeName nameRegEx metadata]; the
    [typeName] of the source is [keyword t]. *)
Definition getSchemaObject (definitions : list Bit) (t : SchemaType)
    (nameRegEx : option Js.regex) (metadata : list Metadata) : M (list SchemaObj) :=
  let typeName := keyword t in
  mapM
    (fun d =>
       match t with
       | SCALAR | UNION =>
           match block d with
           | Text b => ret (plain_object t b)
           | Lines _ => throw (TypeError "name")
           end
       | _ =>
           let typeDefMatch := Js.exec RX_TYPEDEF (property d) in
           match typeDefMatch with
           | None =>
               throw (Err ("Schema error: Syntax error in '" +:+ property d
                           +:+ "'. Cannot any find schema type definition."))
           | Some tm =>
               let typeDef := Js.whole tm in
               if (0 <=? Js.indexOf typeDef "#")%Z then
                 throw (Err ("Schema error: Syntax error in '" +:+ property d
                             +:+ "'. Cannot any find schema type definition."))
               else
                 match nameRegEx with
                 | None => throw (TypeError "typeDef.match(nameRegEx)")
                 | Some rx =>
                     match Js.exec rx typeDef with
                     | None =>
                         throw (Err ("Schema error: " +:+ typeName +:+ " with missing name."))
                     | Some nameMatch =>
                         let name :=
                           default ""
                             (nth_str
                                (Js.split (Js.trim (default "" (Js.group 1 nameMatch))) " ")
                                0) in
                         let isGenericType :=
                           match Js.exec GENERICTYPEREGEX name with
                           | Some gm => Js.group 1 gm
                           | None => None
                           end in
                         let superClass :=
                           match Js.matchAll INHERITSREGEX typeDef with
                           | m0 :: _ =>
                               Some (map Js.trim
                                       (Js.split (Js.trim (Js.replaceStr m0 "inherits" "")) ","))
                           | [] => None
                           end in
                         let implementsMatch := Js.matchAll IMPLEMENTSREGEX typeDef in
                         let directive :=
                           let d0 :=
                             Js.trim
                               (Js.replace RX_OPEN_END
                                  (Js.trim
                                     (match Js.exec RX_HEAD_DIRECTIVE typeDef with
                                      | Some dm => Js.whole dm
                                      | None => ""
                                      end)) "") in
                           if Js.truthy d0 then Some d0 else None in
                         let _interface :=
                           match implementsMatch with
                           | m0 :: _ =>
                               Some (map (fun x =>
                                            default "" (nth_str (Js.split (Js.trim x) " ") 0))
                                       (Js.split
                                          (Js.replaceStr (Js.replaceStr m0 "implements " "")
                                             "{" "") ","))
                           | [] => None
                           end in
                         let objectType := Js.toUpperCase typeName in
                         let metadat :=
                           head (List.filter
                                   (fun m => String.eqb (md_schemaType m) objectType
                                             && String.eqb (md_schemaName m) name) metadata) in
                         let genericTypes :=
                           if opt_truthy isGenericType
                           then Some (map Js.trim (Js.split (default "" isGenericType) ","))
                           else None in
                         let baseObj :=
                           {| bo_type := objectType; bo_name := name;
                              bo_genericTypes := genericTypes |} in
                         match block d with
                         | Text _ => throw (TypeError "blockParts")
                         | Lines blockParts =>
                             blockProps <- getBlockProperties blockParts baseObj metadata ;;
                             ret (mkSchemaObj t (extend d) name metadat directive
                                    isGenericType blockProps None
                                    (option_map Names superClass) _interface None None)
                         end
                     end
                 end
           end
       end)
    (List.filter (fun d => (Js.indexOf (property d) typeName =? 0)%Z) definitions).

Definition getInterfaces defs md := getSchemaObject defs INTERFACE (Some INTERFACENAMEREGEX) md.
Definition getAbstracts defs md := getSchemaObject defs ABSTRACT (Some ABSTRACTNAMEREGEX) md.
Definition getTypes defs md := getSchemaObject defs TYPE (Some TYPENAMEREGEX) md.
Definition getInputs defs md := getSchemaObject defs INPUT (Some INPUTNAMEREGEX) md.
Definition getEnums defs md := getSchemaObject defs ENUM (Some ENUMNAMEREGEX) md.
Definition getScalars defs md := getSchemaObject defs SCALAR None md.
Definition getUnions defs md := getSchemaObject defs UNION None md.

(** [_.uniq]: the first occurrence of every string. *)
Fixpoint uniq_go (l seen : list string) : list string :=
  match l with
  | [] => []
  | x :: l' =>
      if existsb (String.eqb x) seen then uniq_go l' seen
      else x :: uniq_go l' (x :: seen)
  end.
Definition uniq (l : list string) : list string := uniq_go l [].

(** [memoizedInterfaceWithAncestors[_interface]]: the closure stored under
    the name or, for a name that the cache does not hold itself, the member
    of [Object.prototype] of that name.  Such a member is no list: where the
    source flattens the closures it stays one element, which is what the
    one-element list of its text stands for. *)
Definition memoizedInterface (m : Memory) (_interface : string) : option (list string) :=
  match memoizedInterfaceWithAncestors m !! _interface with
  | Some memoized => Some memoized
  | None => option_map (fun member => [member]) (Js.Object_prototype _interface)
  end.

Definition getInterfaceWithAncestors_body
    (rec : string -> list SchemaObj -> M (list string))
    (_interface : string) (schemaObjects : list SchemaObj) : M (list string) :=
  m <- get ;;
  match memoizedInterface m _interface with
  | Some memoized => ret memoized
  | None =>
      match find (fun x => String.eqb (so_name x) _interface) schemaObjects with
      | None =>
          throw (Err ("Schema error: interface " +:+ _interface +:+ " is not defined."))
      | Some interfaceObj =>
          if negb (type_eqb (so_type interfaceObj) INTERFACE) then
            throw (Err ("Schema error: Schema property " +:+ _interface
                        +:+ " is not an interface. It cannot be implemented."))
          else
            interfaceWithAncestors <-
              match so_implements interfaceObj with
              | Some (i :: l) =>
                  ancestors <- mapM (fun i => rec i schemaObjects) (i :: l) ;;
                  ret (uniq ([_interface] ++ (i :: l) ++ concat ancestors))
              | _ => ret [_interface]
              end ;;
            _ <- modify (set_memoizedInterfaceWithAncestors
                           (insert _interface interfaceWithAncestors)) ;;
            ret interfaceWithAncestors
      end
  end.

Fixpoint getInterfaceWithAncestors (fuel : nat) (_interface : string)
    (schemaObjects : list SchemaObj) : M (list string) :=
  match fuel with
  | 0 => diverge
  | S fuel' =>
      getInterfaceWithAncestors_body (getInterfaceWithAncestors fuel')
        _interface schemaObjects
  end.

(** [schemaObjects] is [None] where the caller passes no second argument. *)
Definition getObjWithInterfaces (fuel : nat) (o : SchemaObj)
    (schemaObjects : option (list SchemaObj)) : M SchemaObj :=
  match schemaObjects, so_implements o with
  | Some objs, Some (i :: l) =>
      closures <- mapM (fun i => getInterfaceWithAncestors fuel i objs) (i :: l) ;;
      let interfaceWithAncestors := uniq (concat closures) in
      ret (mkSchemaObj (so_type o) false (so_name o) (so_metadata o) None
             (so_genericType o) (so_blockProps o) (Some (so_blockProps o))
             (so_inherits o) (Some interfaceWithAncestors) None None)
  | _, _ => ret o
  end.

(** [`${obj.type}_${obj.name}_${obj.genericType}`] *)
Definition extension_key (o : SchemaObj) : string :=
  type_name (so_type o) +:+ "_" +:+ so_name o +:+ "_" +:+ default "null" (so_genericType o).

(** [obj.inherits.indexOf(x.name) > -1] *)
Definition is_inherited (inh : Inherits SchemaObj) (x : SchemaObj) : bool :=
  match inh with
  | Names l => existsb (String.eqb (so_name x)) l
  | Parents _ => false
  end.

(** [_.difference(obj.inherits, superClassNames)], each missing entry as
    the text it prints to. *)
Definition missingClasses (inh : Inherits SchemaObj) (superClassNames : list string)
    : list string :=
  match inh with
  | Names l => List.filter (fun c => negb (existsb (String.eqb c) superClassNames)) l
  | Parents l => map (fun _ => "[object Object]") l
  end.

Definition getObjWithExtensions_body (fuel : nat)
    (rec : SchemaObj -> list SchemaObj -> M SchemaObj)
    (o : SchemaObj) (schemaObjects : list SchemaObj) : M SchemaObj :=
  match so_inherits o with
  | Some inherits =>
      let key := extension_key o in
      m <- get ;;
      match memoizedExtendedObject m !! key with
      | Some memoized => ret memoized
      | None =>
          let superClass := List.filter (is_inherited inherits) schemaObjects in
          let superClassNames := map so_name schemaObjects in
          match missingClasses inherits superClassNames with
          | c :: _ =>
              throw (Err ("Schema error: " +:+ keyword (so_type o) +:+ " " +:+ so_name o
                          +:+ " cannot find inherited " +:+ keyword (so_type o)
                          +:+ " " +:+ c))
          | [] =>
              superClassesWithInheritance <-
                mapM (fun subClass =>
                        if negb (inheritingIsAllowed o subClass) then
                          throw (Err ("Schema error: " +:+ keyword (so_type o) +:+ " "
                                      +:+ so_name o +:+ " cannot inherit from "
                                      +:+ type_name (so_type subClass) +:+ " "
                                      +:+ so_name subClass +:+ "."))
                        else rec subClass schemaObjects) superClass ;;
              metadata <-
                match so_metadata o with
                | Some md => ret (Some md)
                | None =>
                    match List.last (map Some superClassesWithInheritance) None with
                    | Some lastClass => ret (so_metadata lastClass)
                    | None => throw (TypeError "_.last(superClassesWithInheritance).metadata")
                    end
                end ;;
              let objWithInheritance :=
                mkSchemaObj (so_type o) false (so_name o) metadata (so_directive o)
                  (so_genericType o)
                  (concat (map so_blockProps superClassesWithInheritance) ++ so_blockProps o)
                  (Some (so_blockProps o))
                  (Some (Parents superClassesWithInheritance))
                  (Some (uniq (List.filter Js.truthy (default [] (so_implements o)))))
                  None None in
              _ <- modify (set_memoizedExtendedObject (insert key objWithInheritance)) ;;
              getObjWithInterfaces fuel objWithInheritance (Some schemaObjects)
          end
      end
  | None => getObjWithInterfaces fuel o None
  end.

Fixpoint getObjWithExtensions (fuel : nat) (o : SchemaObj)
    (schemaObjects : list SchemaObj) : M SchemaObj :=
  match fuel with
  | 0 => diverge
  | S fuel' =>
      getObjWithExtensions_body fuel' (getObjWithExtensions fuel') o schemaObjects
  end.

(** The property synthesized for a generic property of the template; the
    recursive call is [rec]. *)
Definition instantiate_prop
    (rec : TypeDetails -> Dict GenericResult -> M (GenericResult * Dict GenericResult))
    (genericType concreteType : string) (prop : BlockProp)
    (memo : Dict GenericResult) : M (BlockProp * Dict GenericResult) :=
  let result := pd_result (bp_details prop) in
  isGeneric <- lift (isTypeGeneric (JStr (td_name result)) (JStr genericType)) ;;
  if isGeneric then
    name <- lift (replaceGenericWithType (td_name result)
                    (Js.split genericType ",") concreteType) ;;
    let details :=
      {| pd_name := pd_name (bp_details prop); pd_metadata := None; pd_params := None;
         pd_result :=
           {| td_originName := None; td_directive := None; td_isGen := false;
              td_dependsOnParent := false; td_metadata := [];
              td_genericParentTypes := None; td_name := name;
              td_paramName := None |} |} in
    dm <-
      (if td_dependsOnParent result then
         let propTypeIsRequired := Js.test RX_BANG_END (td_name result) in
         let propTypeName :=
           if propTypeIsRequired then Js.replace RX_BANG_END (td_name result) ""
           else td_name result in
         let propTypeIsArray := Js.test RX_ARRAY propTypeName in
         match td_genericParentTypes result with
         | None => throw (TypeError "genericLetters.map")
         | Some genericParentTypes =>
             originalConcretePropType <-
               lift (replaceGenericWithType propTypeName genericParentTypes concreteType) ;;
             let concretePropType :=
               if propTypeIsArray
               then Js.replaceAll RX_ARRAY_ENDS originalConcretePropType ""
               else originalConcretePropType in
             concreteGenProp <- getTypeDetails concretePropType (td_metadata result) None ;;
             rm <- rec concreteGenProp memo ;;
             match obj (fst rm) with
             | None => throw (TypeError "createNewSchemaObjectFromGeneric(...).obj.name")
             | Some o =>
                 let concreteGenPropName := so_name o in
                 let n1 :=
                   if propTypeIsArray then "[" +:+ concreteGenPropName +:+ "]"
                   else concreteGenPropName in
                 let n2 := n1 +:+ (if propTypeIsRequired then "!" else "") in
                 let n3 :=
                   if opt_truthy (td_directive result)
                   then n2 +:+ " " +:+ default "" (td_directive result) else n2 in
                 ret ({| pd_name := pd_name details; pd_metadata := None;
                         pd_params := None;
                         pd_result :=
                           {| td_originName :=
                                Some (if opt_truthy (td_directive result)
                                      then td_name result +:+ " "
                                           +:+ default "" (td_directive result)
                                      else td_name result);
                              td_directive := None; td_isGen := true;
                              td_dependsOnParent := false; td_metadata := [];
                              td_genericParentTypes := None; td_name := n3;
                              td_paramName := None |} |}, snd rm)
             end
         end
       else ret (details, memo)) ;;
    ret ({| bp_comments := bp_comments prop; bp_details := fst dm;
            bp_value := getPropertyValue (fst dm) |}, snd dm)
  else ret (prop, memo).

(** [blockProps.map(prop => ...)], the memo object passing from one
    property to the next. *)
Fixpoint instantiate_props
    (rec : TypeDetails -> Dict GenericResult -> M (GenericResult * Dict GenericResult))
    (genericType concreteType : string) (props : list BlockProp)
    (memo : Dict GenericResult) : M (list BlockProp * Dict GenericResult) :=
  match props with
  | [] => ret ([], memo)
  | prop :: props' =>
      pm <- instantiate_prop rec genericType concreteType prop memo ;;
      rest <- instantiate_props rec genericType concreteType props' (snd pm) ;;
      ret (fst pm :: fst rest, snd rest)
  end.

(** [createNewSchemaObjectFromGeneric({ originName, isGen, name },
    schemaBreakDown, memoizedNewSchemaObjectFromGeneric)]: the memo object,
    which the source updates in place, is returned with the result. *)
Definition createNewSchemaObjectFromGeneric_body
    (rec : TypeDetails -> Dict GenericResult -> M (GenericResult * Dict GenericResult))
    (td : TypeDetails) (schemaBreakDown : list SchemaObj)
    (memo : Dict GenericResult) : M (GenericResult * Dict GenericResult) :=
  if td_isGen td then
    match dict_get memo (td_name td) with
    | Some memoized => ret (memoized, memo)
    | None =>
        match td_originName td with
        | None => throw (TypeError "originName.split")
        | Some originName =>
            let genObjName := default "" (nth_str (Js.split originName "<") 0) +:+ "<" in
            let concreteType :=
              match Js.exec GENERICTYPEREGEX originName with
              | Some m => Js.group 1 m
              | None => None
              end in
            if negb (opt_truthy concreteType) then
              throw (Err ("Schema error: Cannot find generic type in object " +:+ originName))
            else
              match find (fun x => (Js.indexOf (so_name x) genObjName =? 0)%Z)
                      schemaBreakDown with
              | None =>
                  throw (Err ("Schema error: Cannot find any definition for generic type starting with "
                              +:+ genObjName))
              | Some baseGenObj =>
                  if negb (opt_truthy (so_genericType baseGenObj)) then
                    throw (Err ("Schema error: Schema object " +:+ so_name baseGenObj
                                +:+ " is not generic!"))
                  else
                    pm <- instantiate_props rec
                            (default "" (so_genericType baseGenObj))
                            (default "" concreteType) (so_blockProps baseGenObj) memo ;;
                    let blockProps := fst pm in
                    let newSchemaObjStr :=
                      parseSchemaObjToString (so_comments baseGenObj) (so_type baseGenObj)
                        (td_name td) (so_implements baseGenObj) blockProps false None in
                    let result :=
                      {| obj := Some (mkSchemaObj (so_type baseGenObj) false (td_name td)
                                        None None None blockProps None None
                                        (so_implements baseGenObj) (so_comments baseGenObj)
                                        None);
                         stringObj := Some newSchemaObjStr |} in
                    ret (result, dict_set (snd pm) (td_name td) result)
              end
        end
    end
  else ret ({| obj := None; stringObj := None |}, memo).

Fixpoint createNewSchemaObjectFromGeneric (fuel : nat) (td : TypeDetails)
    (schemaBreakDown : list SchemaObj) (memo : Dict GenericResult)
    : M (GenericResult * Dict GenericResult) :=
  match fuel with
  | 0 => diverge
  | S fuel' =>
      createNewSchemaObjectFromGeneric_body
        (fun td' memo' => createNewSchemaObjectFromGeneric fuel' td' schemaBreakDown memo')
        td schemaBreakDown memo
  end.

(** The [forEach] shared by [buildSchemaString] and [getSchemaParts]: every
    registered generic use that does not depend on its parent is
    instantiated into a fresh [resolvedGenericTypes]. *)
Definition resolveGenericTypes (fuel : nat) (schemaObjs : list SchemaObj)
    : M (Dict GenericResult) :=
  m <- get ;;
  foldM (fun resolvedGenericTypes value =>
           rm <- createNewSchemaObjectFromGeneric fuel value schemaObjs
                   resolvedGenericTypes ;;
           ret (snd rm))
    (List.filter (fun x => negb (td_dependsOnParent x))
       (dict_values (memoizedGenericSchemaObjects m)))
    [].

Definition buildSchemaString (fuel : nat) (schemaObjs : list SchemaObj) : M string :=
  let part_01 :=
    Js.join Js.LF
      (map (fun o =>
              parseSchemaObjToString (so_comments o) (so_type o) (so_name o)
                (so_implements o) (so_blockProps o) (so_extend o) (so_directive o))
         (List.filter (fun x => negb (opt_truthy (so_genericType x))
                                && negb (type_eqb (so_type x) ABSTRACT)
                                && negb (type_eqb (so_type x) DIRECTIVE)) schemaObjs)) in
  resolvedGenericTypes <- resolveGenericTypes fuel schemaObjs ;;
  let part_02 :=
    Js.join Js.LF (map (fun x => default "" (stringObj x)) (dict_values resolvedGenericTypes)) in
  let directives :=
    Js.join ""
      (map (fun x => default "" (so_raw x))
         (List.filter (fun x => type_eqb (so_type x) DIRECTIVE && opt_truthy (so_raw x))
            schemaObjs)) in
  ret (directives +:+ Js.LF +:+ part_01 +:+ part_02).

(** Breaks down a schema into its bits and pieces. *)
Definition getSchemaParts (fuel : nat) (graphQlSchema : string)
    (metadata : list Metadata) (includeNewGenTypes : bool) : M (list SchemaObj) :=
  schemaBits <- getSchemaBits graphQlSchema ;;
  firstSchemaBreakDown <-
    foldM (fun objects getObjects =>
             more <- getObjects schemaBits metadata ;; ret (objects ++ more))
      [getInterfaces; getAbstracts; getTypes; getInputs; getEnums; getScalars; getUnions]
      [] ;;
  extended <- mapM (fun o => getObjWithExtensions fuel o firstSchemaBreakDown)
                firstSchemaBreakDown ;;
  v <- mapM (fun o => comments <- getCommentsBits graphQlSchema ;;
                      ret (addComments o comments)) extended ;;
  v <- (if includeNewGenTypes then
          resolvedGenericTypes <- resolveGenericTypes fuel v ;;
          ret (v ++ flat_map (fun x => match obj x with Some o => [o] | None => [] end)
                      (dict_values resolvedGenericTypes))
        else ret v) ;;
  let directives := List.filter md_directive metadata in
  match directives with
  | _ :: _ =>
      ret (v ++ map (fun d =>
                       mkSchemaObj DIRECTIVE false (md_name d) None None None [] None None
                         None None
                         (Some (Js.replaceAll RX_CR_ESC (default "" (md_body d)) Js.LF)))
                  directives)
  | [] => ret v
  end.

Definition resetMemory : M unit := put emptyMemory.

Definition getSchemaAST (fuel : nat) (graphQlSchema : string) : M (list SchemaObj) :=
  _ <- resetMemory ;;
  let data := removeGraphMetadata graphQlSchema in
  v <- getSchemaParts fuel (fst data) (snd data) true ;;
  _ <- resetMemory ;;
  ret v.

Definition transpileSchema (fuel : nat) (graphQlSchema : string) : M string :=
  _ <- resetMemory ;;
  let data := removeGraphMetadata graphQlSchema in
  parts <- getSchemaParts fuel (fst data) (snd data) false ;;
  v <- buildSchemaString fuel parts ;;
  _ <- resetMemory ;;
  ret v.

End Pipeline.

(* ===================================================================== *)
(** * The collaborators, from the specification *)
(* ===================================================================== *)

Module Collaborators.

Definition RX_LF : Js.regex := Eval vm_compute in Js.re "\n".
Definition RX_TAB : Js.regex := Eval vm_compute in Js.re "\t".

(** Modelled from the spec: the escaper [escapeGraphQlSchema] of
    [./utilities] is missing; [escape(text, lineBreakMarker, tabMarker)] is
    a pure, reversible transform that neutralizes the newlines and tabs of
    the text: every line feed becomes the line-break marker and every tab
    the tab marker. *)
Definition escapeGraphQlSchema (sch cr t : string) : string :=
  Js.replaceAll RX_TAB (Js.replaceAll RX_LF sch cr) t.

Fixpoint digits (fuel n : nat) (acc : string) : string :=
  match fuel with
  | 0 => acc
  | S f =>
      let acc' := String (Js.ch (48 + n mod 10)) acc in
      if n <? 10 then acc' else digits f (n / 10) acc'
  end.

(** Modelled from the spec: [newShortId] of [./utilities] is missing; it
    yields a unique token for every comment: here the letter [c] and the
    rank of the comment. *)
Definition newShortId (k : nat) : string := "c" +:+ digits (S k) k "".

(** Modelled from the spec: [removeGraphMetadata] of [./graphmetadata] is
    missing; it yields a metadata-annotation list and an annotation-free
    schema text.  This is its value on a text that carries no annotation:
    the text itself and no annotation. *)
Definition removeGraphMetadata (sch : string) : string * list Metadata := (sch, []).

(** No alias is supplied by an annotation-free text, and [eval] never runs. *)
Definition jsEval (src : string) : string := "".

End Collaborators.

Definition transpileSchema0 (fuel : nat) (sch : string) : M string :=
  transpileSchema Collaborators.escapeGraphQlSchema Collaborators.newShortId
    Collaborators.removeGraphMetadata Collaborators.jsEval fuel sch.

Definition lines (l : list string) : string := Js.join Js.LF l.

Definition getSchemaAST0 (fuel : nat) (sch : string) : M (list SchemaObj) :=
  getSchemaAST Collaborators.escapeGraphQlSchema Collaborators.newShortId
    Collaborators.removeGraphMetadata Collaborators.jsEval fuel sch.

(* ===================================================================== *)
(** * Schemas used in the statements *)
(* ===================================================================== *)

Module Schemas.

(** The end-to-end schema of the specification, every block on one line. *)
Definition paged_inline : string :=
  lines ["type Paged<T> { items: [T] }";
         "type Product { id: ID }";
         "type Query { products: Paged<Product> }"].

(** The same declarations, every block spread over lines. *)
Definition paged : string :=
  lines ["type Paged<T> {"; "items: [T]"; "}";
         "type Product {"; "id: ID"; "}";
         "type Query {"; "products: Paged<Product>"; "}"].

Definition paged_output : string :=
  lines [""; "type Product { "; "    id: ID"; "}";
         "type Query { "; "    products: PagedProduct";
         "}type PagedProduct { "; "    items: [Product]"; "}"].

(** [T implements I2], [I2 implements I1], and [T] inherits nothing. *)
Definition interfaces : string :=
  lines ["interface I1 {"; "id: ID"; "}";
         "interface I2 implements I1 {"; "id: ID"; "}";
         "type T implements I2 {"; "id: ID"; "}"].

(** The same, with [T] inheriting a base type. *)
Definition interfaces_inherits : string :=
  lines ["interface I1 {"; "id: ID"; "}";
         "interface I2 implements I1 {"; "id: ID"; "}";
         "type Base {"; "b: ID"; "}";
         "type T inherits Base implements I2 {"; "id: ID"; "}"].

(** A declaration whose block is never closed. *)
Definition unclosed : string := lines ["type Foo {"; "id: ID"; ""].

(** A generic use, then a declaration that inherits an unknown parent. *)
Definition failing : string :=
  lines ["type Query {"; "products: Paged<Product>"; "}";
         "type B inherits Missing {"; "id: ID"; "}"].

(** A template with two parameters that no property mentions, used with
    one argument. *)
Definition pair_unused : string :=
  lines ["type Pair<T,U> {"; "id: ID"; "}"; "type Query {"; "p: Pair<A>"; "}"].

(** A template with two parameters, one of them the type of a property,
    used with one argument. *)
Definition pair_used : string :=
  lines ["type Pair<T,U> {"; "first: T"; "id: ID"; "}";
         "type Query {"; "p: Pair<A>"; "}"].

(** A declaration with an empty block. *)
Definition empty_block : string := lines ["type A {"; "}"].

(** An enumeration whose name ends in a keyword, and two types whose
    names end in [scalar] and [union]. *)
Definition filetype : string := lines ["enum Filetype {"; "PDF"; "}"].
Definition myscalar : string := lines ["type Myscalar {"; "id: ID"; "}"].
Definition myunion : string := lines ["type Myunion {"; "id: ID"; "}"].

(** A type that implements a name of [Object.prototype]. *)
Definition implements_toString : string :=
  lines ["type Base {"; "b: ID"; "}";
         "type T inherits Base implements toString {"; "id: ID"; "}"].

End Schemas.

(** Whether [text] holds [fragment], white space apart: both are compared
    with every run of white space removed. *)
Definition squeeze (s : string) : string := Js.replaceAll RX_SPACE s "".
Definition holds (text fragment : string) : bool :=
  (0 <=? Js.indexOf (squeeze text) (squeeze fragment))%Z.

(* ===================================================================== *)
(** * Objects used in the statements *)
(* ===================================================================== *)

Module Objects.

Definition details (t : string) : TypeDetails :=
  {| td_originName := Some t; td_directive := None; td_isGen := false;
     td_dependsOnParent := false; td_metadata := []; td_genericParentTypes := None;
     td_name := t; td_paramName := None |}.

(** The property [name: t] as [getBlockProperties] builds it for a type
    [t] that is not generic. *)
Definition prop (name t : string) : BlockProp :=
  let d := {| pd_name := name; pd_metadata := None; pd_params := None;
              pd_result := details t |} in
  {| bp_comments := ""; bp_details := d; bp_value := getPropertyValue d |}.

(** A parsed declaration [kind name inherits ... implements ... { props }]. *)
Definition decl (t : SchemaType) (name : string) (inherits implements : option (list string))
    (props : list BlockProp) : SchemaObj :=
  mkSchemaObj t false name None None None props None (option_map Names inherits)
    implements None None.

Definition p1 := prop "p1" "ID".
Definition p2 := prop "p2" "ID".
Definition p3 := prop "p3" "ID".

(** [A] and [B inherits A]. *)
Definition A := decl TYPE "A" None None [p1; p2].
Definition B := decl TYPE "B" (Some ["A"]) None [p3].

(** [C inherits B], and what [B] and [C] resolve to in the schema [A],
    [B], [C]. *)
Definition C := decl TYPE "C" (Some ["B"]) None [prop "p4" "ID"].
Definition B_resolved : SchemaObj :=
  mkSchemaObj TYPE false "B" None None None [p1; p2; p3] (Some [p3])
    (Some (Parents [A])) (Some []) None None.
Definition C_resolved : SchemaObj :=
  mkSchemaObj TYPE false "C" None None None [p1; p2; p3; prop "p4" "ID"]
    (Some [prop "p4" "ID"]) (Some (Parents [B_resolved])) (Some []) None None.

(** [A1], [A2] and [B2 inherits A2, A1], declared in this order. *)
Definition A1 := decl TYPE "A1" None None [p1].
Definition A2 := decl TYPE "A2" None None [p2].
Definition B2 := decl TYPE "B" (Some ["A2"; "A1"]) None [p3].

(** Two declarations of a type [B] that inherit, the first from [A1], the
    second from [A2]: they share the memo key [TYPE_B_null]. *)
Definition Ba := decl TYPE "B" (Some ["A1"]) None [p3].
Definition Bb := decl TYPE "B" (Some ["A2"]) None [prop "p4" "ID"].

(** [I2 implements I1]; [T implements I2] and inherits nothing;
    [T' inherits Base implements I2]. *)
Definition I1 := decl INTERFACE "I1" None None [prop "id" "ID"].
Definition I2 := decl INTERFACE "I2" None (Some ["I1"]) [prop "id" "ID"].
Definition Tobj := decl TYPE "T" None (Some ["I2"]) [prop "id" "ID"].
Definition Base := decl TYPE "Base" None None [prop "b" "ID"].
Definition Tinh := decl TYPE "T" (Some ["Base"]) (Some ["I2"]) [prop "id" "ID"].

(** [CA inherits CB] and [CB inherits CA]. *)
Definition CA := decl TYPE "A" (Some ["B"]) None [p1].
Definition CB := decl TYPE "B" (Some ["A"]) None [p2].

(** The template [Paged<T> { items: [T] }] and the use [Paged<Product>]. *)
Definition Paged : SchemaObj :=
  mkSchemaObj TYPE false "Paged<T>" None None (Some "T") [prop "items" "[T]"] None None
    None None None.
Definition PagedProduct : TypeDetails :=
  {| td_originName := Some "Paged<Product>"; td_directive := None; td_isGen := true;
     td_dependsOnParent := false; td_metadata := []; td_genericParentTypes := None;
     td_name := "PagedProduct"; td_paramName := None |}.

(** What instantiating [Paged<Product>] against [Paged] yields. *)
Definition PagedProduct_result : GenericResult :=
  let d := {| pd_name := "items"; pd_metadata := None; pd_params := None;
              pd_result :=
                {| td_originName := None; td_directive := None; td_isGen := false;
                   td_dependsOnParent := false; td_metadata := [];
                   td_genericParentTypes := None; td_name := "[Product]";
                   td_paramName := None |} |} in
  let p := {| bp_comments := ""; bp_details := d; bp_value := "items: [Product]" |} in
  {| obj := Some (mkSchemaObj TYPE false "PagedProduct" None None None [p] None None
                    None None None);
     stringObj := Some (lines ["type PagedProduct { "; "    items: [Product]"; "}"]) |}.

(** The templates [Pair<T,U> { first: T  id: ID }] and
    [Pair<T,U> { id: ID }], and the use [Pair<A>]. *)
Definition Pair : SchemaObj :=
  mkSchemaObj TYPE false "Pair<T,U>" None None (Some "T,U")
    [prop "first" "T"; prop "id" "ID"] None None None None None.
Definition PairUnused : SchemaObj :=
  mkSchemaObj TYPE false "Pair<T,U>" None None (Some "T,U") [prop "id" "ID"] None None
    None None None.
Definition PairA : TypeDetails :=
  {| td_originName := Some "Pair<A>"; td_directive := None; td_isGen := true;
     td_dependsOnParent := false; td_metadata := []; td_genericParentTypes := None;
     td_name := "PairA"; td_paramName := None |}.

End Objects.

(* ===================================================================== *)
(** * Vocabulary of the statements *)
(* ===================================================================== *)

(** [r1] is [r2] cut short: either [r1] ran out of fuel, or both are the
    same run. *)
Definition cut {A} (r1 r2 : outcome A * Memory) : Prop :=
  fst r1 = Diverge \/ r1 = r2.

Definition cutM {A} (c1 c2 : M A) : Prop := forall m, cut (c1 m) (c2 m).

(** An argument of [isTypeGeneric] is blank when it is [null], [undefined],
    a string that [SANITIZE_GEN_TYPE_REGEX] strips down to the empty
    string, or a falsy value that is no string ([0], [NaN], [false]). *)
Definition blank (v : jsvalue) : Prop :=
  match v with
  | JNull | JUndefined => True
  | JStr s => Js.replaceAll SANITIZE_GEN_TYPE_REGEX s "" = ""
  | JOther truthy => truthy = false
  end.

(** An argument that [isTypeGeneric] can sanitize: anything but a truthy
    value that is no string, on which [replace] is no function. *)
Definition sanitizable (v : jsvalue) : Prop := v <> JOther true.

(** [(originName.match(/<(.*?)>/) || [null, null])[1]] *)
Definition concrete_type (originName : string) : option string :=
  match Js.exec GENERICTYPEREGEX originName with
  | Some m => Js.group 1 m
  | None => None
  end.

(** [schemaBreakDown.find(x => x.name.indexOf(genObjName) == 0)] *)
Definition template_of (originName : string) (schemaBreakDown : list SchemaObj)
    : option SchemaObj :=
  find (fun x => (Js.indexOf (so_name x)
                    (default "" (nth_str (Js.split originName "<") 0) +:+ "<") =? 0)%Z)
    schemaBreakDown.

(** A property that the instantiation rewrites: one whose result type
    [isTypeGeneric] accepts against the parameter text of the template, the
    test that [createNewSchemaObjectFromGeneric] makes.  On two strings
    [isTypeGeneric] always returns (lemma [isTypeGeneric_generic_prop]). *)
Definition generic_prop (genericType : string) (p : BlockProp) : bool :=
  match isTypeGeneric (JStr (td_name (pd_result (bp_details p)))) (JStr genericType) with
  | Val accepted => accepted
  | _ => false
  end.

(** Every entry of [memo] is still in [memo'], with the same value. *)
Definition preserved {V} (memo memo' : Dict V) : Prop :=
  forall k v, dict_get memo k = Some v -> dict_get memo' k = Some v.

(** The merged properties of a declaration of the schema: its own
    properties, preceded, when it inherits, by the merged properties of its
    parents one after the other.  The parents are the declarations of the
    schema whose name its [inherits] list holds, in the order in which the
    schema declares them. *)
Inductive merged (schemaObjects : list SchemaObj) : SchemaObj -> list BlockProp -> Prop :=
  | merged_own o :
      so_inherits o = None ->
      merged schemaObjects o (so_blockProps o)
  | merged_inherits o inherits inherited :
      so_inherits o = Some inherits ->
      merged_all schemaObjects (List.filter (is_inherited inherits) schemaObjects) inherited ->
      merged schemaObjects o (inherited ++ so_blockProps o)
with merged_all (schemaObjects : list SchemaObj) : list SchemaObj -> list BlockProp -> Prop :=
  | merged_nil : merged_all schemaObjects [] []
  | merged_cons p parents props inherited :
      merged schemaObjects p props ->
      merged_all schemaObjects parents inherited ->
      merged_all schemaObjects (p :: parents) (props ++ inherited).

Scheme merged_mut := Minimality for merged Sort Prop
  with merged_all_mut := Minimality for merged_all Sort Prop.

(** The metadata of a declaration of the schema: its own if it has some;
    otherwise, when it inherits, the metadata of the last of its parents in
    the order in which the schema declares them. *)
Inductive metadata_from (schemaObjects : list SchemaObj)
    : SchemaObj -> option Metadata -> Prop :=
  | metadata_own o md :
      so_metadata o = Some md ->
      metadata_from schemaObjects o (Some md)
  | metadata_none o :
      so_inherits o = None -> so_metadata o = None ->
      metadata_from schemaObjects o None
  | metadata_last o inherits p md :
      so_inherits o = Some inherits -> so_metadata o = None ->
      last (List.filter (is_inherited inherits) schemaObjects) = Some p ->
      metadata_from schemaObjects p md ->
      metadata_from schemaObjects o md.

(** No two declarations of the schema that inherit share a memo key: the
    kind, the name and the generic parameters tell them apart. *)
Definition distinct_keys (schemaObjects : list SchemaObj) : Prop :=
  forall x y,
    In x schemaObjects -> In y schemaObjects ->
    so_inherits x <> None -> so_inherits y <> None ->
    extension_key x = extension_key y -> x = y.

(** Whatever the memo of the inheritance resolver holds for a declaration
    of the schema that inherits is related to that declaration by [P]. *)
Definition memo_holds (P : SchemaObj -> SchemaObj -> Prop)
    (schemaObjects : list SchemaObj) (m : Memory) : Prop :=
  forall x r,
    In x schemaObjects -> so_inherits x <> None ->
    memoizedExtendedObject m !! extension_key x = Some r -> P x r.

(** The memo holds merged properties, respectively inherited metadata, and
    nothing else: the empty memo of a new invocation does. *)
Definition memo_merged (schemaObjects : list SchemaObj) : Memory -> Prop :=
  memo_holds (fun x r => merged schemaObjects x (so_blockProps r)) schemaObjects.

Definition memo_metadata (schemaObjects : list SchemaObj) : Memory -> Prop :=
  memo_holds (fun x r => metadata_from schemaObjects x (so_metadata r)) schemaObjects.

(** A run that leaves the memo of the inheritance resolver alone, however
    it ends. *)
Definition keeps_extended {A} (c : M A) : Prop :=
  forall m res m', c m = (res, m') -> memoizedExtendedObject m' = memoizedExtendedObject m.

(** No declaration of the set [Cyc] is memoized. *)
Definition unresolved (Cyc : SchemaObj -> Prop) (m : Memory) : Prop :=
  forall o, Cyc o -> memoizedExtendedObject m !! extension_key o = None.

(** The run did not return a value: it threw, or it ran out of fuel. *)
Definition never_returns {A} (res : outcome A) : Prop := forall v, res <> Val v.

(** Every member of [Cyc] inherits from a member of [Cyc] declared in the
    schema: [Cyc] is a cycle of the inheritance graph, or a union of
    cycles and of declarations that lead into them. *)
Definition inherits_within (schemaObjects : list SchemaObj) (Cyc : SchemaObj -> Prop) : Prop :=
  forall o, Cyc o ->
    exists inherits p,
      so_inherits o = Some inherits
      /\ In p (List.filter (is_inherited inherits) schemaObjects)
      /\ Cyc p.

(** A declaration of the schema that shares the memo key of a member of
    [Cyc] is a member. *)
Definition keys_within (schemaObjects : list SchemaObj) (Cyc : SchemaObj -> Prop) : Prop :=
  forall o p, Cyc o -> In p schemaObjects -> extension_key p = extension_key o -> Cyc p.

Module Plain.

(** The text [transpileSchema] returns for [s], from the caches of a new
    invocation. *)
Definition transpiled (s : string) : outcome string :=
  fst (transpileSchema0 1 s emptyMemory).

End Plain.

(* ===================================================================== *)
(** * Vocabulary of the further properties *)
(* ===================================================================== *)

(** The message thrown for a parent that the schema does not declare. *)
Definition cannot_find_inherited (o : SchemaObj) (c : string) : Error :=
  Err ("Schema error: " +:+ keyword (so_type o) +:+ " " +:+ so_name o
       +:+ " cannot find inherited " +:+ keyword (so_type o) +:+ " " +:+ c).

(** The message thrown for a parent of an incompatible kind. *)
Definition cannot_inherit_from (o subClass : SchemaObj) : Error :=
  Err ("Schema error: " +:+ keyword (so_type o) +:+ " " +:+ so_name o
       +:+ " cannot inherit from " +:+ type_name (so_type subClass) +:+ " "
       +:+ so_name subClass +:+ ".").

Module More.

(** [input In inherits A], with [A] a type. *)
Definition In1 := Objects.decl INPUT "In" (Some ["A"]) None [Objects.p3].

(** [type B inherits A, Missing]. *)
Definition Bmissing := Objects.decl TYPE "B" (Some ["A"; "Missing"]) None [Objects.p3].

(** The schema [I1], [I2 implements I1], [Base], [T inherits Base
    implements I2] and what [T] resolves to in it. *)
Definition interfaces_schema : list SchemaObj :=
  [Objects.I1; Objects.I2; Objects.Base; Objects.Tinh].
Definition Tinh_resolved : SchemaObj :=
  mkSchemaObj TYPE false "T" None None None
    [Objects.prop "b" "ID"; Objects.prop "id" "ID"] (Some [Objects.prop "b" "ID"; Objects.prop "id" "ID"])
    (Some (Parents [Objects.Base])) (Some ["I2"; "I1"]) None None.

(** An extension with a directive that inherits [Base] and implements
    [I2], and what it is resolved to. *)
Definition Ext : SchemaObj :=
  mkSchemaObj TYPE true "T" None (Some "@key") None [Objects.prop "id" "ID"] None
    (Some (Names ["Base"])) (Some ["I2"]) None None.
Definition Ext_resolved : SchemaObj := Tinh_resolved.

(** Two parents that carry metadata and a child that carries none. *)
Definition md1 : Metadata :=
  {| md_name := "node"; md_body := None; md_schemaType := "TYPE"; md_schemaName := "A1";
     md_parent := None; md_directive := false |}.
Definition md2 : Metadata :=
  {| md_name := "edge"; md_body := None; md_schemaType := "TYPE"; md_schemaName := "A2";
     md_parent := None; md_directive := false |}.
Definition alias_md : Metadata :=
  {| md_name := "alias"; md_body := Some "(T) => T + 's'"; md_schemaType := "TYPE";
     md_schemaName := "Paged<T>"; md_parent := None; md_directive := false |}.
Definition Am1 : SchemaObj :=
  mkSchemaObj TYPE false "A1" (Some md1) None None [Objects.p1] None None None None None.
Definition Am2 : SchemaObj :=
  mkSchemaObj TYPE false "A2" (Some md2) None None [Objects.p2] None None None None None.
Definition Bm := Objects.decl TYPE "B" (Some ["A2"; "A1"]) None [Objects.p3].

(** [C inherits B], without metadata either, and what it resolves to in
    the schema [A1], [A2], [B], [C]. *)
Definition Cm := Objects.decl TYPE "C" (Some ["B"]) None [Objects.prop "p4" "ID"].
Definition Bm_resolved : SchemaObj :=
  mkSchemaObj TYPE false "B" (Some md2) None None
    [Objects.p1; Objects.p2; Objects.p3] (Some [Objects.p3])
    (Some (Parents [Am1; Am2])) (Some []) None None.
Definition Cm_resolved : SchemaObj :=
  mkSchemaObj TYPE false "C" (Some md2) None None
    [Objects.p1; Objects.p2; Objects.p3; Objects.prop "p4" "ID"]
    (Some [Objects.prop "p4" "ID"]) (Some (Parents [Bm_resolved])) (Some []) None None.

(** [J1 implements J2] and [J2 implements J1]. *)
Definition J1 := Objects.decl INTERFACE "J1" None (Some ["J2"]) [Objects.p1].
Definition J2 := Objects.decl INTERFACE "J2" None (Some ["J1"]) [Objects.p2].

(** The use [Paged<>], as [getTranspiledParams] records it, and a
    declaration whose name starts like a template and has no parameter. *)
Definition EmptyUse : TypeDetails :=
  {| td_originName := Some "Paged<>"; td_directive := None; td_isGen := true;
     td_dependsOnParent := false; td_metadata := []; td_genericParentTypes := None;
     td_name := "Paged<>"; td_paramName := Some "a" |}.
Definition PagedPlain : SchemaObj :=
  mkSchemaObj TYPE false "Paged<x" None None None [Objects.prop "items" "ID"] None None
    None None None.

(** Caches in which the use [Paged<Product>] is recorded. *)
Definition paged_recorded : Memory :=
  set_memoizedGenericSchemaObjects
    (fun d => dict_set d "PagedProduct" Objects.PagedProduct) emptyMemory.

(** The lines of a block with comments and the properties made of them. *)
Definition commented_block : list string :=
  ["# id"; "  # again"; "p1: ID"; "p2: ID"; "# trailing"].
Definition commented_props : list BlockProp :=
  [ {| bp_comments := "# id" +:+ Js.LF +:+ "    # again";
       bp_details := bp_details Objects.p1; bp_value := "p1: ID" |};
    Objects.p2 ].

(** Fragments as [getSchemaBits] cuts them out: a type, an input, an
    extension of a type and a scalar. *)
Definition bits : list Bit :=
  [ {| property := "type A { p1: ID }"; block := Lines ["p1: ID"]; extend := false |};
    {| property := "input In { p3: ID }"; block := Lines ["p3: ID"]; extend := false |};
    {| property := "type Query { p2: ID }"; block := Lines ["p2: ID"]; extend := true |};
    {| property := "scalar Date"; block := Text "Date"; extend := false |} ].

(** The two readings of the schema [Schemas.paged]. *)
Definition parts (includeNewGenTypes : bool) : outcome (list SchemaObj) * Memory :=
  getSchemaParts Collaborators.escapeGraphQlSchema Collaborators.newShortId
    Collaborators.jsEval 5 Schemas.paged [] includeNewGenTypes emptyMemory.
Definition paged_parts : list SchemaObj :=
  Eval vm_compute in match fst (parts false) with Val v => v | _ => [] end.
Definition paged_ast : list SchemaObj :=
  Eval vm_compute in match fst (parts true) with Val v => v | _ => [] end.

End More.

(** [schemaObjects.filter(x => x.name == _interface).first()] *)
Definition interface_named (schemaObjects : list SchemaObj) (i : string) : option SchemaObj :=
  find (fun x => String.eqb (so_name x) i) schemaObjects.

(** What the closure of the name [i] holds.  For a name that is no member
    of [Object.prototype]: [i] itself, the names of its [implements] list and
    what these reach; for a member of [Object.prototype]: that member, which
    the lookup in the cache finds before the schema is consulted.  The
    declaration of a name is the first
    declaration of the schema that bears it. *)
Inductive reaches (schemaObjects : list SchemaObj) : string -> string -> Prop :=
  | reaches_member i member :
      Js.Object_prototype i = Some member ->
      reaches schemaObjects i member
  | reaches_self i :
      Js.Object_prototype i = None ->
      reaches schemaObjects i i
  | reaches_named i io k :
      Js.Object_prototype i = None ->
      interface_named schemaObjects i = Some io ->
      In k (default [] (so_implements io)) ->
      reaches schemaObjects i k
  | reaches_step i io k j :
      Js.Object_prototype i = None ->
      interface_named schemaObjects i = Some io ->
      In k (default [] (so_implements io)) ->
      reaches schemaObjects k j ->
      reaches schemaObjects i j.

(** Every memoized closure is duplicate-free and holds exactly the
    interfaces its name reaches. *)
Definition closures_exact (schemaObjects : list SchemaObj) (m : Memory) : Prop :=
  forall i l,
    memoizedInterfaceWithAncestors m !! i = Some l ->
    List.NoDup l /\ forall j, In j l <-> reaches schemaObjects i j.

Definition not_defined (i : string) : Error :=
  Err ("Schema error: interface " +:+ i +:+ " is not defined.").

Definition not_an_interface (i : string) : Error :=
  Err ("Schema error: Schema property " +:+ i
       +:+ " is not an interface. It cannot be implemented.").

(** A property of the caches that a run keeps, however it ends. *)
Definition kept {A} (I : Memory -> Prop) (c : M A) : Prop :=
  forall m res m', I m -> c m = (res, m') -> I m'.

(** Every memoized instantiation is a declaration that bears the name it
    is memoized under, with its rendered text. *)
Definition instantiations_named (memo : Dict GenericResult) : Prop :=
  forall k r,
    dict_get memo k = Some r ->
    exists o text, obj r = Some o /\ stringObj r = Some text /\ so_name o = k.

(** What a property of a template becomes in an instantiation: the same
    comments and name, and the very same property when its result type
    mentions no generic letter of the template. *)
Definition instantiates (genericType : string) (p p' : BlockProp) : Prop :=
  bp_comments p' = bp_comments p
  /\ pd_name (bp_details p') = pd_name (bp_details p)
  /\ (generic_prop genericType p = false -> p' = p).

(** The comment lines of a block, attached to the property line that
    follows them: for every line that is not a comment, the comment lines
    read since the previous property, joined; [pending] is what has been
    read so far.  Comment lines after the last property are attached to
    nothing. *)
Fixpoint attached_comments (blockParts pending : list string) : list string :=
  match blockParts with
  | [] => []
  | part :: rest =>
      let p := Js.trim part in
      if (Js.indexOf p "#" =? 0)%Z then attached_comments rest (pending ++ [p])
      else Js.join (Js.LF +:+ "    ") pending :: attached_comments rest []
  end.

(** The declaration that [getSchemaObject] makes of a fragment keeps the
    kind asked for and, for a braced fragment, its [extend] flag; a scalar
    or a union is named by the text of its fragment and has no property. *)
Definition declares (t : SchemaType) (d : Bit) (o : SchemaObj) : Prop :=
  so_type o = t
  /\ so_comments o = None
  /\ match t with
     | SCALAR | UNION => block d = Text (so_name o) /\ so_blockProps o = []
     | _ => so_extend o = extend d
     end.

(** [requires c r]: every text that [r] matches holds the character [c],
    read off the shape of [r]: [c] is a character of a sequence, of both
    branches of an alternative or of a quantified part that is taken at
    least once. *)
Fixpoint requires (c : ascii) (r : Js.regex) : bool :=
  match r with
  | Js.RChar x => Js.eqc x c
  | Js.RSeq r1 r2 => requires c r1 || requires c r2
  | Js.RAlt r1 r2 => requires c r1 && requires c r2
  | Js.RGroup _ r1 => requires c r1
  | Js.RRep mn _ _ r1 => (1 <=? mn) && requires c r1
  | _ => false
  end.

(** What [getTypeDetails] makes of a type expression that is no use of a
    generic type. *)
Definition plain_details (t : string) (metadata : list Metadata)
    (genericParentTypes : option (list string)) : TypeDetails :=
  {| td_originName := Some (Js.trim (Js.replace RX_DIRECTIVE t ""));
     td_directive := option_map Js.whole (Js.exec RX_DIRECTIVE t);
     td_isGen := false; td_dependsOnParent := false; td_metadata := metadata;
     td_genericParentTypes := genericParentTypes;
     td_name := Js.trim (Js.replace RX_DIRECTIVE t "");
     td_paramName := None |}.

(** The interfaces a declaration names itself, as the inheritance path
    keeps them: without the empty names and without repetitions. *)
Definition declared_interfaces (o : SchemaObj) : list string :=
  uniq (List.filter Js.truthy (default [] (so_implements o))).

(** The declarations that [getSchemaParts] appends for the directives of
    the metadata. *)
Definition directive_objects (metadata : list Metadata) : list SchemaObj :=
  map (fun d =>
         mkSchemaObj DIRECTIVE false (md_name d) None None None [] None None None None
           (Some (Js.replaceAll RX_CR_ESC (default "" (md_body d)) Js.LF)))
    (List.filter md_directive metadata).

(** The declarations synthesized for the generic uses of [resolved]. *)
Definition synthesized (resolved : Dict GenericResult) : list SchemaObj :=
  flat_map (fun x => match obj x with Some o => [o] | None => [] end) (dict_values resolved).

(* ===================================================================== *)
(** * General lemmas: the monad and the dictionaries *)
(* ===================================================================== *)

Lemma bind_val {A B} (c : M A) (k : A -> M B) m b m' :
  bind c k m = (Val b, m') ->
  exists a m1, c m = (Val a, m1) /\ k a m1 = (Val b, m').
Proof.
  unfold bind. destruct (c m) as [[a | e |] m1]; intros H; try discriminate.
  exists a, m1. split; [reflexivity | exact H].
Qed.

Lemma ret_val {A} (a b : A) m m' : ret a m = (Val b, m') -> a = b /\ m = m'.
Proof. unfold ret. intros H. inversion H. split; reflexivity. Qed.

Lemma get_val m a m' : get m = (Val a, m') -> a = m /\ m' = m.
Proof. unfold get. intros H. inversion H. split; reflexivity. Qed.

Lemma lift_val {A} (c : outcome A) m a m' :
  lift c m = (Val a, m') -> c = Val a /\ m' = m.
Proof. unfold lift. intros H. inversion H. split; reflexivity. Qed.

Lemma bind_lift_val {A B} (a : A) (k : A -> M B) : bind (lift (Val a)) k = k a.
Proof. reflexivity. Qed.

(** On two strings [isTypeGeneric] returns: what it returns for the result
    type of a property is [generic_prop]. *)
Lemma isTypeGeneric_generic_prop genericType p :
  isTypeGeneric (JStr (td_name (pd_result (bp_details p)))) (JStr genericType)
  = Val (generic_prop genericType p).
Proof.
  unfold generic_prop, isTypeGeneric, sanitize.
  destruct (Js.truthy (td_name (pd_result (bp_details p)))),
           (Js.truthy genericType); cbn [obind];
    repeat match goal with
           | |- context [if ?b then _ else _] => destruct b
           end; reflexivity.
Qed.

(** Peels the successful prefix of a run. *)
Ltac inv_bind H :=
  repeat match type of H with
  | bind _ _ _ = (Val _, _) =>
      let a := fresh "a" in
      let m := fresh "m" in
      let H1 := fresh "H" in
      apply bind_val in H; destruct H as (a & m & H1 & H)
  end.

Lemma mapM_Forall2 {A B} (f : A -> M B) (l : list A) m ys m' :
  mapM f l m = (Val ys, m') ->
  Forall2 (fun x y => exists m1 m2, f x m1 = (Val y, m2)) l ys.
Proof.
  revert m ys m'. induction l as [| x l IH]; intros m ys m' H; simpl in H.
  - apply ret_val in H as [<- _]. constructor.
  - inv_bind H. apply ret_val in H as [<- _].
    constructor; [eauto | eauto].
Qed.

Lemma dict_get_set_eq {V} (d : Dict V) k v : dict_get (dict_set d k v) k = Some v.
Proof.
  induction d as [| [k' v'] d IH]; simpl.
  - rewrite String.eqb_refl. reflexivity.
  - destruct (String.eqb k k') eqn:E; simpl.
    + rewrite String.eqb_refl. reflexivity.
    + rewrite E. exact IH.
Qed.

Lemma dict_get_set_ne {V} (d : Dict V) k k' v :
  k <> k' -> dict_get (dict_set d k v) k' = dict_get d k'.
Proof.
  intros Hne. induction d as [| [k0 v0] d IH]; simpl.
  - destruct (String.eqb k' k) eqn:E; [| reflexivity].
    apply String.eqb_eq in E. congruence.
  - destruct (String.eqb k k0) eqn:E; simpl.
    + apply String.eqb_eq in E. subst k0.
      destruct (String.eqb k' k) eqn:E'; [| reflexivity].
      apply String.eqb_eq in E'. congruence.
    + destruct (String.eqb k' k0); [reflexivity | exact IH].
Qed.

(* ===================================================================== *)
(** * Fuel: a run that ends does not depend on the fuel left over *)
(* ===================================================================== *)

Lemma cutM_refl {A} (c : M A) : cutM c c.
Proof. intros m. right. reflexivity. Qed.

Lemma cutM_diverge {A} (c : M A) : cutM diverge c.
Proof. intros m. left. reflexivity. Qed.

Lemma cutM_bind {A B} (c1 c2 : M A) (k1 k2 : A -> M B) :
  cutM c1 c2 -> (forall a, cutM (k1 a) (k2 a)) -> cutM (bind c1 k1) (bind c2 k2).
Proof.
  intros Hc Hk m. unfold bind.
  destruct (Hc m) as [Hd | He].
  - left. destruct (c1 m) as [[a | e |] m1]; simpl in Hd; try discriminate. reflexivity.
  - rewrite He. destruct (c2 m) as [[a | e |] m1].
    + apply Hk.
    + right. reflexivity.
    + right. reflexivity.
Qed.

Lemma cutM_mapM {A B} (f1 f2 : A -> M B) (l : list A) :
  (forall x, cutM (f1 x) (f2 x)) -> cutM (mapM f1 l) (mapM f2 l).
Proof.
  intros Hf. induction l as [| x l IH]; simpl.
  - apply cutM_refl.
  - apply cutM_bind; [apply Hf |]. intros y.
    apply cutM_bind; [exact IH |]. intros ys. apply cutM_refl.
Qed.

Lemma cutM_foldM {A S} (f1 f2 : S -> A -> M S) (l : list A) (s : S) :
  (forall s x, cutM (f1 s x) (f2 s x)) -> cutM (foldM f1 l s) (foldM f2 l s).
Proof.
  intros Hf. revert s. induction l as [| x l IH]; intros s; simpl.
  - apply cutM_refl.
  - apply cutM_bind; [apply Hf |]. intros s'. apply IH.
Qed.

Lemma getInterfaceWithAncestors_fuel fuel fuel' i schemaObjects :
  fuel <= fuel' ->
  cutM (getInterfaceWithAncestors fuel i schemaObjects)
       (getInterfaceWithAncestors fuel' i schemaObjects).
Proof.
  revert fuel' i. induction fuel as [| fuel IH]; intros fuel' i Hle.
  - apply cutM_diverge.
  - destruct fuel' as [| fuel']; [lia |]. simpl.
    unfold getInterfaceWithAncestors_body.
    apply cutM_bind; [apply cutM_refl |]. intros m0.
    destruct (memoizedInterface m0 i); [apply cutM_refl |].
    destruct (find _ schemaObjects) as [io |]; [| apply cutM_refl].
    destruct (negb _); [apply cutM_refl |].
    apply cutM_bind; [| intros; apply cutM_refl].
    destruct (so_implements io) as [[| j l] |]; try apply cutM_refl.
    apply cutM_bind; [| intros; apply cutM_refl].
    apply cutM_mapM. intros x. apply IH. lia.
Qed.

Lemma getObjWithInterfaces_fuel fuel fuel' o schemaObjects :
  fuel <= fuel' ->
  cutM (getObjWithInterfaces fuel o schemaObjects)
       (getObjWithInterfaces fuel' o schemaObjects).
Proof.
  intros Hle. unfold getObjWithInterfaces.
  destruct schemaObjects as [objs |]; [| apply cutM_refl].
  destruct (so_implements o) as [[| i l] |]; try apply cutM_refl.
  apply cutM_bind; [| intros; apply cutM_refl].
  apply cutM_mapM. intros x. apply getInterfaceWithAncestors_fuel. exact Hle.
Qed.

Lemma getObjWithExtensions_fuel fuel fuel' o schemaObjects :
  fuel <= fuel' ->
  cutM (getObjWithExtensions fuel o schemaObjects)
       (getObjWithExtensions fuel' o schemaObjects).
Proof.
  revert fuel' o. induction fuel as [| fuel IH]; intros fuel' o Hle.
  - apply cutM_diverge.
  - destruct fuel' as [| fuel']; [lia |]. simpl.
    unfold getObjWithExtensions_body.
    destruct (so_inherits o) as [inherits |].
    + apply cutM_bind; [apply cutM_refl |]. intros m0.
      destruct (memoizedExtendedObject m0 !! extension_key o); [apply cutM_refl |].
      destruct (missingClasses _ _); [| apply cutM_refl].
      apply cutM_bind.
      * apply cutM_mapM. intros x.
        destruct (negb _); [apply cutM_refl |]. apply IH. lia.
      * intros parents. apply cutM_bind; [apply cutM_refl |]. intros md.
        apply cutM_bind; [apply cutM_refl |]. intros u.
        apply getObjWithInterfaces_fuel. lia.
    + apply getObjWithInterfaces_fuel. lia.
Qed.

Section FuelGeneric.

Variable jsEval : string -> string.
Variables rec1 rec2 :
  TypeDetails -> Dict GenericResult -> M (GenericResult * Dict GenericResult).
Hypothesis rec_cut : forall td memo, cutM (rec1 td memo) (rec2 td memo).

Lemma instantiate_prop_fuel genericType concreteType prop memo :
  cutM (instantiate_prop jsEval rec1 genericType concreteType prop memo)
       (instantiate_prop jsEval rec2 genericType concreteType prop memo).
Proof.
  unfold instantiate_prop. rewrite isTypeGeneric_generic_prop, !bind_lift_val.
  destruct (generic_prop _ _); [| apply cutM_refl].
  apply cutM_bind; [apply cutM_refl |]. intros name.
  apply cutM_bind; [| intros; apply cutM_refl].
  destruct (td_dependsOnParent _); [| apply cutM_refl].
  destruct (td_genericParentTypes _); [| apply cutM_refl].
  apply cutM_bind; [apply cutM_refl |]. intros ty.
  apply cutM_bind; [apply cutM_refl |]. intros gp.
  apply cutM_bind; [apply rec_cut |]. intros rm. apply cutM_refl.
Qed.

Lemma instantiate_props_fuel genericType concreteType props memo :
  cutM (instantiate_props jsEval rec1 genericType concreteType props memo)
       (instantiate_props jsEval rec2 genericType concreteType props memo).
Proof.
  revert memo. induction props as [| prop props IH]; intros memo; simpl.
  - apply cutM_refl.
  - apply cutM_bind; [apply instantiate_prop_fuel |]. intros pm.
    apply cutM_bind; [apply IH |]. intros rest. apply cutM_refl.
Qed.

Lemma createNewSchemaObjectFromGeneric_body_fuel td schemaBreakDown memo :
  cutM (createNewSchemaObjectFromGeneric_body jsEval rec1 td schemaBreakDown memo)
       (createNewSchemaObjectFromGeneric_body jsEval rec2 td schemaBreakDown memo).
Proof.
  unfold createNewSchemaObjectFromGeneric_body.
  destruct (td_isGen td); [| apply cutM_refl].
  destruct (dict_get memo (td_name td)); [apply cutM_refl |].
  destruct (td_originName td); [| apply cutM_refl].
  destruct (negb _); [apply cutM_refl |].
  destruct (find _ schemaBreakDown); [| apply cutM_refl].
  destruct (negb _); [apply cutM_refl |].
  apply cutM_bind; [apply instantiate_props_fuel |]. intros pm. apply cutM_refl.
Qed.

End FuelGeneric.

Lemma createNewSchemaObjectFromGeneric_fuel jsEval fuel fuel' td schemaBreakDown memo :
  fuel <= fuel' ->
  cutM (createNewSchemaObjectFromGeneric jsEval fuel td schemaBreakDown memo)
       (createNewSchemaObjectFromGeneric jsEval fuel' td schemaBreakDown memo).
Proof.
  revert fuel' td memo. induction fuel as [| fuel IH]; intros fuel' td memo Hle.
  - apply cutM_diverge.
  - destruct fuel' as [| fuel']; [lia |]. simpl.
    apply createNewSchemaObjectFromGeneric_body_fuel.
    intros td' memo'. apply IH. lia.
Qed.

Lemma resolveGenericTypes_fuel jsEval fuel fuel' schemaObjs :
  fuel <= fuel' ->
  cutM (resolveGenericTypes jsEval fuel schemaObjs)
       (resolveGenericTypes jsEval fuel' schemaObjs).
Proof.
  intros Hle. unfold resolveGenericTypes.
  apply cutM_bind; [apply cutM_refl |]. intros m0.
  apply cutM_foldM. intros memo value.
  apply cutM_bind; [| intros; apply cutM_refl].
  apply createNewSchemaObjectFromGeneric_fuel. exact Hle.
Qed.

Section FuelEntry.

Variable escapeGraphQlSchema : string -> string -> string -> string.
Variable newShortId : nat -> string.
Variable removeGraphMetadata : string -> string * list Metadata.
Variable jsEval : string -> string.

Lemma buildSchemaString_fuel fuel fuel' schemaObjs :
  fuel <= fuel' ->
  cutM (buildSchemaString jsEval fuel schemaObjs) (buildSchemaString jsEval fuel' schemaObjs).
Proof.
  intros Hle. unfold buildSchemaString.
  apply cutM_bind; [apply resolveGenericTypes_fuel; exact Hle |].
  intros r. apply cutM_refl.
Qed.

Lemma getSchemaParts_fuel fuel fuel' sch metadata includeNewGenTypes :
  fuel <= fuel' ->
  cutM (getSchemaParts escapeGraphQlSchema newShortId jsEval fuel sch metadata
          includeNewGenTypes)
       (getSchemaParts escapeGraphQlSchema newShortId jsEval fuel' sch metadata
          includeNewGenTypes).
Proof.
  intros Hle. unfold getSchemaParts.
  apply cutM_bind; [apply cutM_refl |]. intros bits.
  apply cutM_bind; [apply cutM_refl |]. intros objs.
  apply cutM_bind.
  { apply cutM_mapM. intros o. apply getObjWithExtensions_fuel. exact Hle. }
  intros extended.
  apply cutM_bind; [apply cutM_refl |]. intros v.
  apply cutM_bind; [| intros; apply cutM_refl].
  destruct includeNewGenTypes; [| apply cutM_refl].
  apply cutM_bind; [apply resolveGenericTypes_fuel; exact Hle |].
  intros r. apply cutM_refl.
Qed.

Lemma transpileSchema_fuel fuel fuel' sch :
  fuel <= fuel' ->
  cutM (transpileSchema escapeGraphQlSchema newShortId removeGraphMetadata jsEval fuel sch)
       (transpileSchema escapeGraphQlSchema newShortId removeGraphMetadata jsEval fuel' sch).
Proof.
  intros Hle. unfold transpileSchema.
  apply cutM_bind; [apply cutM_refl |]. intros u.
  apply cutM_bind; [apply getSchemaParts_fuel; exact Hle |]. intros parts.
  apply cutM_bind; [apply buildSchemaString_fuel; exact Hle |]. intros v.
  apply cutM_refl.
Qed.

Lemma getSchemaAST_fuel fuel fuel' sch :
  fuel <= fuel' ->
  cutM (getSchemaAST escapeGraphQlSchema newShortId removeGraphMetadata jsEval fuel sch)
       (getSchemaAST escapeGraphQlSchema newShortId removeGraphMetadata jsEval fuel' sch).
Proof.
  intros Hle. unfold getSchemaAST.
  apply cutM_bind; [apply cutM_refl |]. intros u.
  apply cutM_bind; [apply getSchemaParts_fuel; exact Hle |]. intros parts.
  apply cutM_refl.
Qed.

End FuelEntry.

(** A transpilation that returns with some fuel returns the same text,
    and leaves the same caches, with any larger fuel. *)
Lemma transpileSchema0_enough fuel extra sch m v m' :
  transpileSchema0 fuel sch m = (Val v, m') ->
  transpileSchema0 (fuel + extra) sch m = (Val v, m').
Proof.
  intros H.
  destruct (transpileSchema_fuel Collaborators.escapeGraphQlSchema Collaborators.newShortId
              Collaborators.removeGraphMetadata Collaborators.jsEval
              fuel (fuel + extra) sch ltac:(lia) m) as [Hd | He].
  - unfold transpileSchema0 in H. rewrite H in Hd. discriminate Hd.
  - unfold transpileSchema0 in *. rewrite <- He. exact H.
Qed.

(* ===================================================================== *)
(** * C1: the end-to-end example *)
(* ===================================================================== *)

(** C1, as the code has it.  The block expressions ask for a line break
    between the braces of a declaration.  On the schema of the
    specification written with every block spread over lines, whatever
    the caches hold on entry and with any fuel, [transpileSchema] returns the text
    [paged_output] and leaves the caches empty.  The text holds, white
    space apart, the declarations [type Product { id: ID }],
    [type Query { products: PagedProduct }] and the synthesized
    [type PagedProduct { items: [Product] }], and nowhere the template
    [Paged<T>]. *)
Theorem transpile_paged (fuel : nat) (m : Memory) :
  transpileSchema0 (S fuel) Schemas.paged m = (Val Schemas.paged_output, emptyMemory)
  /\ holds Schemas.paged_output "type Product { id: ID }" = true
  /\ holds Schemas.paged_output "type Query { products: PagedProduct }" = true
  /\ holds Schemas.paged_output "type PagedProduct { items: [Product] }" = true
  /\ holds Schemas.paged_output "Paged<T>" = false.
Proof.
  split.
  - apply (transpileSchema0_enough 1 fuel). vm_compute. reflexivity.
  - repeat split; vm_compute; reflexivity.
Qed.

(** C1 fails as stated: on the one-line blocks of the specification the
    type expression finds [type Paged<T> { ... }] alone, running up to the
    closing brace of [Product]; templates are not printed and no generic use
    was recorded, so the output is an empty line, which holds none of the
    three declarations. *)
Lemma transpile_paged_inline :
  transpileSchema0 1 Schemas.paged_inline emptyMemory = (Val Js.LF, emptyMemory)
  /\ holds Js.LF "type Product { id: ID }" = false
  /\ holds Js.LF "type Query { products: PagedProduct }" = false
  /\ holds Js.LF "type PagedProduct { items: [Product] }" = false.
Proof. repeat split; vm_compute; reflexivity. Qed.

(* ===================================================================== *)
(** * C2: the merged properties of a declaration that inherits *)
(* ===================================================================== *)

Lemma getObjWithInterfaces_blockProps fuel o schemaObjects m r m' :
  getObjWithInterfaces fuel o schemaObjects m = (Val r, m') ->
  so_blockProps r = so_blockProps o.
Proof.
  unfold getObjWithInterfaces. intros H.
  destruct schemaObjects as [objs |].
  - destruct (so_implements o) as [[| i l] |].
    + apply ret_val in H as [<- _]. reflexivity.
    + apply bind_val in H as (closures & m1 & _ & H).
      apply ret_val in H as [<- _]. reflexivity.
    + apply ret_val in H as [<- _]. reflexivity.
  - apply ret_val in H as [<- _]. reflexivity.
Qed.

Lemma keeps_ret {A} (a : A) : keeps_extended (ret a).
Proof. intros m res m' H. inversion H. reflexivity. Qed.

Lemma keeps_throw {A} (e : Error) : keeps_extended (@throw A e).
Proof. intros m res m' H. inversion H. reflexivity. Qed.

Lemma keeps_diverge {A} : keeps_extended (@diverge A).
Proof. intros m res m' H. inversion H. reflexivity. Qed.

Lemma keeps_bind {A B} (c : M A) (k : A -> M B) :
  keeps_extended c -> (forall a, keeps_extended (k a)) -> keeps_extended (bind c k).
Proof.
  intros Hc Hk m res m' H. unfold bind in H.
  destruct (c m) as [[a | e |] m1] eqn:E.
  - rewrite (Hk a _ _ _ H). exact (Hc _ _ _ E).
  - inversion H; subst. exact (Hc _ _ _ E).
  - inversion H; subst. exact (Hc _ _ _ E).
Qed.

Lemma keeps_mapM {A B} (f : A -> M B) (l : list A) :
  (forall x, keeps_extended (f x)) -> keeps_extended (mapM f l).
Proof.
  intros Hf. induction l as [| x l IH]; simpl.
  - apply keeps_ret.
  - apply keeps_bind; [apply Hf |]. intros y.
    apply keeps_bind; [exact IH |]. intros ys. apply keeps_ret.
Qed.

Lemma getInterfaceWithAncestors_keeps fuel i schemaObjects :
  keeps_extended (getInterfaceWithAncestors fuel i schemaObjects).
Proof.
  revert i. induction fuel as [| fuel IH]; intros i; simpl.
  - apply keeps_diverge.
  - unfold getInterfaceWithAncestors_body.
    apply keeps_bind; [intros m res m' H; inversion H; reflexivity |].
    intros m0. destruct (memoizedInterface m0 i); [apply keeps_ret |].
    destruct (find _ schemaObjects) as [io |]; [| apply keeps_throw].
    destruct (negb _); [apply keeps_throw |].
    apply keeps_bind.
    + destruct (so_implements io) as [[| j l] |]; try apply keeps_ret.
      apply keeps_bind; [| intros; apply keeps_ret].
      apply keeps_mapM. intros x. apply IH.
    + intros anc. apply keeps_bind; [| intros; apply keeps_ret].
      intros m res m' H. inversion H. reflexivity.
Qed.

Lemma getObjWithInterfaces_keeps fuel o schemaObjects :
  keeps_extended (getObjWithInterfaces fuel o schemaObjects).
Proof.
  unfold getObjWithInterfaces.
  destruct schemaObjects as [objs |]; [| apply keeps_ret].
  destruct (so_implements o) as [[| i l] |]; try apply keeps_ret.
  apply keeps_bind; [| intros; apply keeps_ret].
  apply keeps_mapM. intros x. apply getInterfaceWithAncestors_keeps.
Qed.

Lemma getObjWithInterfaces_metadata fuel o schemaObjects m r m' :
  getObjWithInterfaces fuel o schemaObjects m = (Val r, m') ->
  so_metadata r = so_metadata o.
Proof.
  unfold getObjWithInterfaces. intros H.
  destruct schemaObjects as [objs |].
  - destruct (so_implements o) as [[| i l] |].
    + apply ret_val in H as [<- _]. reflexivity.
    + apply bind_val in H as (closures & m1 & _ & H).
      apply ret_val in H as [<- _]. reflexivity.
    + apply ret_val in H as [<- _]. reflexivity.
  - apply ret_val in H as [<- _]. reflexivity.
Qed.

Lemma mapM_invariant {A B} (I : Memory -> Prop) (P : A -> B -> Prop)
    (f : A -> M B) (l : list A) :
  (forall a m b m', In a l -> I m -> f a m = (Val b, m') -> P a b /\ I m') ->
  forall m bs m', I m -> mapM f l m = (Val bs, m') -> Forall2 P l bs /\ I m'.
Proof.
  induction l as [| a l IH]; intros Hf m bs m' Hm H; simpl in H.
  - apply ret_val in H as [<- <-]. split; [constructor | exact Hm].
  - apply bind_val in H as (b & m1 & Hb & H).
    apply bind_val in H as (bs' & m2 & Hbs & H).
    apply ret_val in H as [<- <-].
    destruct (Hf a m b m1 (or_introl eq_refl) Hm Hb) as [Hp Hm1].
    destruct (IH (fun a0 m0 b0 m0' Hin => Hf a0 m0 b0 m0' (or_intror Hin)) m1 bs' m2 Hm1 Hbs)
      as [Hps Hm2].
    split; [constructor; assumption | exact Hm2].
Qed.

Lemma last_map_Some {A} (l : list A) : List.last (map Some l) None = last l.
Proof.
  induction l as [| a [| b l] IH]; try reflexivity.
  change (List.last (map Some (a :: b :: l)) None)
    with (List.last (map Some (b :: l)) None).
  rewrite IH. reflexivity.
Qed.

Lemma Forall2_last {A B} (P : A -> B -> Prop) l l' b :
  Forall2 P l l' -> last l' = Some b -> exists a, last l = Some a /\ P a b.
Proof.
  induction 1 as [| x y l l' Hxy Hl IH]; intros Hlast; [discriminate Hlast |].
  destruct Hl as [| x' y' l l' Hxy' Hl].
  - simpl in Hlast. inversion Hlast; subst. exists x. split; [reflexivity | exact Hxy].
  - apply IH. exact Hlast.
Qed.

(** What a resolution returns, whatever the memo held: a relation [P]
    between a declaration and its resolution holds of every resolution of a
    declaration of the schema, and of the memo afterwards, as soon as it
    holds of a declaration that does not inherit and itself, and of a
    declaration that inherits and any record with the properties and the
    metadata that the resolver computes from parents it holds of. *)
Section Resolution.

Variable schemaObjects : list SchemaObj.
Variable P : SchemaObj -> SchemaObj -> Prop.

Hypothesis distinct : distinct_keys schemaObjects.
Hypothesis P_plain : forall o, so_inherits o = None -> P o o.
Hypothesis P_inherits :
  forall o inherits parents r,
    so_inherits o = Some inherits ->
    Forall2 P (List.filter (is_inherited inherits) schemaObjects) parents ->
    so_blockProps r = concat (map so_blockProps parents) ++ so_blockProps o ->
    match so_metadata o with
    | Some md => so_metadata r = Some md
    | None => exists p, last parents = Some p /\ so_metadata r = so_metadata p
    end ->
    P o r.

Lemma getObjWithExtensions_holds fuel :
  forall o m r m',
    In o schemaObjects ->
    memo_holds P schemaObjects m ->
    getObjWithExtensions fuel o schemaObjects m = (Val r, m') ->
    P o r /\ memo_holds P schemaObjects m'.
Proof.
  induction fuel as [| fuel IH]; intros o m r m' Hin Hm H; [discriminate H |].
  simpl in H. unfold getObjWithExtensions_body in H.
  destruct (so_inherits o) as [inherits |] eqn:Hinh.
  2:{ apply ret_val in H as [<- <-]. split; [apply P_plain; exact Hinh | exact Hm]. }
  apply bind_val in H as (m0 & m1 & Hget & H).
  apply get_val in Hget as [-> ->].
  destruct (memoizedExtendedObject m !! extension_key o) as [memoized |] eqn:Hmemo.
  { apply ret_val in H as [<- <-]. split; [| exact Hm].
    apply (Hm o memoized Hin); [congruence | exact Hmemo]. }
  destruct (missingClasses inherits (map so_name schemaObjects)); [| discriminate].
  apply bind_val in H as (parents & m2 & Hparents & H).
  apply (mapM_invariant (memo_holds P schemaObjects) P) in Hparents as [Hps Hm2];
    [| | exact Hm].
  2:{ intros a ma b mb Ha Hma Hf. cbv beta in Hf.
      destruct (negb (inheritingIsAllowed o a)); [discriminate |].
      apply filter_In in Ha as [Ha _]. exact (IH a ma b mb Ha Hma Hf). }
  apply bind_val in H as (metadata & m3 & Hmeta & H).
  assert (Hmd : m3 = m2
                /\ match so_metadata o with
                   | Some md => metadata = Some md
                   | None => exists p, last parents = Some p /\ metadata = so_metadata p
                   end).
  { destruct (so_metadata o) as [md |].
    - apply ret_val in Hmeta as [<- <-]. split; reflexivity.
    - rewrite last_map_Some in Hmeta.
      destruct (last parents) as [p |]; [| discriminate].
      apply ret_val in Hmeta as [<- <-]. split; [reflexivity |].
      exists p. split; reflexivity. }
  destruct Hmd as [-> Hmd].
  apply bind_val in H as (u & m4 & Hput & H).
  unfold modify in Hput. inversion Hput; subst u m4. clear Hput.
  pose proof (getObjWithInterfaces_keeps _ _ _ _ _ _ H) as Hkeep.
  cbn [set_memoizedExtendedObject memoizedExtendedObject] in Hkeep.
  pose proof (getObjWithInterfaces_blockProps _ _ _ _ _ _ H) as Hprops.
  pose proof (getObjWithInterfaces_metadata _ _ _ _ _ _ H) as Hmeta'.
  cbn [so_blockProps so_metadata] in Hprops, Hmeta'.
  assert (Hstored : forall r0,
            so_blockProps r0 = concat (map so_blockProps parents) ++ so_blockProps o ->
            so_metadata r0 = metadata -> P o r0).
  { intros r0 Hp0 Hm0. apply (P_inherits o inherits parents r0 Hinh Hps Hp0).
    destruct (so_metadata o) as [md |].
    - rewrite Hm0. exact Hmd.
    - destruct Hmd as (p & Hp & ->). exists p. split; assumption. }
  split; [apply Hstored; assumption |].
  intros x rx Hx Hix Hlookup. rewrite Hkeep in Hlookup.
  destruct (String.eqb_spec (extension_key o) (extension_key x)) as [E | E].
  - rewrite E, lookup_insert_eq in Hlookup. inversion Hlookup; subst rx.
    assert (x = o) by (apply distinct; try assumption; congruence). subst x.
    apply Hstored; reflexivity.
  - rewrite lookup_insert_ne in Hlookup by exact E.
    exact (Hm2 x rx Hx Hix Hlookup).
Qed.

End Resolution.

Lemma memo_holds_empty P schemaObjects : memo_holds P schemaObjects emptyMemory.
Proof. intros x r _ _ H. vm_compute in H. discriminate H. Qed.

Lemma merged_all_concat schemaObjects parents resolved :
  Forall2 (fun x r => merged schemaObjects x (so_blockProps r)) parents resolved ->
  merged_all schemaObjects parents (concat (map so_blockProps resolved)).
Proof.
  induction 1 as [| x r parents resolved Hx _ IH]; simpl; constructor; assumption.
Qed.

(** The merged properties of a declaration are determined by the schema. *)
Lemma merged_unique schemaObjects o props :
  merged schemaObjects o props ->
  forall props', merged schemaObjects o props' -> props' = props.
Proof.
  revert o props.
  apply (merged_mut schemaObjects
           (fun o props => forall props', merged schemaObjects o props' -> props' = props)
           (fun parents inherited =>
              forall inherited', merged_all schemaObjects parents inherited' ->
                                 inherited' = inherited)).
  - intros o Hinh props' H'. inversion H'; subst; [reflexivity | congruence].
  - intros o inherits inherited Hinh _ IH props' H'.
    inversion H' as [o' Hinh' | o' inherits' inherited' Hinh' Hall']; subst; [congruence |].
    assert (inherits' = inherits) by congruence. subst inherits'.
    rewrite (IH inherited' Hall'). reflexivity.
  - intros inherited' H'. inversion H'. reflexivity.
  - intros p parents props inherited _ IHp _ IHall inherited' H'.
    inversion H' as [| p' parents' props' inherited0 Hp' Hall']; subst.
    rewrite (IHp props' Hp'), (IHall inherited0 Hall'). reflexivity.
Qed.

(** C2, as the code has it.  Take a schema in which no two declarations
    that inherit share kind, name and generic parameters, and caches whose
    memo holds merged properties only (the empty caches do).  If the
    resolution of a declaration [o] of the schema returns [r], the
    properties of [r] are the merged properties of [o]: the own properties
    of [o] if it inherits nothing; otherwise the merged properties of its
    parents, one parent after the other, followed by the own properties of
    [o], with no entry dropped or merged.  The parents are the declarations
    of the schema whose name [o] inherits, taken in the order in which the
    schema declares them (not in the order in which [o] names them), and
    their merged properties are defined in the same way, through all
    ancestors ([merged_unique]: the schema determines them).  The memo
    holds merged properties afterwards. *)
Theorem inherited_properties fuel o schemaObjects m r m' :
  distinct_keys schemaObjects ->
  In o schemaObjects ->
  memo_merged schemaObjects m ->
  getObjWithExtensions fuel o schemaObjects m = (Val r, m') ->
  merged schemaObjects o (so_blockProps r) /\ memo_merged schemaObjects m'.
Proof.
  intros Hkeys Hin Hm H.
  refine (getObjWithExtensions_holds schemaObjects
            (fun x r0 => merged schemaObjects x (so_blockProps r0))
            Hkeys _ _ fuel o m r m' Hin Hm H).
  - intros x Hx. apply merged_own. exact Hx.
  - intros x inherits parents r0 Hx Hps Hprops _. rewrite Hprops.
    apply (merged_inherits schemaObjects x inherits); [exact Hx |].
    apply merged_all_concat. exact Hps.
Qed.

Lemma inherited_properties_witness :
  merged [Objects.A; Objects.B; Objects.C] Objects.C
    [Objects.p1; Objects.p2; Objects.p3; Objects.prop "p4" "ID"]
  /\ memo_merged [Objects.A; Objects.B; Objects.C]
       (snd (getObjWithExtensions 3 Objects.C [Objects.A; Objects.B; Objects.C] emptyMemory)).
Proof.
  apply (inherited_properties 3 Objects.C [Objects.A; Objects.B; Objects.C] emptyMemory
           Objects.C_resolved).
  - intros x y Hx Hy Hix Hiy Hk. simpl in Hx, Hy.
    destruct Hx as [<- | [<- | [<- | []]]]; destruct Hy as [<- | [<- | [<- | []]]];
      try reflexivity; try (exfalso; apply Hix; reflexivity);
      try (exfalso; apply Hiy; reflexivity); vm_compute in Hk; discriminate Hk.
  - right. right. left. reflexivity.
  - apply memo_holds_empty.
  - vm_compute. reflexivity.
Defined.

(** Why the memo keys must differ: of two declarations that inherit and
    share kind, name and generic parameters, resolved one after the other
    as [getSchemaParts] does, the second gets the memoized result of the
    first, not its own merged properties. *)
Example inherited_properties_shared_key :
  option_map (map so_blockProps)
    (match fst (mapM (fun o => getObjWithExtensions 3 o
                                 [Objects.A1; Objects.A2; Objects.Ba; Objects.Bb])
                  [Objects.Ba; Objects.Bb] emptyMemory) with
     | Val rs => Some rs
     | _ => None
     end)
  = Some [[Objects.p1; Objects.p3]; [Objects.p1; Objects.p3]].
Proof. vm_compute. reflexivity. Qed.

(** The instance of the specification: [A] with [p1, p2] and [B inherits A]
    with [p3] resolve to [p1, p2, p3]. *)
Example inherited_properties_example :
  option_map so_blockProps
    (match fst (getObjWithExtensions 3 Objects.B [Objects.A; Objects.B] emptyMemory) with
     | Val r => Some r
     | _ => None
     end)
  = Some [Objects.p1; Objects.p2; Objects.p3].
Proof. vm_compute. reflexivity. Qed.

(** C2 fails as stated: [B inherits A2, A1] in a schema that declares [A1]
    before [A2] gets the properties of [A1] first, where the order of its
    own [inherits] list would put those of [A2] first. *)
Lemma inherited_properties_not_in_named_order :
  (exists r m',
     getObjWithExtensions 3 Objects.B2 [Objects.A1; Objects.A2; Objects.B2] emptyMemory
     = (Val r, m')
     /\ so_inherits Objects.B2 = Some (Names ["A2"; "A1"])
     /\ so_blockProps r
        = so_blockProps Objects.A1 ++ so_blockProps Objects.A2 ++ so_blockProps Objects.B2
     /\ so_blockProps r
        <> so_blockProps Objects.A2 ++ so_blockProps Objects.A1 ++ so_blockProps Objects.B2).
Proof.
  eexists. eexists. split; [vm_compute; reflexivity |].
  split; [reflexivity |]. split; [reflexivity |].
  vm_compute. intros H. discriminate H.
Qed.

(* ===================================================================== *)
(** * C3: the interfaces of a declaration that inherits nothing *)
(* ===================================================================== *)

Lemma getObjWithExtensions_no_inherits fuel o schemaObjects m :
  so_inherits o = None ->
  getObjWithExtensions (S fuel) o schemaObjects m = (Val o, m).
Proof.
  intros H. simpl. unfold getObjWithExtensions_body. rewrite H. reflexivity.
Qed.

(** C3 fails on the code.  [I2 implements I1] and [T implements I2]: the
    declaration [T], which inherits nothing, is returned as it was parsed,
    [implements] holding [I2] alone, because [getObjWithInterfaces] is
    called without the schema objects on that path; the transpiled text
    says [type T implements I2].  The sibling path, taken by a [T] that
    inherits a base type, does close the list: [I2, I1]. *)
Theorem implements_not_closed :
  getObjWithExtensions 5 Objects.Tobj [Objects.I1; Objects.I2; Objects.Tobj] emptyMemory
  = (Val Objects.Tobj, emptyMemory)
  /\ so_implements Objects.Tobj = Some ["I2"]
  /\ fst (transpileSchema0 1 Schemas.interfaces emptyMemory)
     = Val (lines [""; "interface I1 { "; "    id: ID"; "}";
                   "interface I2 implements I1 { "; "    id: ID"; "}";
                   "type T implements I2 { "; "    id: ID"; "}"])
  /\ match fst (getObjWithExtensions 5 Objects.Tinh
                  [Objects.I1; Objects.I2; Objects.Base; Objects.Tinh] emptyMemory) with
     | Val r => so_implements r = Some ["I2"; "I1"]
     | _ => False
     end.
Proof.
  split; [apply getObjWithExtensions_no_inherits; reflexivity |].
  split; [reflexivity |].
  split; vm_compute; reflexivity.
Qed.

(* ===================================================================== *)
(** * C4: one instantiation per resolved name, and the default alias *)
(* ===================================================================== *)

Lemma preserved_refl {V} (memo : Dict V) : preserved memo memo.
Proof. intros k v H. exact H. Qed.

Lemma preserved_trans {V} (a b c : Dict V) :
  preserved a b -> preserved b c -> preserved a c.
Proof. intros H1 H2 k v H. apply H2, H1, H. Qed.

Lemma preserved_set {V} (memo memo' : Dict V) k v :
  dict_get memo k = None -> preserved memo memo' -> preserved memo (dict_set memo' k v).
Proof.
  intros Hnone Hp k' v' H.
  destruct (String.eqb_spec k k') as [-> | Hne].
  - congruence.
  - rewrite dict_get_set_ne by exact Hne. apply Hp, H.
Qed.

Section Memo.

Variable jsEval : string -> string.
Variable rec : TypeDetails -> Dict GenericResult -> M (GenericResult * Dict GenericResult).
Hypothesis rec_preserves :
  forall td memo m r memo' m',
    rec td memo m = (Val (r, memo'), m') -> preserved memo memo'.

Lemma instantiate_prop_preserves genericType concreteType prop memo m p memo' m' :
  instantiate_prop jsEval rec genericType concreteType prop memo m = (Val (p, memo'), m') ->
  preserved memo memo'.
Proof.
  unfold instantiate_prop. intros H.
  rewrite isTypeGeneric_generic_prop, bind_lift_val in H.
  destruct (generic_prop _ _).
  - apply bind_val in H as (name & m1 & _ & H).
    apply bind_val in H as (dm & m2 & Hdm & H).
    apply ret_val in H as [H _]. inversion H; subst p memo'. clear H.
    destruct (td_dependsOnParent _).
    + destruct (td_genericParentTypes _); [| discriminate].
      apply bind_val in Hdm as (ty & m3 & _ & Hdm).
      apply bind_val in Hdm as (gp & m4 & _ & Hdm).
      apply bind_val in Hdm as ([r memo1] & m5 & Hrec & Hdm).
      cbn [fst snd] in Hdm.
      destruct (obj r); [| discriminate].
      apply ret_val in Hdm as [Hdm _]. subst dm. cbn [snd].
      eapply rec_preserves. exact Hrec.
    + apply ret_val in Hdm as [Hdm _]. subst dm. apply preserved_refl.
  - apply ret_val in H as [H _]. inversion H; subst. apply preserved_refl.
Qed.

Lemma instantiate_props_preserves genericType concreteType props memo m ps memo' m' :
  instantiate_props jsEval rec genericType concreteType props memo m
  = (Val (ps, memo'), m') ->
  preserved memo memo'.
Proof.
  revert memo m ps memo' m'.
  induction props as [| prop props IH]; intros memo m ps memo' m' H; simpl in H.
  - apply ret_val in H as [H _]. inversion H; subst. apply preserved_refl.
  - apply bind_val in H as ([p memo1] & m1 & Hp & H).
    apply bind_val in H as ([ps' memo2] & m2 & Hps & H).
    apply ret_val in H as [H _]. cbn [fst snd] in *. inversion H; subst. clear H.
    eapply preserved_trans.
    + eapply instantiate_prop_preserves. exact Hp.
    + eapply IH. exact Hps.
Qed.

Lemma createNewSchemaObjectFromGeneric_body_preserves td objs memo m r memo' m' :
  createNewSchemaObjectFromGeneric_body jsEval rec td objs memo m = (Val (r, memo'), m') ->
  preserved memo memo'.
Proof.
  unfold createNewSchemaObjectFromGeneric_body. intros H.
  destruct (td_isGen td).
  - destruct (dict_get memo (td_name td)) eqn:Hmemo.
    + apply ret_val in H as [H _]. inversion H; subst. apply preserved_refl.
    + destruct (td_originName td); [| discriminate].
      destruct (negb _); [discriminate |].
      destruct (find _ objs); [| discriminate].
      destruct (negb _); [discriminate |].
      apply bind_val in H as ([ps memo1] & m1 & Hps & H).
      apply ret_val in H as [H _]. cbn [fst snd] in H. inversion H; subst. clear H.
      apply preserved_set; [exact Hmemo |].
      eapply instantiate_props_preserves. exact Hps.
  - apply ret_val in H as [H _]. inversion H; subst. apply preserved_refl.
Qed.

Lemma createNewSchemaObjectFromGeneric_body_stored td objs memo m r memo' m' :
  td_isGen td = true ->
  createNewSchemaObjectFromGeneric_body jsEval rec td objs memo m = (Val (r, memo'), m') ->
  dict_get memo' (td_name td) = Some r.
Proof.
  unfold createNewSchemaObjectFromGeneric_body. intros Hgen H. rewrite Hgen in H.
  destruct (dict_get memo (td_name td)) eqn:Hmemo.
  - apply ret_val in H as [H _]. inversion H; subst. exact Hmemo.
  - destruct (td_originName td); [| discriminate].
    destruct (negb _); [discriminate |].
    destruct (find _ objs); [| discriminate].
    destruct (negb _); [discriminate |].
    apply bind_val in H as ([ps memo1] & m1 & Hps & H).
    apply ret_val in H as [H _]. inversion H; subst.
    apply dict_get_set_eq.
Qed.

End Memo.

Lemma createNewSchemaObjectFromGeneric_preserves jsEval fuel td objs memo m r memo' m' :
  createNewSchemaObjectFromGeneric jsEval fuel td objs memo m = (Val (r, memo'), m') ->
  preserved memo memo'.
Proof.
  revert td memo m r memo' m'.
  induction fuel as [| fuel IH]; intros td memo m r memo' m' H; simpl in H.
  - discriminate.
  - eapply createNewSchemaObjectFromGeneric_body_preserves; [| exact H].
    intros td0 memo0 m0 r0 memo0' m0' H0. eapply IH. exact H0.
Qed.


(** The default alias on other uses: the arguments are trimmed and joined
    to the base name; a text without a generic part is its own alias. *)
Example genericDefaultNameAlias_examples :
  genericDefaultNameAlias "Pair<A, B>" = "PairAB"
  /\ genericDefaultNameAlias "Paged<Product>!" = "PagedProduct"
  /\ genericDefaultNameAlias "Product" = "Product"
  /\ genericDefaultNameAlias "" = "".
Proof. vm_compute. repeat split; reflexivity. Qed.


(* ===================================================================== *)
(** * C5: a cycle in the inheritance graph *)
(* ===================================================================== *)

Lemma missingClasses_one name schemaObjects x :
  In x schemaObjects -> so_name x = name ->
  missingClasses (Names [name]) (map so_name schemaObjects) = [].
Proof.
  intros Hin Hname. simpl.
  assert (E : existsb (String.eqb name) (map so_name schemaObjects) = true).
  { apply existsb_exists. exists (so_name x). split.
    - apply in_map. exact Hin.
    - rewrite Hname. apply String.eqb_refl. }
  rewrite E. reflexivity.
Qed.

Lemma filter_singleton_In {A} (f : A -> bool) (l : list A) x :
  List.filter f l = [x] -> In x l.
Proof.
  intros H. assert (Hx : In x (List.filter f l)) by (rewrite H; left; reflexivity).
  apply filter_In in Hx. tauto.
Qed.

(** Two declarations that inherit each other alone: whatever the fuel,
    the recursion runs out of it. *)
Lemma two_cycle_diverges fuel a b schemaObjects m :
  so_inherits a = Some (Names [so_name b]) ->
  so_inherits b = Some (Names [so_name a]) ->
  List.filter (is_inherited (Names [so_name b])) schemaObjects = [b] ->
  List.filter (is_inherited (Names [so_name a])) schemaObjects = [a] ->
  inheritingIsAllowed a b = true ->
  inheritingIsAllowed b a = true ->
  memoizedExtendedObject m !! extension_key a = None ->
  memoizedExtendedObject m !! extension_key b = None ->
  getObjWithExtensions fuel a schemaObjects m = (Diverge, m).
Proof.
  intros Ha Hb Hfb Hfa Hab Hba Hma Hmb.
  assert (Hboth : getObjWithExtensions fuel a schemaObjects m = (Diverge, m)
                  /\ getObjWithExtensions fuel b schemaObjects m = (Diverge, m)).
  { induction fuel as [| fuel [IHa IHb]].
    - split; reflexivity.
    - split; simpl; unfold getObjWithExtensions_body.
      + rewrite Ha. unfold bind at 1, get. rewrite Hma.
        rewrite (missingClasses_one _ _ b (filter_singleton_In _ _ _ Hfb) eq_refl).
        rewrite Hfb. unfold bind at 1. simpl mapM. rewrite Hab. cbn [negb].
        unfold bind at 1. rewrite IHb. reflexivity.
      + rewrite Hb. unfold bind at 1, get. rewrite Hmb.
        rewrite (missingClasses_one _ _ a (filter_singleton_In _ _ _ Hfa) eq_refl).
        rewrite Hfa. unfold bind at 1. simpl mapM. rewrite Hba. cbn [negb].
        unfold bind at 1. rewrite IHa. reflexivity. }
  exact (proj1 Hboth).
Qed.

Section Cycle.

Variable schemaObjects : list SchemaObj.
Variable Cyc : SchemaObj -> Prop.
Hypothesis Cyc_parent : inherits_within schemaObjects Cyc.
Hypothesis Cyc_key : keys_within schemaObjects Cyc.

Local Abbreviation unresolved := (unresolved Cyc).

Lemma unresolved_keeps {A} (c : M A) m res m' :
  keeps_extended c -> unresolved m -> c m = (res, m') -> unresolved m'.
Proof.
  intros Hc Hm H o Ho. rewrite (Hc _ _ _ H). apply Hm, Ho.
Qed.

Section Step.

Variable rec : SchemaObj -> list SchemaObj -> M SchemaObj.
Hypothesis rec_cycle :
  forall o m res m',
    In o schemaObjects \/ Cyc o -> unresolved m ->
    rec o schemaObjects m = (res, m') ->
    unresolved m' /\ (Cyc o -> never_returns res).

Lemma parents_cycle (f : SchemaObj -> M SchemaObj) l m res m' :
  (forall x, In x l -> In x schemaObjects) ->
  (forall x m res m',
     f x m = (res, m') ->
     (exists e, res = Throw e /\ m' = m) \/ rec x schemaObjects m = (res, m')) ->
  unresolved m ->
  mapM f l m = (res, m') ->
  unresolved m' /\ ((exists x, In x l /\ Cyc x) -> never_returns res).
Proof.
  intros Hl Hf. revert m res m'.
  induction l as [| x l IH]; intros m res m' Hm H; simpl in H.
  - inversion H; subst. split; [exact Hm |]. intros (x & [] & _).
  - unfold bind at 1 in H.
    destruct (f x m) as [r1 m1] eqn:Ef.
    assert (Hx : unresolved m1 /\ (Cyc x -> never_returns r1)).
    { destruct (Hf x m r1 m1 Ef) as [(e & -> & ->) | Hrec].
      - split; [exact Hm |]. intros _ v Hv. discriminate Hv.
      - apply (rec_cycle x m r1 m1); [left; apply Hl; left; reflexivity | exact Hm | exact Hrec]. }
    destruct Hx as [Hm1 Hcx].
    destruct r1 as [y | e |].
    + unfold bind at 1 in H.
      destruct (mapM f l m1) as [r2 m2] eqn:El.
      destruct (IH (fun z Hz => Hl z (or_intror Hz)) m1 r2 m2 Hm1 El) as [Hm2 Hcl].
      destruct r2 as [ys | e |]; inversion H; subst.
      * split; [exact Hm2 |]. intros (z & [-> | Hz] & Hcz).
        -- exfalso. exact (Hcx Hcz y eq_refl).
        -- exfalso. exact (Hcl (ex_intro _ z (conj Hz Hcz)) ys eq_refl).
      * split; [exact Hm2 |]. intros _ v Hv. discriminate Hv.
      * split; [exact Hm2 |]. intros _ v Hv. discriminate Hv.
    + inversion H; subst. split; [exact Hm1 |]. intros _ v Hv. discriminate Hv.
    + inversion H; subst. split; [exact Hm1 |]. intros _ v Hv. discriminate Hv.
Qed.

Lemma getObjWithExtensions_body_cycle fuel o m res m' :
  In o schemaObjects \/ Cyc o -> unresolved m ->
  getObjWithExtensions_body fuel rec o schemaObjects m = (res, m') ->
  unresolved m' /\ (Cyc o -> never_returns res).
Proof.
  intros Ho Hm H. unfold getObjWithExtensions_body in H.
  destruct (so_inherits o) as [inherits |] eqn:Hinh.
  - unfold bind at 1, get in H.
    destruct (memoizedExtendedObject m !! extension_key o) eqn:Hmemo.
    { inversion H; subst. split; [exact Hm |].
      intros Hc. rewrite (Hm o Hc) in Hmemo. discriminate Hmemo. }
    destruct (missingClasses inherits (map so_name schemaObjects)).
    2:{ inversion H; subst. split; [exact Hm |]. intros _ v Hv. discriminate Hv. }
    unfold bind at 1 in H.
    destruct (mapM _ (List.filter (is_inherited inherits) schemaObjects) m)
      as [r1 m1] eqn:Eparents.
    apply parents_cycle in Eparents as [Hm1 Hc1]; [| | | exact Hm].
    2:{ intros x Hx. apply filter_In in Hx. tauto. }
    2:{ intros x mx rx mx' Hfx.
        destruct (negb (inheritingIsAllowed o x)).
        - left. inversion Hfx; subst. eauto.
        - right. exact Hfx. }
    assert (Hcyc : Cyc o -> never_returns r1).
    { intros Hc. apply Hc1.
      destruct (Cyc_parent o Hc) as (inh' & p & Hinh' & Hp & Hcp).
      rewrite Hinh in Hinh'. inversion Hinh'; subst inh'. exists p. split; assumption. }
    destruct r1 as [parents | e |].
    + assert (Hnot : ~ Cyc o) by (intros Hc; exact (Hcyc Hc parents eq_refl)).
      unfold bind at 1 in H.
      match type of H with
      | (let (_, _) := ?c m1 in _) = _ => assert (Hmeta : keeps_extended c)
      end.
      { destruct (so_metadata o); [apply keeps_ret |].
        destruct (List.last _ _); [apply keeps_ret | apply keeps_throw]. }
      match type of H with
      | (let (_, _) := ?c m1 in _) = _ => destruct (c m1) as [r2 m2] eqn:Emeta
      end.
      pose proof (unresolved_keeps _ _ _ _ Hmeta Hm1 Emeta) as Hm2.
      destruct r2 as [metadata | e |].
      * unfold bind at 1, modify in H.
        match type of H with
        | getObjWithInterfaces _ _ _ ?m3 = _ => assert (Hm3 : unresolved m3)
        end.
        { intros c Hc. cbn [set_memoizedExtendedObject memoizedExtendedObject].
          destruct (String.eqb_spec (extension_key o) (extension_key c)) as [E | E].
          - exfalso. apply Hnot. destruct Ho as [Ho | Ho]; [| exact Ho].
            apply (Cyc_key c o Hc Ho E).
          - rewrite lookup_insert_ne by exact E. apply Hm2, Hc. }
        split.
        -- eapply unresolved_keeps; [apply getObjWithInterfaces_keeps | exact Hm3 | exact H].
        -- intros Hc. contradiction.
      * inversion H; subst. split; [exact Hm2 |]. intros _ v Hv. discriminate Hv.
      * inversion H; subst. split; [exact Hm2 |]. intros _ v Hv. discriminate Hv.
    + inversion H; subst. split; [exact Hm1 |]. intros _ v Hv. discriminate Hv.
    + inversion H; subst. split; [exact Hm1 |]. intros _ v Hv. discriminate Hv.
  - split.
    + eapply unresolved_keeps; [apply getObjWithInterfaces_keeps | exact Hm | exact H].
    + intros Hc. destruct (Cyc_parent o Hc) as (inh' & p & Hinh' & _).
      rewrite Hinh in Hinh'. discriminate Hinh'.
Qed.

End Step.

Lemma getObjWithExtensions_cycle fuel o m res m' :
  In o schemaObjects \/ Cyc o -> unresolved m ->
  getObjWithExtensions fuel o schemaObjects m = (res, m') ->
  unresolved m' /\ (Cyc o -> never_returns res).
Proof.
  revert o m res m'. induction fuel as [| fuel IH]; intros o m res m' Ho Hm H; simpl in H.
  - inversion H; subst. split; [exact Hm |]. intros _ v Hv. discriminate Hv.
  - eapply getObjWithExtensions_body_cycle; [| exact Ho | exact Hm | exact H].
    intros o0 m0 res0 m0' Ho0 Hm0 H0. exact (IH o0 m0 res0 m0' Ho0 Hm0 H0).
Qed.

End Cycle.




(* ===================================================================== *)
(** * C6: a block that is never closed *)
(* ===================================================================== *)

(** C6 fails on the code.  A declaration that opens a block and never
    closes it matches none of the extraction expressions, each of which
    ends on the closing brace; it is dropped and the transpilation returns
    an empty line, with no error, whatever the fuel.  The check of [breakdownSchemabBit], which
    throws [Schema error: Missing block] on a fragment without a block (and
    does not name the header), only ever sees fragments that the same block
    pattern has already matched. *)
Theorem unclosed_block_dropped (fuel : nat) (m : Memory) :
  transpileSchema0 (S fuel) Schemas.unclosed m = (Val Js.LF, emptyMemory)
  /\ Js.matchAll (rx_regex TYPE_REGEX)
       (Collaborators.escapeGraphQlSchema Schemas.unclosed carrReturnEsc tabEsc) = []
  /\ breakdownSchemabBit
       (Collaborators.escapeGraphQlSchema Schemas.unclosed carrReturnEsc tabEsc)
     = Throw (Err "Schema error: Missing block").
Proof.
  split.
  - apply (transpileSchema0_enough 1 fuel). vm_compute. reflexivity.
  - split; vm_compute; reflexivity.
Qed.

(* ===================================================================== *)
(** * C7: the caches after an invocation *)
(* ===================================================================== *)

Section Reset.

Variable escapeGraphQlSchema : string -> string -> string -> string.
Variable newShortId : nat -> string.
Variable removeGraphMetadata : string -> string * list Metadata.
Variable jsEval : string -> string.

Let transpile := transpileSchema escapeGraphQlSchema newShortId removeGraphMetadata jsEval.
Let ast := getSchemaAST escapeGraphQlSchema newShortId removeGraphMetadata jsEval.

Lemma transpileSchema_fresh fuel sch m :
  transpile fuel sch m = transpile fuel sch emptyMemory.
Proof. reflexivity. Qed.

Lemma getSchemaAST_fresh fuel sch m : ast fuel sch m = ast fuel sch emptyMemory.
Proof. reflexivity. Qed.

Lemma transpileSchema_reset fuel sch m v m' :
  transpile fuel sch m = (Val v, m') -> m' = emptyMemory.
Proof.
  unfold transpile, transpileSchema. intros H.
  apply bind_val in H as (u & m1 & _ & H).
  apply bind_val in H as (parts & m2 & _ & H).
  apply bind_val in H as (text & m3 & _ & H).
  apply bind_val in H as (u' & m4 & Hreset & H).
  apply ret_val in H as [_ <-]. unfold resetMemory, put in Hreset.
  inversion Hreset. reflexivity.
Qed.

Lemma getSchemaAST_reset fuel sch m v m' :
  ast fuel sch m = (Val v, m') -> m' = emptyMemory.
Proof.
  unfold ast, getSchemaAST. intros H.
  apply bind_val in H as (u & m1 & _ & H).
  apply bind_val in H as (parts & m2 & _ & H).
  apply bind_val in H as (u' & m4 & Hreset & H).
  apply ret_val in H as [_ <-]. unfold resetMemory, put in Hreset.
  inversion Hreset. reflexivity.
Qed.

End Reset.

(** C7, as the code has it.  Whatever the collaborators: an invocation of
    [transpileSchema] or [getSchemaAST] that returns leaves every cache
    empty, and an invocation never reads what the caches held on entry (it
    resets them first), so that what a failed invocation left behind does
    not reach the next one.  Nothing resets the caches when an invocation
    throws. *)
Theorem caches_reset_on_entry_and_return escapeGraphQlSchema newShortId
    removeGraphMetadata jsEval fuel sch m :
  (forall v m',
     transpileSchema escapeGraphQlSchema newShortId removeGraphMetadata jsEval fuel sch m
     = (Val v, m') -> m' = emptyMemory)
  /\ (forall v m',
        getSchemaAST escapeGraphQlSchema newShortId removeGraphMetadata jsEval fuel sch m
        = (Val v, m') -> m' = emptyMemory)
  /\ transpileSchema escapeGraphQlSchema newShortId removeGraphMetadata jsEval fuel sch m
     = transpileSchema escapeGraphQlSchema newShortId removeGraphMetadata jsEval fuel sch
         emptyMemory
  /\ getSchemaAST escapeGraphQlSchema newShortId removeGraphMetadata jsEval fuel sch m
     = getSchemaAST escapeGraphQlSchema newShortId removeGraphMetadata jsEval fuel sch
         emptyMemory.
Proof.
  split; [| split; [| split]].
  - intros v m'. apply transpileSchema_reset.
  - intros v m'. apply getSchemaAST_reset.
  - apply transpileSchema_fresh.
  - apply getSchemaAST_fresh.
Qed.

(** C7 fails as stated: the transpilation of a schema with a generic use
    and an unknown parent throws, and the caches still hold the escaped
    texts, the recorded generic use, its alias and the alias list. *)
Lemma caches_kept_on_failure :
  exists m',
    transpileSchema0 1 Schemas.failing emptyMemory
    = (Throw (Err "Schema error: type B cannot find inherited type Missing"), m')
    /\ m' <> emptyMemory
    /\ _s m' !! Schemas.failing
       = Some (Collaborators.escapeGraphQlSchema Schemas.failing carrReturnEsc tabEsc)
    /\ map fst (memoizedGenericSchemaObjects m') = ["PagedProduct"]
    /\ memoizedGenericNameAliases m' !! "Paged<Product>" = Some "PagedProduct"
    /\ memoizedAliases m' = Some [].
Proof.
  eexists. split; [vm_compute; reflexivity |].
  split.
  - intros H. apply (f_equal memoizedAliases) in H. vm_compute in H. discriminate H.
  - repeat split; vm_compute; reflexivity.
Qed.

Lemma caches_reset_on_entry_and_return_witness :
  snd (transpileSchema0 1 Schemas.paged emptyMemory) = emptyMemory.
Proof.
  apply (proj1 (caches_reset_on_entry_and_return Collaborators.escapeGraphQlSchema
                  Collaborators.newShortId Collaborators.removeGraphMetadata
                  Collaborators.jsEval 1 Schemas.paged emptyMemory)
           Schemas.paged_output).
  vm_compute. reflexivity.
Defined.

(* ===================================================================== *)
(** * C8: a generic use with the wrong number of arguments *)
(* ===================================================================== *)

Lemma replaceGenericWithType_arity genericType genericLetters concreteType :
  List.length genericLetters <> List.length (Js.split concreteType ",") ->
  replaceGenericWithType genericType genericLetters concreteType
  = Throw (mismatch_count genericLetters "concreteType" concreteType).
Proof.
  intros Hne. unfold replaceGenericWithType. cbv zeta.
  rewrite !List.length_map.
  destruct (Nat.eqb_spec (List.length genericLetters)
              (List.length (Js.split concreteType ","))) as [E | E].
  - contradiction.
  - reflexivity.
Qed.

Section Arity.

Variable jsEval : string -> string.
Variable rec : TypeDetails -> Dict GenericResult -> M (GenericResult * Dict GenericResult).

Lemma instantiate_props_arity genericType concreteType props memo m :
  List.length (Js.split genericType ",") <> List.length (Js.split concreteType ",") ->
  existsb (generic_prop genericType) props = true ->
  instantiate_props jsEval rec genericType concreteType props memo m
  = (Throw (mismatch_count (Js.split genericType ",") "concreteType" concreteType), m).
Proof.
  intros Hne. induction props as [| p props IH]; simpl; intros Hex.
  - discriminate.
  - unfold bind at 1. unfold instantiate_prop.
    rewrite isTypeGeneric_generic_prop, bind_lift_val.
    destruct (generic_prop genericType p) eqn:Hg.
    + unfold bind at 1, lift. rewrite (replaceGenericWithType_arity _ _ _ Hne). reflexivity.
    + simpl in Hex. unfold ret at 1. cbv beta iota. unfold bind at 1.
      cbn [snd]. rewrite (IH Hex). reflexivity.
Qed.

Lemma instantiate_props_untested genericType concreteType props memo m :
  existsb (generic_prop genericType) props = false ->
  instantiate_props jsEval rec genericType concreteType props memo m
  = (Val (props, memo), m).
Proof.
  induction props as [| p props IH]; simpl; intros Hex.
  - reflexivity.
  - apply orb_false_iff in Hex as [Hp Hex].
    unfold bind at 1. unfold instantiate_prop.
    rewrite isTypeGeneric_generic_prop, bind_lift_val, Hp.
    unfold ret at 1. cbv beta iota. unfold bind at 1. cbn [snd].
    rewrite (IH Hex). reflexivity.
Qed.

End Arity.

(** C8, as the code has it.  Let a generic use [td], not instantiated yet,
    name a template.  The code counts the pieces, split at commas, of the
    parameter text [genericType] of the template and of [concreteType], the
    text of the use between its first [<] and the first [>] after it; and
    it counts them only while it rewrites a property that its own test
    accepts, [isTypeGeneric(result name, genericType)] being true
    ([generic_prop]: [T], [T!], [[T]], [Paged<T>] are accepted, [[[T]]] and
    [ID] are not).  So, first: if the two counts differ (two parameters
    against one argument, for instance) and the template has such a
    property, the instantiation throws [Invalid argument exception.
    Mismatch between the number of types in 'genericLetters' (...) and
    'concreteType' (...).] and leaves the caches as they were.  Second: if
    the template has no such property, nothing is counted: whatever the
    two counts, the use is instantiated, with the properties of the
    template as they are. *)
Theorem generic_arity_mismatch jsEval fuel td schemaBreakDown memo m originName
    concreteType baseGenObj genericType :
  td_isGen td = true ->
  dict_get memo (td_name td) = None ->
  td_originName td = Some originName ->
  concrete_type originName = Some concreteType ->
  Js.truthy concreteType = true ->
  template_of originName schemaBreakDown = Some baseGenObj ->
  so_genericType baseGenObj = Some genericType ->
  Js.truthy genericType = true ->
  (List.length (Js.split genericType ",") <> List.length (Js.split concreteType ",") ->
   existsb (generic_prop genericType) (so_blockProps baseGenObj) = true ->
   createNewSchemaObjectFromGeneric jsEval (S fuel) td schemaBreakDown memo m
   = (Throw (mismatch_count (Js.split genericType ",") "concreteType" concreteType), m))
  /\ (existsb (generic_prop genericType) (so_blockProps baseGenObj) = false ->
      exists r,
        createNewSchemaObjectFromGeneric jsEval (S fuel) td schemaBreakDown memo m
        = (Val (r, dict_set memo (td_name td) r), m)
        /\ option_map so_name (obj r) = Some (td_name td)
        /\ option_map so_blockProps (obj r) = Some (so_blockProps baseGenObj)).
Proof.
  intros Hgen Hmemo Horigin Hconcrete Htc Htemplate Hgt Htg.
  assert (Hbody :
    createNewSchemaObjectFromGeneric jsEval (S fuel) td schemaBreakDown memo m
    = (pm <- instantiate_props jsEval
               (fun td' memo' =>
                  createNewSchemaObjectFromGeneric jsEval fuel td' schemaBreakDown memo')
               genericType concreteType (so_blockProps baseGenObj) memo ;;
       let result :=
         {| obj := Some (mkSchemaObj (so_type baseGenObj) false (td_name td)
                           None None None (fst pm) None None
                           (so_implements baseGenObj) (so_comments baseGenObj) None);
            stringObj :=
              Some (parseSchemaObjToString (so_comments baseGenObj) (so_type baseGenObj)
                      (td_name td) (so_implements baseGenObj) (fst pm) false None) |} in
       ret (result, dict_set (snd pm) (td_name td) result)) m).
  { simpl. unfold createNewSchemaObjectFromGeneric_body.
    rewrite Hgen, Hmemo, Horigin.
    unfold concrete_type in Hconcrete. rewrite Hconcrete.
    unfold template_of in Htemplate. rewrite Htemplate, Hgt.
    cbn [opt_truthy default]. rewrite Htc, Htg. reflexivity. }
  rewrite Hbody. split.
  - intros Hne Hex. unfold bind at 1.
    rewrite (instantiate_props_arity jsEval _ genericType concreteType _ memo m Hne Hex).
    reflexivity.
  - intros Hex. unfold bind at 1.
    rewrite (instantiate_props_untested jsEval _ genericType concreteType _ memo m Hex).
    eexists. split; [reflexivity |]. split; reflexivity.
Qed.

Lemma generic_arity_mismatch_witness :
  createNewSchemaObjectFromGeneric Collaborators.jsEval 1 Objects.PairA
    [Objects.Pair] [] emptyMemory
  = (Throw (Err "Invalid argument exception. Mismatch between the number of types in 'genericLetters' (T,U) and 'concreteType' (A)."),
     emptyMemory).
Proof.
  apply (proj1 (generic_arity_mismatch Collaborators.jsEval 0 Objects.PairA [Objects.Pair] []
                  emptyMemory "Pair<A>" "A" Objects.Pair "T,U"
                  eq_refl eq_refl eq_refl eq_refl eq_refl eq_refl eq_refl eq_refl)).
  - vm_compute. intros H. discriminate H.
  - reflexivity.
Defined.

(** C8 fails as stated: a template with two parameters that none of its
    properties mentions is instantiated with one argument without any
    error, and the transpiled text carries the instantiation. *)
Lemma generic_arity_unchecked :
  (exists r memo,
     createNewSchemaObjectFromGeneric Collaborators.jsEval 1 Objects.PairA
       [Objects.PairUnused] [] emptyMemory = (Val (r, memo), emptyMemory)
     /\ option_map so_name (obj r) = Some "PairA")
  /\ transpileSchema0 1 Schemas.pair_unused emptyMemory
     = (Val (lines [""; "type Query { "; "    p: PairA"; "}type PairA { "; "    id: ID"; "}"]),
        emptyMemory).
Proof.
  split.
  - eexists. eexists. split; vm_compute; reflexivity.
  - vm_compute. reflexivity.
Qed.

(** The arguments are counted by the commas before the first [>]: the one
    argument [Map<A,B>] counts as two.  And the test that guards the count
    does not see a parameter inside a nested list. *)
Example generic_arity_counts :
  option_map (fun c => List.length (Js.split c ",")) (concrete_type "Pair<Map<A,B>>")
  = Some 2
  /\ isTypeGeneric (JStr "[[T]]") (JStr "T,U") = Val false
  /\ isTypeGeneric (JStr "[T]") (JStr "T,U") = Val true.
Proof. vm_compute. repeat split; reflexivity. Qed.

(** The same use against a template whose first property has type [T]
    aborts the whole transpilation with the arity error. *)
Example generic_arity_end_to_end :
  fst (transpileSchema0 1 Schemas.pair_used emptyMemory)
  = Throw (Err "Invalid argument exception. Mismatch between the number of types in 'genericLetters' (T,U) and 'concreteType' (A).").
Proof. vm_compute. reflexivity. Qed.

(* ===================================================================== *)
(** * C9: transpiling the transpiled text *)
(* ===================================================================== *)

(** C9 does not hold of the code, for two reasons that lie in the code.
    First, a declaration with an empty block, here [type A {}], is printed
    without braces, [type A], and the block expressions, which need the
    braces, do not find it again: transpiling the transpiled text declares
    nothing.  Second, the block expressions look for their keyword
    anywhere, also at the end of a name: [enum Filetype] is read as the
    enumeration and, from [type] on, as a type without a name, so the
    transpiled text declares a type that the schema does not, and every
    further pass adds one more.  The expressions for scalars and unions are
    guarded against a keyword inside a name ([Myscalar], [Myunion] declare
    nothing but the type); those for blocks are not. *)
Theorem transpile_not_idempotent :
  Plain.transpiled Schemas.empty_block = Val (Js.LF +:+ "type A  ")
  /\ Plain.transpiled (Js.LF +:+ "type A  ") = Val Js.LF
  /\ holds (Js.LF +:+ "type A  ") "type A" = true
  /\ holds Js.LF "type A" = false
  /\ Plain.transpiled Schemas.filetype
     = Val (lines [""; "type  { "; "    PDF"; "}"; "enum Filetype { "; "    PDF"; "}"])
  /\ Plain.transpiled
       (lines [""; "type  { "; "    PDF"; "}"; "enum Filetype { "; "    PDF"; "}"])
     = Val (lines [""; "type  { "; "    PDF"; "}"; "type  { "; "    PDF"; "}";
                   "enum Filetype { "; "    PDF"; "}"])
  /\ Plain.transpiled Schemas.myscalar = Val (lines [""; "type Myscalar { "; "    id: ID"; "}"])
  /\ Plain.transpiled Schemas.myunion = Val (lines [""; "type Myunion { "; "    id: ID"; "}"]).
Proof. repeat split; vm_compute; reflexivity. Qed.

(* ===================================================================== *)
(** * C10: [isTypeGeneric] on missing and blank arguments *)
(* ===================================================================== *)

Lemma blank_sanitize what v :
  sanitizable v -> blank v ->
  exists v', sanitize what v = Val v' /\ falsy v' = true.
Proof.
  intros Hs Hb. destruct v as [| | s | [|]]; simpl.
  - exists JNull. split; reflexivity.
  - exists JUndefined. split; reflexivity.
  - destruct (Js.truthy s) eqn:E.
    + eexists. split; [reflexivity |]. simpl in Hb. rewrite Hb. reflexivity.
    + eexists. split; [reflexivity |]. simpl. rewrite E. reflexivity.
  - exfalso. apply Hs. reflexivity.
  - exists (JOther false). split; reflexivity.
Qed.

Lemma sanitizable_sanitize what v :
  sanitizable v -> exists v', sanitize what v = Val v'.
Proof.
  intros Hs. destruct v as [| | s | [|]]; simpl; eauto.
  - destruct (Js.truthy s); eauto.
  - exfalso. apply Hs. reflexivity.
Qed.

(** C10, as the code has it.  On two arguments that it can sanitize
    ([null], [undefined], a string, or a falsy value that is no string),
    [isTypeGeneric type genericLetter] returns [false] whenever either is
    blank: [null], [undefined], falsy, or a string that the sanitizing
    expression (leading bracket, white space, closing bracket at the end,
    exclamation marks) reduces to the empty string; it does not throw.  A
    truthy argument that is no string is not sanitized: [type.replace], or
    else [genericLetter.replace], is no function and the call throws a
    [TypeError] before anything is tested, whatever the other argument. *)
Theorem isTypeGeneric_blank (type genericLetter : jsvalue) :
  (sanitizable type -> sanitizable genericLetter ->
   blank type \/ blank genericLetter ->
   isTypeGeneric type genericLetter = Val false)
  /\ (type = JOther true ->
      isTypeGeneric type genericLetter = Throw (TypeError "type.replace"))
  /\ (sanitizable type -> genericLetter = JOther true ->
      isTypeGeneric type genericLetter = Throw (TypeError "genericLetter.replace")).
Proof.
  split; [| split].
  - intros Ht Hg [H | H]; unfold isTypeGeneric.
    + destruct (blank_sanitize "type" type Ht H) as (t' & -> & Hf).
      destruct (sanitizable_sanitize "genericLetter" genericLetter Hg) as (g' & ->).
      cbn [obind]. rewrite Hf. reflexivity.
    + destruct (sanitizable_sanitize "type" type Ht) as (t' & ->).
      destruct (blank_sanitize "genericLetter" genericLetter Hg H) as (g' & -> & Hf).
      cbn [obind]. rewrite Hf, orb_true_r. reflexivity.
  - intros ->. reflexivity.
  - intros Ht ->. unfold isTypeGeneric.
    destruct (sanitizable_sanitize "type" type Ht) as (t' & ->). reflexivity.
Qed.

Lemma isTypeGeneric_blank_witness :
  isTypeGeneric JNull (JStr "T") = Val false
  /\ isTypeGeneric (JStr "Paged<T>") JUndefined = Val false
  /\ isTypeGeneric (JStr "[ ]!") (JStr "T") = Val false
  /\ isTypeGeneric (JStr "T") (JOther false) = Val false
  /\ isTypeGeneric (JStr "T") (JOther true) = Throw (TypeError "genericLetter.replace").
Proof.
  assert (Hstr : forall s, sanitizable (JStr s)) by (intros s H; discriminate H).
  split; [| split; [| split; [| split]]].
  - apply (proj1 (isTypeGeneric_blank JNull (JStr "T")));
      [intros H; discriminate H | apply Hstr | left; exact I].
  - apply (proj1 (isTypeGeneric_blank (JStr "Paged<T>") JUndefined));
      [apply Hstr | intros H; discriminate H | right; exact I].
  - apply (proj1 (isTypeGeneric_blank (JStr "[ ]!") (JStr "T")));
      [apply Hstr | apply Hstr | left; vm_compute; reflexivity].
  - apply (proj1 (isTypeGeneric_blank (JStr "T") (JOther false)));
      [apply Hstr | intros H; discriminate H | right; reflexivity].
  - apply (proj2 (proj2 (isTypeGeneric_blank (JStr "T") (JOther true))));
      [apply Hstr | reflexivity].
Defined.

(** C10 fails as stated: [null] is blank, yet with the number [5] (any
    truthy value that is no string) as the other argument the call throws
    instead of returning [false], on either side. *)
Lemma isTypeGeneric_throws :
  blank JNull
  /\ isTypeGeneric (JOther true) JNull = Throw (TypeError "type.replace")
  /\ isTypeGeneric JNull (JOther true) = Throw (TypeError "genericLetter.replace").
Proof. repeat split. Qed.

(** The function does separate generic from plain types elsewhere. *)
Example isTypeGeneric_examples :
  isTypeGeneric (JStr "Paged<T>") (JStr "T") = Val true
  /\ isTypeGeneric (JStr "[T]") (JStr "T") = Val true
  /\ isTypeGeneric (JStr "T!") (JStr "T,U") = Val true
  /\ isTypeGeneric (JStr "[[T]]") (JStr "T,U") = Val false
  /\ isTypeGeneric (JStr "ID") (JStr "T") = Val false.
Proof. vm_compute. repeat split; reflexivity. Qed.

(* ===================================================================== *)
(** * Further properties of the inheritance resolver *)
(* ===================================================================== *)

(** X1.  A declaration that inherits a name which no declaration of the
    schema bears is not resolved: unless it is memoized, the resolver
    throws [cannot find inherited] for a name of its [inherits] list that
    the schema lacks, before any parent is resolved and without touching
    the caches. *)
Theorem missing_ancestor_error fuel o schemaObjects l m c :
  so_inherits o = Some (Names l) ->
  memoizedExtendedObject m !! extension_key o = None ->
  In c l ->
  (forall x, In x schemaObjects -> so_name x <> c) ->
  exists c',
    In c' l
    /\ (forall x, In x schemaObjects -> so_name x <> c')
    /\ getObjWithExtensions (S fuel) o schemaObjects m
       = (Throw (cannot_find_inherited o c'), m).
Proof.
  intros Hinh Hmemo Hc Hnone. simpl. unfold getObjWithExtensions_body.
  rewrite Hinh. unfold bind at 1, get. rewrite Hmemo.
  assert (Hmiss : forall d, In d (missingClasses (Names l) (map so_name schemaObjects)) ->
                            In d l /\ forall x, In x schemaObjects -> so_name x <> d).
  { intros d Hd. simpl in Hd. apply filter_In in Hd as [Hd Hn]. split; [exact Hd |].
    intros x Hx E. apply negb_true_iff in Hn.
    assert (Ht : existsb (String.eqb d) (map so_name schemaObjects) = true).
    { apply existsb_exists. exists (so_name x). split; [apply in_map; exact Hx |].
      rewrite E. apply String.eqb_refl. }
    congruence. }
  assert (Hin : In c (missingClasses (Names l) (map so_name schemaObjects))).
  { simpl. apply filter_In. split; [exact Hc |]. apply negb_true_iff.
    destruct (existsb (String.eqb c) (map so_name schemaObjects)) eqn:E; [| reflexivity].
    apply existsb_exists in E as (n & Hn & En). apply String.eqb_eq in En. subst n.
    apply in_map_iff in Hn as (x & Ex & Hx). exfalso. exact (Hnone x Hx Ex). }
  destruct (missingClasses (Names l) (map so_name schemaObjects)) as [| c' rest].
  - destruct Hin.
  - destruct (Hmiss c' (or_introl eq_refl)) as [H1 H2].
    exists c'. split; [exact H1 |]. split; [exact H2 |]. reflexivity.
Qed.

Lemma missing_ancestor_error_witness :
  exists c',
    In c' ["A"; "Missing"]
    /\ (forall x, In x [Objects.A; More.Bmissing] -> so_name x <> c')
    /\ getObjWithExtensions 1 More.Bmissing [Objects.A; More.Bmissing] emptyMemory
       = (Throw (cannot_find_inherited More.Bmissing c'), emptyMemory).
Proof.
  apply (missing_ancestor_error 0 More.Bmissing [Objects.A; More.Bmissing]
           ["A"; "Missing"] emptyMemory "Missing").
  - reflexivity.
  - reflexivity.
  - right. left. reflexivity.
  - intros x [<- | [<- | []]]; vm_compute; intros H; discriminate H.
Defined.

(** X2.  Kinds are checked parent by parent, in schema order, before the
    parent is resolved: when every inherited name is declared and the first
    declaration bearing one of them is of a kind the child may not inherit
    from (a type inherits from types and interfaces, any other kind from
    its own kind only), the resolver throws [cannot inherit from] for that
    parent and leaves the caches as they were. *)
Theorem incompatible_parent_error fuel o schemaObjects inherits m p rest :
  so_inherits o = Some inherits ->
  memoizedExtendedObject m !! extension_key o = None ->
  missingClasses inherits (map so_name schemaObjects) = [] ->
  List.filter (is_inherited inherits) schemaObjects = p :: rest ->
  inheritingIsAllowed o p = false ->
  getObjWithExtensions (S fuel) o schemaObjects m = (Throw (cannot_inherit_from o p), m).
Proof.
  intros Hinh Hmemo Hmiss Hsup Hno. simpl. unfold getObjWithExtensions_body.
  rewrite Hinh. unfold bind at 1, get. rewrite Hmemo, Hmiss, Hsup.
  unfold bind at 1. simpl mapM. unfold bind at 1. rewrite Hno. reflexivity.
Qed.

Lemma incompatible_parent_error_witness :
  getObjWithExtensions 1 More.In1 [Objects.A; More.In1] emptyMemory
  = (Throw (Err "Schema error: input In cannot inherit from TYPE A."), emptyMemory).
Proof.
  apply (incompatible_parent_error 0 More.In1 [Objects.A; More.In1] (Names ["A"])
           emptyMemory Objects.A []); reflexivity.
Defined.

(** What the kinds allow, spelled out. *)
Lemma inheritingIsAllowed_spec o subClass :
  inheritingIsAllowed o subClass = true <->
  (so_type o = TYPE /\ (so_type subClass = TYPE \/ so_type subClass = INTERFACE))
  \/ (so_type o <> TYPE /\ so_type o = so_type subClass).
Proof.
  unfold inheritingIsAllowed.
  destruct (so_type o), (so_type subClass); vm_compute; split; intros H;
    try discriminate; try reflexivity;
    try (left; split; [reflexivity | (left; reflexivity) || (right; reflexivity)]);
    try (right; split; [intros E; discriminate E | reflexivity]);
    destruct H as [[H1 [H2 | H2]] | [H1 H2]]; try discriminate; try congruence.
Qed.

Lemma getObjWithInterfaces_fields fuel o schemaObjects m r m' :
  getObjWithInterfaces fuel o schemaObjects m = (Val r, m') ->
  so_type r = so_type o /\ so_name r = so_name o
  /\ so_genericType r = so_genericType o /\ so_metadata r = so_metadata o
  /\ so_inherits r = so_inherits o.
Proof.
  unfold getObjWithInterfaces. intros H.
  destruct schemaObjects as [objs |].
  - destruct (so_implements o) as [[| i l] |].
    + apply ret_val in H as [<- _]. repeat split.
    + apply bind_val in H as (closures & m1 & _ & H).
      apply ret_val in H as [<- _]. repeat split.
    + apply ret_val in H as [<- _]. repeat split.
  - apply ret_val in H as [<- _]. repeat split.
Qed.

(** X3.  Resolution never renames a declaration nor changes its kind or its
    generic parameters, whether it inherits or not: a declaration that is
    not memoized resolves to one of the same [type], [name] and
    [genericType]. *)
Theorem resolution_keeps_identity fuel o schemaObjects m r m' :
  memoizedExtendedObject m !! extension_key o = None ->
  getObjWithExtensions fuel o schemaObjects m = (Val r, m') ->
  so_type r = so_type o /\ so_name r = so_name o /\ so_genericType r = so_genericType o.
Proof.
  intros Hmemo H. destruct fuel as [| fuel]; [discriminate H |].
  simpl in H. unfold getObjWithExtensions_body in H.
  destruct (so_inherits o) as [inherits |].
  - apply bind_val in H as (m0 & m1 & Hget & H).
    apply get_val in Hget as [-> ->]. rewrite Hmemo in H.
    destruct (missingClasses _ _); [| discriminate].
    apply bind_val in H as (parents & m2 & _ & H).
    apply bind_val in H as (metadata & m3 & _ & H).
    apply bind_val in H as (u & m4 & _ & H).
    apply getObjWithInterfaces_fields in H as (H1 & H2 & H3 & _). auto.
  - apply getObjWithInterfaces_fields in H as (H1 & H2 & H3 & _). auto.
Qed.

Lemma resolution_keeps_identity_witness :
  so_type More.Tinh_resolved = so_type Objects.Tinh
  /\ so_name More.Tinh_resolved = so_name Objects.Tinh
  /\ so_genericType More.Tinh_resolved = so_genericType Objects.Tinh.
Proof.
  apply (resolution_keeps_identity 3 Objects.Tinh More.interfaces_schema emptyMemory
           More.Tinh_resolved
           (snd (getObjWithExtensions 3 Objects.Tinh More.interfaces_schema emptyMemory))).
  - reflexivity.
  - vm_compute. reflexivity.
Defined.

(** X4.  A declaration that inherits is memoized under its kind, name and
    generic parameters, as it stands before its interfaces are closed.
    Once it has been resolved, the memo holds a declaration with the
    merged properties of the result and the declaration's own [implements]
    list (deduplicated, not closed); every later resolution of the
    declaration returns that memoized declaration, whatever the fuel and
    whatever schema it is given, and touches no cache. *)
Theorem extension_memoized fuel o schemaObjects inherits m r m' :
  so_inherits o = Some inherits ->
  memoizedExtendedObject m !! extension_key o = None ->
  getObjWithExtensions (S fuel) o schemaObjects m = (Val r, m') ->
  exists r0,
    memoizedExtendedObject m' !! extension_key o = Some r0
    /\ so_blockProps r0 = so_blockProps r
    /\ so_implements r0 = Some (uniq (List.filter Js.truthy (default [] (so_implements o))))
    /\ forall fuel' schemaObjects',
         getObjWithExtensions (S fuel') o schemaObjects' m' = (Val r0, m').
Proof.
  intros Hinh Hmemo H. simpl in H. unfold getObjWithExtensions_body in H.
  rewrite Hinh in H.
  apply bind_val in H as (m0 & m1 & Hget & H).
  apply get_val in Hget as [-> ->]. rewrite Hmemo in H.
  destruct (missingClasses inherits (map so_name schemaObjects)); [| discriminate].
  apply bind_val in H as (parents & m2 & _ & H).
  apply bind_val in H as (metadata & m3 & _ & H).
  apply bind_val in H as (u & m4 & Hput & H).
  unfold modify in Hput. inversion Hput; subst u m4. clear Hput.
  pose proof (getObjWithInterfaces_keeps _ _ _ _ _ _ H) as Hkeep.
  cbn [set_memoizedExtendedObject memoizedExtendedObject] in Hkeep.
  pose proof (getObjWithInterfaces_blockProps _ _ _ _ _ _ H) as Hprops.
  eexists. split; [rewrite Hkeep; apply lookup_insert_eq |].
  split; [symmetry; exact Hprops |]. split; [reflexivity |].
  intros fuel' schemaObjects'. simpl. unfold getObjWithExtensions_body.
  rewrite Hinh. unfold bind, get. rewrite Hkeep, lookup_insert_eq. reflexivity.
Qed.

Lemma extension_memoized_witness :
  exists r0,
    memoizedExtendedObject
      (snd (getObjWithExtensions 3 Objects.Tinh More.interfaces_schema emptyMemory))
      !! extension_key Objects.Tinh = Some r0
    /\ so_blockProps r0 = so_blockProps More.Tinh_resolved
    /\ so_implements r0 = Some ["I2"]
    /\ forall fuel' schemaObjects',
         getObjWithExtensions (S fuel') Objects.Tinh schemaObjects'
           (snd (getObjWithExtensions 3 Objects.Tinh More.interfaces_schema emptyMemory))
         = (Val r0,
            snd (getObjWithExtensions 3 Objects.Tinh More.interfaces_schema emptyMemory)).
Proof.
  apply (extension_memoized 2 Objects.Tinh More.interfaces_schema (Names ["Base"])
           emptyMemory More.Tinh_resolved).
  - reflexivity.
  - reflexivity.
  - vm_compute. reflexivity.
Defined.

(** X5.  Take a schema in which no two declarations that inherit share
    kind, name and generic parameters, and caches whose memo holds
    inherited metadata only (the empty caches do).  If the resolution of a
    declaration of the schema returns, the metadata of the result is the
    declaration's own when it has some; when it has none and inherits, it
    is the metadata of the last of its parents, in the order in which the
    schema declares them (not the order of its [inherits] list), found in
    the same way through all ancestors; when it has none and inherits
    nothing, it has none.  The memo holds inherited metadata afterwards. *)
Theorem inherited_metadata fuel o schemaObjects m r m' :
  distinct_keys schemaObjects ->
  In o schemaObjects ->
  memo_metadata schemaObjects m ->
  getObjWithExtensions fuel o schemaObjects m = (Val r, m') ->
  metadata_from schemaObjects o (so_metadata r) /\ memo_metadata schemaObjects m'.
Proof.
  intros Hkeys Hin Hm H.
  refine (getObjWithExtensions_holds schemaObjects
            (fun x r0 => metadata_from schemaObjects x (so_metadata r0))
            Hkeys _ _ fuel o m r m' Hin Hm H).
  - intros x Hx. destruct (so_metadata x) as [md |] eqn:Hmd.
    + apply metadata_own. exact Hmd.
    + apply metadata_none; assumption.
  - intros x inherits parents r0 Hx Hps _ Hmd.
    destruct (so_metadata x) as [md |] eqn:Hown.
    + rewrite Hmd. apply metadata_own. exact Hown.
    + destruct Hmd as (p & Hlast & ->).
      destruct (Forall2_last _ _ _ _ Hps Hlast) as (q & Hq & Hqp).
      exact (metadata_last schemaObjects x inherits q _ Hx Hown Hq Hqp).
Qed.

Lemma inherited_metadata_witness :
  metadata_from [More.Am1; More.Am2; More.Bm; More.Cm] More.Cm (Some More.md2)
  /\ memo_metadata [More.Am1; More.Am2; More.Bm; More.Cm]
       (snd (getObjWithExtensions 3 More.Cm [More.Am1; More.Am2; More.Bm; More.Cm]
               emptyMemory)).
Proof.
  apply (inherited_metadata 3 More.Cm [More.Am1; More.Am2; More.Bm; More.Cm] emptyMemory
           More.Cm_resolved).
  - intros x y Hx Hy Hix Hiy Hk. simpl in Hx, Hy.
    destruct Hx as [<- | [<- | [<- | [<- | []]]]];
      destruct Hy as [<- | [<- | [<- | [<- | []]]]];
      try reflexivity; try (exfalso; apply Hix; reflexivity);
      try (exfalso; apply Hiy; reflexivity); vm_compute in Hk; discriminate Hk.
  - right. right. right. left. reflexivity.
  - apply memo_holds_empty.
  - vm_compute. reflexivity.
Defined.

(* ===================================================================== *)
(** * Further properties of the interface closure *)
(* ===================================================================== *)

Lemma uniq_go_In l seen x :
  In x (uniq_go l seen) <-> In x l /\ ~ In x seen.
Proof.
  revert seen. induction l as [| y l IH]; intros seen; simpl.
  - tauto.
  - destruct (existsb (String.eqb y) seen) eqn:E.
    + assert (Hy : In y seen).
      { apply existsb_exists in E as (z & Hz & Ez). apply String.eqb_eq in Ez.
        subst z. exact Hz. }
      rewrite IH. split.
      * intros [H1 H2]. tauto.
      * intros [[-> | H1] H2]; [contradiction | tauto].
    + assert (Hy : ~ In y seen).
      { intros Hy. assert (Et : existsb (String.eqb y) seen = true).
        { apply existsb_exists. exists y. split; [exact Hy | apply String.eqb_refl]. }
        congruence. }
      simpl. rewrite IH. simpl. split.
      * intros [-> | [H1 H2]]; [tauto |]. split; [tauto |]. intros H. apply H2. tauto.
      * intros [[-> | H1] H2]; [tauto |].
        destruct (String.eqb_spec y x) as [-> | Hne]; [tauto |].
        right. split; [exact H1 |]. intros [E' | H]; [congruence | tauto].
Qed.

Lemma uniq_go_NoDup l seen : List.NoDup (uniq_go l seen).
Proof.
  revert seen. induction l as [| y l IH]; intros seen; simpl.
  - constructor.
  - destruct (existsb (String.eqb y) seen); [apply IH |].
    constructor; [| apply IH].
    rewrite uniq_go_In. simpl. tauto.
Qed.

Lemma uniq_In l x : In x (uniq l) <-> In x l.
Proof. unfold uniq. rewrite uniq_go_In. simpl. tauto. Qed.

Lemma uniq_NoDup l : List.NoDup (uniq l).
Proof. apply uniq_go_NoDup. Qed.

Lemma find_none_named schemaObjects i :
  (forall x, In x schemaObjects -> so_name x <> i) ->
  interface_named schemaObjects i = None.
Proof.
  intros H. unfold interface_named.
  destruct (find _ schemaObjects) as [x |] eqn:E; [| reflexivity].
  apply find_some in E as [Hx Ex]. apply String.eqb_eq in Ex.
  exfalso. exact (H x Hx Ex).
Qed.

(** X6.  Implementing a name that no declaration of the schema bears
    throws [interface ... is not defined]; implementing a name whose first
    declaration in the schema is not an interface throws [... is not an
    interface].  Either way nothing is memoized.  The premise is the test
    of the source, [memoizedInterfaceWithAncestors[_interface]] being
    falsy: the cache holds nothing under the name and the name is no member
    of [Object.prototype]. *)
Theorem unknown_interface_error fuel i schemaObjects m :
  memoizedInterface m i = None ->
  ((forall x, In x schemaObjects -> so_name x <> i) ->
   getInterfaceWithAncestors (S fuel) i schemaObjects m = (Throw (not_defined i), m))
  /\ (forall io,
        interface_named schemaObjects i = Some io ->
        so_type io <> INTERFACE ->
        getInterfaceWithAncestors (S fuel) i schemaObjects m
        = (Throw (not_an_interface i), m)).
Proof.
  intros Hmemo. split.
  - intros Hnone. simpl. unfold getInterfaceWithAncestors_body, bind, get.
    rewrite Hmemo. pose proof (find_none_named _ _ Hnone) as Hf.
    unfold interface_named in Hf. rewrite Hf. reflexivity.
  - intros io Hio Hkind. simpl. unfold getInterfaceWithAncestors_body, bind, get.
    rewrite Hmemo. unfold interface_named in Hio. rewrite Hio.
    assert (E : type_eqb (so_type io) INTERFACE = false).
    { destruct (so_type io); try reflexivity. contradiction. }
    rewrite E. reflexivity.
Qed.

Lemma unknown_interface_error_witness :
  getInterfaceWithAncestors 1 "Nope" [Objects.I1; Objects.Base] emptyMemory
  = (Throw (Err "Schema error: interface Nope is not defined."), emptyMemory)
  /\ getInterfaceWithAncestors 1 "Base" [Objects.I1; Objects.Base] emptyMemory
     = (Throw (Err "Schema error: Schema property Base is not an interface. It cannot be implemented."),
        emptyMemory).
Proof.
  split.
  - apply (proj1 (unknown_interface_error 0 "Nope" [Objects.I1; Objects.Base] emptyMemory
                    eq_refl)).
    intros x [<- | [<- | []]]; vm_compute; intros H; discriminate H.
  - apply (proj2 (unknown_interface_error 0 "Base" [Objects.I1; Objects.Base] emptyMemory
                    eq_refl) Objects.Base).
    + reflexivity.
    + vm_compute. intros H. discriminate H.
Defined.

(** X7.  The closure of an interface is memoized under its name: once
    [getInterfaceWithAncestors] has returned for a name, the lookup
    [memoizedInterfaceWithAncestors[_interface]] yields what it returned,
    and every later call for the name returns it, whatever the fuel and the
    schema, without touching the caches. *)
Theorem interface_closure_memoized fuel i schemaObjects m r m' :
  getInterfaceWithAncestors (S fuel) i schemaObjects m = (Val r, m') ->
  memoizedInterface m' i = Some r
  /\ forall fuel' schemaObjects',
       getInterfaceWithAncestors (S fuel') i schemaObjects' m' = (Val r, m').
Proof.
  intros H.
  assert (Hm : memoizedInterface m' i = Some r).
  { simpl in H. unfold getInterfaceWithAncestors_body in H.
    apply bind_val in H as (m0 & m1 & Hget & H).
    apply get_val in Hget as [-> ->].
    destruct (memoizedInterface m i) as [l |] eqn:Hmemo.
    - apply ret_val in H as [<- <-]. exact Hmemo.
    - destruct (find _ schemaObjects) as [io |]; [| discriminate].
      destruct (negb _); [discriminate |].
      apply bind_val in H as (anc & m2 & _ & H).
      apply bind_val in H as (u & m3 & Hput & H).
      apply ret_val in H as [<- <-]. unfold modify in Hput. inversion Hput.
      unfold memoizedInterface.
      cbn [set_memoizedInterfaceWithAncestors memoizedInterfaceWithAncestors].
      rewrite lookup_insert_eq. reflexivity. }
  split; [exact Hm |].
  intros fuel' schemaObjects'. simpl. unfold getInterfaceWithAncestors_body, bind, get.
  rewrite Hm. reflexivity.
Qed.

Lemma interface_closure_memoized_witness :
  memoizedInterface
    (snd (getInterfaceWithAncestors 2 "I2" [Objects.I1; Objects.I2] emptyMemory)) "I2"
  = Some ["I2"; "I1"]
  /\ forall fuel' schemaObjects',
       getInterfaceWithAncestors (S fuel') "I2" schemaObjects'
         (snd (getInterfaceWithAncestors 2 "I2" [Objects.I1; Objects.I2] emptyMemory))
       = (Val ["I2"; "I1"],
          snd (getInterfaceWithAncestors 2 "I2" [Objects.I1; Objects.I2] emptyMemory)).
Proof.
  apply (interface_closure_memoized 1 "I2" [Objects.I1; Objects.I2] emptyMemory).
  vm_compute. reflexivity.
Defined.

(** X23.  The caches are plain objects, and the resolver tests
    [memoizedInterfaceWithAncestors[_interface]] before it looks at the
    schema.  For a name that is a member of [Object.prototype] ([toString],
    [constructor], [valueOf], ...) and that the cache does not hold itself,
    the test finds the inherited member: the resolver returns that member
    (here the text it prints to), whatever the schema declares under the
    name, even nothing, and memoizes nothing. *)
Theorem inherited_member_returned fuel i member schemaObjects m :
  Js.Object_prototype i = Some member ->
  memoizedInterfaceWithAncestors m !! i = None ->
  getInterfaceWithAncestors (S fuel) i schemaObjects m = (Val [member], m).
Proof.
  intros Hmember Hmemo. simpl.
  unfold getInterfaceWithAncestors_body, bind, get, memoizedInterface.
  rewrite Hmemo, Hmember. reflexivity.
Qed.

Lemma inherited_member_returned_witness :
  getInterfaceWithAncestors 1 "toString" [] emptyMemory
  = (Val ["function toString() { [native code] }"], emptyMemory).
Proof.
  apply (inherited_member_returned 0 "toString" "function toString() { [native code] }"
           [] emptyMemory); reflexivity.
Defined.

(** End to end: [T inherits Base implements toString], in a schema that
    declares no interface at all, is transpiled without any error. *)
Example inherited_member_end_to_end :
  fst (transpileSchema0 3 Schemas.implements_toString emptyMemory)
  = Val (lines [""; "type Base { "; "    b: ID"; "}";
                "type T implements function toString() { [native code] } { ";
                "    b: ID"; "    id: ID"; "}"]).
Proof. vm_compute. reflexivity. Qed.

Section Closure.

Variable schemaObjects : list SchemaObj.

Local Abbreviation exact_in := (closures_exact schemaObjects).

Lemma closures_exact_insert m i r :
  exact_in m -> List.NoDup r -> (forall j, In j r <-> reaches schemaObjects i j) ->
  exact_in (set_memoizedInterfaceWithAncestors (insert i r) m).
Proof.
  intros Hm Hnd Hr i' l Hl.
  cbn [set_memoizedInterfaceWithAncestors memoizedInterfaceWithAncestors] in Hl.
  destruct (String.eqb_spec i i') as [<- | Hne].
  - rewrite lookup_insert_eq in Hl. inversion Hl; subst l. split; assumption.
  - rewrite lookup_insert_ne in Hl by exact Hne. apply Hm, Hl.
Qed.

Section ClosureStep.

Variable rec : string -> list SchemaObj -> M (list string).
Hypothesis rec_exact :
  forall i m res m',
    exact_in m -> rec i schemaObjects m = (res, m') ->
    exact_in m'
    /\ forall r, res = Val r -> List.NoDup r /\ forall j, In j r <-> reaches schemaObjects i j.

Lemma ancestors_exact l m res m' :
  exact_in m ->
  mapM (fun i => rec i schemaObjects) l m = (res, m') ->
  exact_in m'
  /\ forall closures, res = Val closures ->
       forall j, In j (concat closures) <-> exists k, In k l /\ reaches schemaObjects k j.
Proof.
  revert m res m'. induction l as [| k l IH]; intros m res m' Hm H; simpl in H.
  - inversion H; subst. split; [exact Hm |]. intros closures Hc. inversion Hc; subst.
    intros j. simpl. split; [tauto | intros (k & [] & _)].
  - unfold bind at 1 in H. destruct (rec k schemaObjects m) as [r1 m1] eqn:E1.
    destruct (rec_exact k m r1 m1 Hm E1) as [Hm1 Hr1].
    destruct r1 as [c | e |].
    + unfold bind at 1 in H.
      destruct (mapM (fun i => rec i schemaObjects) l m1) as [r2 m2] eqn:E2.
      destruct (IH m1 r2 m2 Hm1 E2) as [Hm2 Hr2].
      destruct r2 as [cs | e |]; inversion H; subst.
      * split; [exact Hm2 |]. intros closures Hc. inversion Hc; subst closures.
        intros j. simpl. rewrite in_app_iff.
        destruct (Hr1 c eq_refl) as [_ Hc1]. rewrite Hc1, (Hr2 cs eq_refl j).
        split.
        -- intros [Hk | (k' & Hk' & Hr)]; [exists k; tauto | exists k'; tauto].
        -- intros (k' & [<- | Hk'] & Hr); [tauto | right; exists k'; tauto].
      * split; [exact Hm2 |]. intros closures Hc. discriminate Hc.
      * split; [exact Hm2 |]. intros closures Hc. discriminate Hc.
    + inversion H; subst. split; [exact Hm1 |]. intros closures Hc. discriminate Hc.
    + inversion H; subst. split; [exact Hm1 |]. intros closures Hc. discriminate Hc.
Qed.

Lemma getInterfaceWithAncestors_body_exact i m res m' :
  exact_in m ->
  getInterfaceWithAncestors_body rec i schemaObjects m = (res, m') ->
  exact_in m'
  /\ forall r, res = Val r -> List.NoDup r /\ forall j, In j r <-> reaches schemaObjects i j.
Proof.
  intros Hm H. unfold getInterfaceWithAncestors_body in H.
  unfold bind at 1, get in H. unfold memoizedInterface in H.
  destruct (memoizedInterfaceWithAncestors m !! i) as [l |] eqn:Hmemo.
  { inversion H; subst. split; [exact Hm |]. intros r Hr. inversion Hr; subst r.
    apply (Hm i l Hmemo). }
  destruct (Js.Object_prototype i) as [member |] eqn:Hproto.
  { inversion H; subst. split; [exact Hm |]. intros r Hr. inversion Hr; subst r.
    split; [repeat constructor; simpl; tauto |].
    intros j. split.
    - intros [<- | []]. apply reaches_member. exact Hproto.
    - intros Hr'. inversion Hr'; subst; try congruence.
      left. congruence. }
  cbn [option_map] in H.
  destruct (find _ schemaObjects) as [io |] eqn:Hio.
  2:{ inversion H; subst. split; [exact Hm |]. intros r Hr. discriminate Hr. }
  destruct (negb _).
  { inversion H; subst. split; [exact Hm |]. intros r Hr. discriminate Hr. }
  assert (Hnone : so_implements io = None \/ so_implements io = Some [] ->
                  forall j, In j [i] <-> reaches schemaObjects i j).
  { intros Hempty j. split.
    - intros [<- | []]. apply reaches_self. exact Hproto.
    - intros Hr. inversion Hr as [i0 member Hp | i0 Hp | i0 io0 k Hp Hn Hk
                                 | i0 io0 k j0 Hp Hn Hk Hkj]; subst.
      + congruence.
      + left. reflexivity.
      + unfold interface_named in Hn. rewrite Hio in Hn. inversion Hn; subst io0.
        destruct Hempty as [E | E]; rewrite E in Hk; destruct Hk.
      + unfold interface_named in Hn. rewrite Hio in Hn. inversion Hn; subst io0.
        destruct Hempty as [E | E]; rewrite E in Hk; destruct Hk. }
  unfold bind at 1 in H.
  destruct (so_implements io) as [[| k ks] |] eqn:Himpl.
  - unfold ret at 1 in H. unfold bind at 1, modify in H. inversion H; subst.
    specialize (Hnone (or_intror eq_refl)).
    split; [apply closures_exact_insert; [exact Hm | repeat constructor; simpl; tauto | exact Hnone] |].
    intros r Hr. inversion Hr; subst r. split; [repeat constructor; simpl; tauto | exact Hnone].
  - clear Hnone. unfold bind at 1 in H.
    destruct (mapM (fun i0 => rec i0 schemaObjects) (k :: ks) m) as [r1 m1] eqn:E1.
    destruct (ancestors_exact _ _ _ _ Hm E1) as [Hm1 Hr1].
    destruct r1 as [closures | e |].
    + unfold ret at 1 in H. unfold bind at 1, modify in H. inversion H; subst.
      assert (Hall : forall j, In j (uniq ([i] ++ (k :: ks) ++ concat closures))
                               <-> reaches schemaObjects i j).
      { intros j. rewrite uniq_In, !in_app_iff, (Hr1 closures eq_refl j). split.
        - intros [[<- | []] | [Hk | (k' & Hk' & Hr)]].
          + apply reaches_self. exact Hproto.
          + eapply reaches_named; [exact Hproto | exact Hio | rewrite Himpl; exact Hk].
          + eapply reaches_step; [exact Hproto | exact Hio | rewrite Himpl; exact Hk' | exact Hr].
        - intros Hr. inversion Hr as [i0 member Hp | i0 Hp | i0 io0 k0 Hp Hn Hk
                                     | i0 io0 k0 j0 Hp Hn Hk Hkj]; subst.
          + congruence.
          + left. left. reflexivity.
          + unfold interface_named in Hn. rewrite Hio in Hn. inversion Hn; subst io0.
            rewrite Himpl in Hk. right. left. exact Hk.
          + unfold interface_named in Hn. rewrite Hio in Hn. inversion Hn; subst io0.
            rewrite Himpl in Hk. right. right. exists k0. split; assumption. }
      split; [apply closures_exact_insert; [exact Hm1 | apply uniq_NoDup | exact Hall] |].
      intros r Hr. inversion Hr; subst r. split; [apply uniq_NoDup | exact Hall].
    + inversion H; subst. split; [exact Hm1 |]. intros r Hr. discriminate Hr.
    + inversion H; subst. split; [exact Hm1 |]. intros r Hr. discriminate Hr.
  - unfold ret at 1 in H. unfold bind at 1, modify in H. inversion H; subst.
    specialize (Hnone (or_introl eq_refl)).
    split; [apply closures_exact_insert; [exact Hm | repeat constructor; simpl; tauto | exact Hnone] |].
    intros r Hr. inversion Hr; subst r. split; [repeat constructor; simpl; tauto | exact Hnone].
Qed.

End ClosureStep.

Lemma getInterfaceWithAncestors_exact fuel i m res m' :
  exact_in m ->
  getInterfaceWithAncestors fuel i schemaObjects m = (res, m') ->
  exact_in m'
  /\ forall r, res = Val r -> List.NoDup r /\ forall j, In j r <-> reaches schemaObjects i j.
Proof.
  revert i m res m'. induction fuel as [| fuel IH]; intros i m res m' Hm H; simpl in H.
  - inversion H; subst. split; [exact Hm |]. intros r Hr. discriminate Hr.
  - eapply getInterfaceWithAncestors_body_exact; [| exact Hm | exact H].
    intros i0 m0 res0 m0' Hm0 H0. exact (IH i0 m0 res0 m0' Hm0 H0).
Qed.

End Closure.

Lemma closures_exact_empty schemaObjects : closures_exact schemaObjects emptyMemory.
Proof. intros i l H. vm_compute in H. discriminate H. Qed.

(** X8.  The list [getInterfaceWithAncestors] returns for an interface is
    its closure, exactly: it has no duplicate, and an entry is in it if and
    only if the name reaches it, that is, if it is the interface itself,
    one named in its [implements] list, or an entry of the closure of one
    of these.  A name that is a member of [Object.prototype] ([toString],
    [constructor], ...) is never looked up in the schema: the truthiness
    test on the cache finds the inherited member, and the closure of such a
    name is that member alone.  This holds from caches whose memoized
    closures are exact (the empty caches of a new invocation are), and the
    caches it leaves are exact again. *)
Theorem interface_closure_exact fuel i schemaObjects m r m' :
  closures_exact schemaObjects m ->
  getInterfaceWithAncestors fuel i schemaObjects m = (Val r, m') ->
  List.NoDup r
  /\ (forall j, In j r <-> reaches schemaObjects i j)
  /\ closures_exact schemaObjects m'.
Proof.
  intros Hm H.
  destruct (getInterfaceWithAncestors_exact schemaObjects fuel i m (Val r) m' Hm H)
    as [Hm' Hr].
  destruct (Hr r eq_refl) as [Hnd Hin]. auto.
Qed.

Lemma interface_closure_exact_witness :
  List.NoDup ["I2"; "I1"]
  /\ (forall j, In j ["I2"; "I1"] <-> reaches [Objects.I1; Objects.I2] "I2" j)
  /\ closures_exact [Objects.I1; Objects.I2]
       (snd (getInterfaceWithAncestors 2 "I2" [Objects.I1; Objects.I2] emptyMemory)).
Proof.
  apply (interface_closure_exact 2 "I2" [Objects.I1; Objects.I2] emptyMemory).
  - apply closures_exact_empty.
  - vm_compute. reflexivity.
Defined.

Lemma kept_ret {A} I (a : A) : kept I (ret a).
Proof. intros m res m' Hm H. inversion H; subst. exact Hm. Qed.

Lemma kept_throw {A} I (e : Error) : kept I (@throw A e).
Proof. intros m res m' Hm H. inversion H; subst. exact Hm. Qed.

Lemma kept_diverge {A} I : kept I (@diverge A).
Proof. intros m res m' Hm H. inversion H; subst. exact Hm. Qed.

Lemma kept_lift {A} I (c : outcome A) : kept I (lift c).
Proof. intros m res m' Hm H. inversion H; subst. exact Hm. Qed.

Lemma kept_get I : kept I get.
Proof. intros m res m' Hm H. inversion H; subst. exact Hm. Qed.

Lemma kept_bind {A B} I (c : M A) (k : A -> M B) :
  kept I c -> (forall a, kept I (k a)) -> kept I (bind c k).
Proof.
  intros Hc Hk m res m' Hm H. unfold bind in H.
  destruct (c m) as [[a | e |] m1] eqn:E.
  - exact (Hk a m1 res m' (Hc _ _ _ Hm E) H).
  - inversion H; subst. exact (Hc _ _ _ Hm E).
  - inversion H; subst. exact (Hc _ _ _ Hm E).
Qed.

Lemma kept_mapM {A B} I (f : A -> M B) (l : list A) :
  (forall x, kept I (f x)) -> kept I (mapM f l).
Proof.
  intros Hf. induction l as [| x l IH]; simpl.
  - apply kept_ret.
  - apply kept_bind; [apply Hf |]. intros y.
    apply kept_bind; [exact IH |]. intros ys. apply kept_ret.
Qed.

Lemma kept_foldM {A S} I (f : S -> A -> M S) (l : list A) (s : S) :
  (forall s x, kept I (f s x)) -> kept I (foldM f l s).
Proof.
  intros Hf. revert s. induction l as [| x l IH]; intros s; simpl.
  - apply kept_ret.
  - apply kept_bind; [apply Hf |]. intros s'. apply IH.
Qed.

Lemma getInterfaceWithAncestors_kept fuel i schemaObjects :
  kept (closures_exact schemaObjects) (getInterfaceWithAncestors fuel i schemaObjects).
Proof.
  intros m res m' Hm H.
  exact (proj1 (getInterfaceWithAncestors_exact schemaObjects fuel i m res m' Hm H)).
Qed.

Lemma getObjWithInterfaces_closed fuel o schemaObjects m res m' :
  closures_exact schemaObjects m ->
  getObjWithInterfaces fuel o (Some schemaObjects) m = (res, m') ->
  closures_exact schemaObjects m'
  /\ forall r, res = Val r ->
       forall i l, so_implements o = Some (i :: l) ->
         exists cl,
           so_implements r = Some cl /\ List.NoDup cl
           /\ forall j, In j cl <-> exists k, In k (i :: l) /\ reaches schemaObjects k j.
Proof.
  intros Hm H. unfold getObjWithInterfaces in H.
  destruct (so_implements o) as [[| i l] |] eqn:Himpl.
  - inversion H; subst. split; [exact Hm |]. intros r _ i l Hil. discriminate Hil.
  - unfold bind at 1 in H.
    destruct (mapM _ (i :: l) m) as [r1 m1] eqn:E1.
    destruct (ancestors_exact schemaObjects (getInterfaceWithAncestors fuel)
                (getInterfaceWithAncestors_exact schemaObjects fuel) _ _ _ _ Hm E1)
      as [Hm1 Hr1].
    destruct r1 as [closures | e |]; inversion H; subst.
    + split; [exact Hm1 |]. intros r Hr i' l' Hil. inversion Hr; subst r.
      inversion Hil; subst i' l'. cbn [so_implements].
      eexists. split; [reflexivity |]. split; [apply uniq_NoDup |].
      intros j. rewrite uniq_In. apply (Hr1 closures eq_refl j).
    + split; [exact Hm1 |]. intros r Hr. discriminate Hr.
    + split; [exact Hm1 |]. intros r Hr. discriminate Hr.
  - inversion H; subst. split; [exact Hm |]. intros r _ i l Hil. discriminate Hil.
Qed.

Lemma closures_exact_extended schemaObjects f m :
  closures_exact schemaObjects m ->
  closures_exact schemaObjects (set_memoizedExtendedObject f m).
Proof. intros Hm i l H. exact (Hm i l H). Qed.

Lemma getObjWithExtensions_kept fuel o schemaObjects :
  kept (closures_exact schemaObjects) (getObjWithExtensions fuel o schemaObjects).
Proof.
  revert o. induction fuel as [| fuel IH]; intros o; simpl.
  - apply kept_diverge.
  - unfold getObjWithExtensions_body.
    destruct (so_inherits o) as [inherits |].
    + apply kept_bind; [apply kept_get |]. intros m0.
      destruct (memoizedExtendedObject m0 !! extension_key o); [apply kept_ret |].
      destruct (missingClasses _ _); [| apply kept_throw].
      apply kept_bind.
      * apply kept_mapM. intros x. destruct (negb _); [apply kept_throw | apply IH].
      * intros parents. apply kept_bind.
        { destruct (so_metadata o); [apply kept_ret |].
          destruct (List.last _ _); [apply kept_ret | apply kept_throw]. }
        intros md. apply kept_bind.
        { intros m res m' Hm H. inversion H; subst. apply closures_exact_extended, Hm. }
        intros u m res m' Hm H.
        exact (proj1 (getObjWithInterfaces_closed _ _ _ _ _ _ Hm H)).
    + intros m res m' Hm H. unfold getObjWithInterfaces in H. inversion H; subst. exact Hm.
Qed.

(** X9.  On the path of a declaration that inherits, the interfaces are
    closed, exactly: the resolved [implements] list has no duplicate, and
    an entry is in it if and only if some name that the declaration itself
    lists reaches it (the name itself, the names its declaration
    implements, and so on; for a name of a member of [Object.prototype],
    that member instead).  The interfaces of the parents are not taken
    over. *)
Theorem inherited_implements_closed fuel o schemaObjects inherits m r m' :
  so_inherits o = Some inherits ->
  memoizedExtendedObject m !! extension_key o = None ->
  closures_exact schemaObjects m ->
  getObjWithExtensions (S fuel) o schemaObjects m = (Val r, m') ->
  exists l,
    so_implements r = Some l
    /\ List.NoDup l
    /\ forall j,
         In j l <->
         exists i, In i (default [] (so_implements o)) /\ Js.truthy i = true
                   /\ reaches schemaObjects i j.
Proof.
  intros Hinh Hmemo Hexact H. simpl in H. unfold getObjWithExtensions_body in H.
  rewrite Hinh in H.
  unfold bind at 1, get in H. rewrite Hmemo in H.
  destruct (missingClasses inherits (map so_name schemaObjects)); [| discriminate].
  unfold bind at 1 in H.
  destruct (mapM _ (List.filter (is_inherited inherits) schemaObjects) m)
    as [r1 m1] eqn:Eparents.
  assert (Hm1 : closures_exact schemaObjects m1).
  { refine (kept_mapM (closures_exact schemaObjects) _ _ _ m r1 m1 Hexact Eparents).
    intros x. destruct (negb _); [apply kept_throw | apply getObjWithExtensions_kept]. }
  destruct r1 as [parents | e |]; try discriminate.
  apply bind_val in H as (metadata & m2 & Hmeta & H).
  assert (Hm2 : closures_exact schemaObjects m2).
  { destruct (so_metadata o).
    - apply ret_val in Hmeta as [_ <-]. exact Hm1.
    - destruct (List.last _ _); [| discriminate].
      apply ret_val in Hmeta as [_ <-]. exact Hm1. }
  apply bind_val in H as (u & m3 & Hput & H).
  unfold modify in Hput. inversion Hput; subst u m3. clear Hput.
  pose proof (closures_exact_extended schemaObjects
                (insert (extension_key o)
                   (mkSchemaObj (so_type o) false (so_name o) metadata (so_directive o)
                      (so_genericType o)
                      (concat (map so_blockProps parents) ++ so_blockProps o)
                      (Some (so_blockProps o)) (Some (Parents parents))
                      (Some (uniq (List.filter Js.truthy (default [] (so_implements o)))))
                      None None)) m2 Hm2) as Hm3.
  destruct (getObjWithInterfaces_closed _ _ _ _ _ _ Hm3 H) as [_ Hr].
  specialize (Hr r eq_refl). cbn [so_implements] in Hr.
  assert (Hown : forall i, In i (uniq (List.filter Js.truthy (default [] (so_implements o))))
                           <-> In i (default [] (so_implements o)) /\ Js.truthy i = true).
  { intros i. rewrite uniq_In, filter_In. tauto. }
  destruct (uniq (List.filter Js.truthy (default [] (so_implements o)))) as [| i l] eqn:Eown.
  - unfold getObjWithInterfaces in H. cbn [so_implements] in H.
    apply ret_val in H as [<- _]. cbn [so_implements].
    exists []. split; [reflexivity |]. split; [constructor |].
    intros j. split; [intros [] |]. intros (i & Hi1 & Hi2 & _).
    apply (proj2 (Hown i)). split; assumption.
  - destruct (Hr i l eq_refl) as (cl & Hcl & Hnd & Hin).
    exists cl. split; [exact Hcl |]. split; [exact Hnd |].
    intros j. rewrite Hin. split.
    + intros (k & Hk & Hreach). exists k. apply Hown in Hk. tauto.
    + intros (k & Hk1 & Hk2 & Hreach). exists k. split; [| exact Hreach].
      apply Hown. tauto.
Qed.

Lemma inherited_implements_closed_witness :
  exists l,
    so_implements More.Tinh_resolved = Some l
    /\ List.NoDup l
    /\ forall j,
         In j l <->
         exists i, In i (default [] (so_implements Objects.Tinh)) /\ Js.truthy i = true
                   /\ reaches More.interfaces_schema i j.
Proof.
  apply (inherited_implements_closed 2 Objects.Tinh More.interfaces_schema (Names ["Base"])
           emptyMemory More.Tinh_resolved
           (snd (getObjWithExtensions 3 Objects.Tinh More.interfaces_schema emptyMemory))).
  - reflexivity.
  - reflexivity.
  - apply closures_exact_empty.
  - vm_compute. reflexivity.
Defined.

(** X10.  The interface resolver has no cycle check either.  When the
    first interface that [i1] implements is [i2] and the first that [i2]
    implements is [i1] ([i2] may be [i1] itself), neither memoized, the
    closure of [i1] is never returned and nothing is raised: whatever the
    fuel, the recursion runs out of it and the caches are left as they
    were. *)
Theorem cyclic_implements_diverges fuel i1 i2 io1 io2 rest1 rest2 schemaObjects m :
  interface_named schemaObjects i1 = Some io1 ->
  interface_named schemaObjects i2 = Some io2 ->
  so_type io1 = INTERFACE ->
  so_type io2 = INTERFACE ->
  so_implements io1 = Some (i2 :: rest1) ->
  so_implements io2 = Some (i1 :: rest2) ->
  memoizedInterface m i1 = None ->
  memoizedInterface m i2 = None ->
  getInterfaceWithAncestors fuel i1 schemaObjects m = (Diverge, m).
Proof.
  intros H1 H2 Ht1 Ht2 Hi1 Hi2 Hm1 Hm2. unfold interface_named in H1, H2.
  assert (Hboth : getInterfaceWithAncestors fuel i1 schemaObjects m = (Diverge, m)
                  /\ getInterfaceWithAncestors fuel i2 schemaObjects m = (Diverge, m)).
  { induction fuel as [| fuel [IH1 IH2]].
    - split; reflexivity.
    - split; simpl; unfold getInterfaceWithAncestors_body.
      + unfold bind at 1, get. rewrite Hm1, H1, Ht1.
        change (type_eqb INTERFACE INTERFACE) with true. cbn [negb].
        rewrite Hi1. simpl mapM. unfold bind. rewrite IH2. reflexivity.
      + unfold bind at 1, get. rewrite Hm2, H2, Ht2.
        change (type_eqb INTERFACE INTERFACE) with true. cbn [negb].
        rewrite Hi2. simpl mapM. unfold bind. rewrite IH1. reflexivity. }
  exact (proj1 Hboth).
Qed.

Lemma cyclic_implements_diverges_witness :
  getInterfaceWithAncestors 500 "J1" [More.J1; More.J2] emptyMemory = (Diverge, emptyMemory).
Proof.
  apply (cyclic_implements_diverges 500 "J1" "J2" More.J1 More.J2 [] []
           [More.J1; More.J2] emptyMemory); reflexivity.
Defined.

(* ===================================================================== *)
(** * Further properties of the generic instantiator *)
(* ===================================================================== *)

(** X11.  A generic use that is not instantiated yet and names no usable
    template is an error, and the caches are left as they were: an empty
    argument list throws [Cannot find generic type in object]; a base name
    that starts the name of no declaration throws [Cannot find any
    definition for generic type starting with]; a first such declaration
    without generic parameters throws [... is not generic!]. *)
Theorem generic_template_errors jsEval fuel td schemaBreakDown memo m originName :
  td_isGen td = true ->
  dict_get memo (td_name td) = None ->
  td_originName td = Some originName ->
  (opt_truthy (concrete_type originName) = false ->
   createNewSchemaObjectFromGeneric jsEval (S fuel) td schemaBreakDown memo m
   = (Throw (Err ("Schema error: Cannot find generic type in object " +:+ originName)), m))
  /\ (opt_truthy (concrete_type originName) = true ->
      template_of originName schemaBreakDown = None ->
      createNewSchemaObjectFromGeneric jsEval (S fuel) td schemaBreakDown memo m
      = (Throw (Err ("Schema error: Cannot find any definition for generic type starting with "
                     +:+ default "" (nth_str (Js.split originName "<") 0) +:+ "<")), m))
  /\ (forall baseGenObj,
        opt_truthy (concrete_type originName) = true ->
        template_of originName schemaBreakDown = Some baseGenObj ->
        opt_truthy (so_genericType baseGenObj) = false ->
        createNewSchemaObjectFromGeneric jsEval (S fuel) td schemaBreakDown memo m
        = (Throw (Err ("Schema error: Schema object " +:+ so_name baseGenObj
                       +:+ " is not generic!")), m)).
Proof.
  intros Hgen Hmemo Horigin.
  split; [| split].
  - intros Hc. simpl. unfold createNewSchemaObjectFromGeneric_body.
    rewrite Hgen, Hmemo, Horigin. unfold concrete_type in Hc. rewrite Hc. reflexivity.
  - intros Hc Ht. simpl. unfold createNewSchemaObjectFromGeneric_body.
    rewrite Hgen, Hmemo, Horigin. unfold concrete_type in Hc. rewrite Hc.
    unfold template_of in Ht. cbn [negb]. rewrite Ht. reflexivity.
  - intros baseGenObj Hc Ht Hg. simpl. unfold createNewSchemaObjectFromGeneric_body.
    rewrite Hgen, Hmemo, Horigin. unfold concrete_type in Hc. rewrite Hc.
    unfold template_of in Ht. cbn [negb]. rewrite Ht, Hg. reflexivity.
Qed.

Lemma generic_template_errors_witness :
  createNewSchemaObjectFromGeneric Collaborators.jsEval 1 More.EmptyUse
    [Objects.Paged] [] emptyMemory
  = (Throw (Err "Schema error: Cannot find generic type in object Paged<>"), emptyMemory)
  /\ createNewSchemaObjectFromGeneric Collaborators.jsEval 1 Objects.PagedProduct
       [Objects.A] [] emptyMemory
     = (Throw (Err "Schema error: Cannot find any definition for generic type starting with Paged<"),
        emptyMemory)
  /\ createNewSchemaObjectFromGeneric Collaborators.jsEval 1 Objects.PagedProduct
       [More.PagedPlain] [] emptyMemory
     = (Throw (Err "Schema error: Schema object Paged<x is not generic!"), emptyMemory).
Proof.
  split; [| split].
  - apply (proj1 (generic_template_errors Collaborators.jsEval 0 More.EmptyUse
                    [Objects.Paged] [] emptyMemory "Paged<>" eq_refl eq_refl eq_refl)).
    vm_compute. reflexivity.
  - apply (proj1 (proj2 (generic_template_errors Collaborators.jsEval 0 Objects.PagedProduct
                           [Objects.A] [] emptyMemory "Paged<Product>"
                           eq_refl eq_refl eq_refl))).
    + vm_compute. reflexivity.
    + vm_compute. reflexivity.
  - apply (proj2 (proj2 (generic_template_errors Collaborators.jsEval 0 Objects.PagedProduct
                           [More.PagedPlain] [] emptyMemory "Paged<Product>"
                           eq_refl eq_refl eq_refl)) More.PagedPlain).
    + vm_compute. reflexivity.
    + vm_compute. reflexivity.
    + reflexivity.
Defined.

Section Shape.

Variable jsEval : string -> string.
Variable rec : TypeDetails -> Dict GenericResult -> M (GenericResult * Dict GenericResult).

Lemma instantiate_prop_instantiates genericType concreteType prop memo m p memo' m' :
  instantiate_prop jsEval rec genericType concreteType prop memo m = (Val (p, memo'), m') ->
  instantiates genericType prop p.
Proof.
  unfold instantiate_prop, instantiates. intros H.
  rewrite isTypeGeneric_generic_prop, bind_lift_val in H.
  destruct (generic_prop _ _).
  - apply bind_val in H as (name & m1 & _ & H).
    apply bind_val in H as (dm & m2 & Hdm & H).
    apply ret_val in H as [H _]. inversion H; subst p memo'. clear H.
    cbn [bp_comments bp_details]. split; [reflexivity |]. split; [| discriminate].
    destruct (td_dependsOnParent _).
    + destruct (td_genericParentTypes _); [| discriminate].
      apply bind_val in Hdm as (ty & m3 & _ & Hdm).
      apply bind_val in Hdm as (gp & m4 & _ & Hdm).
      apply bind_val in Hdm as ([r memo1] & m5 & _ & Hdm).
      cbn [fst snd] in Hdm. destruct (obj r); [| discriminate].
      apply ret_val in Hdm as [<- _]. reflexivity.
    + apply ret_val in Hdm as [<- _]. reflexivity.
  - apply ret_val in H as [H _]. inversion H; subst. auto.
Qed.

Lemma instantiate_props_instantiates genericType concreteType props memo m ps memo' m' :
  instantiate_props jsEval rec genericType concreteType props memo m
  = (Val (ps, memo'), m') ->
  Forall2 (instantiates genericType) props ps.
Proof.
  revert memo m ps memo' m'.
  induction props as [| prop props IH]; intros memo m ps memo' m' H; simpl in H.
  - apply ret_val in H as [H _]. inversion H; subst. constructor.
  - apply bind_val in H as ([p memo1] & m1 & Hp & H).
    apply bind_val in H as ([ps' memo2] & m2 & Hps & H).
    apply ret_val in H as [H _]. cbn [fst snd] in *. inversion H; subst. clear H.
    constructor.
    + eapply instantiate_prop_instantiates. exact Hp.
    + eapply IH. exact Hps.
Qed.

Hypothesis rec_named :
  forall td memo m r memo' m',
    instantiations_named memo ->
    rec td memo m = (Val (r, memo'), m') -> instantiations_named memo'.

Lemma instantiate_prop_named genericType concreteType prop memo m p memo' m' :
  instantiations_named memo ->
  instantiate_prop jsEval rec genericType concreteType prop memo m = (Val (p, memo'), m') ->
  instantiations_named memo'.
Proof.
  unfold instantiate_prop. intros Hn H.
  rewrite isTypeGeneric_generic_prop, bind_lift_val in H.
  destruct (generic_prop _ _).
  - apply bind_val in H as (name & m1 & _ & H).
    apply bind_val in H as (dm & m2 & Hdm & H).
    apply ret_val in H as [H _]. inversion H; subst p memo'. clear H.
    destruct (td_dependsOnParent _).
    + destruct (td_genericParentTypes _); [| discriminate].
      apply bind_val in Hdm as (ty & m3 & _ & Hdm).
      apply bind_val in Hdm as (gp & m4 & _ & Hdm).
      apply bind_val in Hdm as ([r memo1] & m5 & Hrec & Hdm).
      cbn [fst snd] in Hdm. destruct (obj r); [| discriminate].
      apply ret_val in Hdm as [<- _]. cbn [snd].
      eapply rec_named; [exact Hn | exact Hrec].
    + apply ret_val in Hdm as [<- _]. exact Hn.
  - apply ret_val in H as [H _]. inversion H; subst. exact Hn.
Qed.

Lemma instantiate_props_named genericType concreteType props memo m ps memo' m' :
  instantiations_named memo ->
  instantiate_props jsEval rec genericType concreteType props memo m
  = (Val (ps, memo'), m') ->
  instantiations_named memo'.
Proof.
  revert memo m ps memo' m'.
  induction props as [| prop props IH]; intros memo m ps memo' m' Hn H; simpl in H.
  - apply ret_val in H as [H _]. inversion H; subst. exact Hn.
  - apply bind_val in H as ([p memo1] & m1 & Hp & H).
    apply bind_val in H as ([ps' memo2] & m2 & Hps & H).
    apply ret_val in H as [H _]. cbn [fst snd] in *. inversion H; subst. clear H.
    eapply IH; [| exact Hps]. eapply instantiate_prop_named; [exact Hn | exact Hp].
Qed.

Lemma instantiations_named_set memo k r o text :
  instantiations_named memo ->
  obj r = Some o -> stringObj r = Some text -> so_name o = k ->
  instantiations_named (dict_set memo k r).
Proof.
  intros Hn Ho Ht Hk k' r' H.
  destruct (String.eqb_spec k k') as [<- | Hne].
  - rewrite dict_get_set_eq in H. inversion H; subst r'. eauto.
  - rewrite dict_get_set_ne in H by exact Hne. apply Hn, H.
Qed.

Lemma createNewSchemaObjectFromGeneric_body_named td objs memo m r memo' m' :
  instantiations_named memo ->
  createNewSchemaObjectFromGeneric_body jsEval rec td objs memo m = (Val (r, memo'), m') ->
  instantiations_named memo'.
Proof.
  unfold createNewSchemaObjectFromGeneric_body. intros Hn H.
  destruct (td_isGen td).
  - destruct (dict_get memo (td_name td)) eqn:Hmemo.
    + apply ret_val in H as [H _]. inversion H; subst. exact Hn.
    + destruct (td_originName td); [| discriminate].
      destruct (negb _); [discriminate |].
      destruct (find _ objs); [| discriminate].
      destruct (negb _); [discriminate |].
      apply bind_val in H as ([ps memo1] & m1 & Hps & H).
      apply ret_val in H as [H _]. cbn [fst snd] in H. inversion H; subst. clear H.
      eapply instantiations_named_set; try reflexivity.
      eapply instantiate_props_named; [exact Hn | exact Hps].
  - apply ret_val in H as [H _]. inversion H; subst. exact Hn.
Qed.

End Shape.

Lemma createNewSchemaObjectFromGeneric_named jsEval fuel td objs memo m r memo' m' :
  instantiations_named memo ->
  createNewSchemaObjectFromGeneric jsEval fuel td objs memo m = (Val (r, memo'), m') ->
  instantiations_named memo'.
Proof.
  revert td memo m r memo' m'.
  induction fuel as [| fuel IH]; intros td memo m r memo' m' Hn H; simpl in H.
  - discriminate.
  - eapply createNewSchemaObjectFromGeneric_body_named; [| exact Hn | exact H].
    intros td0 memo0 m0 r0 memo0' m0' Hn0 H0. eapply IH; [exact Hn0 | exact H0].
Qed.

(** X12.  The declaration synthesized for a generic use that was not
    instantiated yet takes its name from the use and everything else from
    the template: the kind, the [implements] list and the comments of the
    template, no generic parameters, and one property for every property of
    the template, in order, with the same name and comments; a property
    whose result type mentions no parameter of the template is carried over
    untouched.  The text returned with it is the rendering of that
    declaration. *)
Theorem instantiation_shape jsEval fuel td schemaBreakDown memo m r memo' m' originName :
  td_isGen td = true ->
  dict_get memo (td_name td) = None ->
  td_originName td = Some originName ->
  createNewSchemaObjectFromGeneric jsEval (S fuel) td schemaBreakDown memo m
  = (Val (r, memo'), m') ->
  exists baseGenObj genericType o,
    template_of originName schemaBreakDown = Some baseGenObj
    /\ so_genericType baseGenObj = Some genericType
    /\ obj r = Some o
    /\ so_name o = td_name td
    /\ so_type o = so_type baseGenObj
    /\ so_genericType o = None
    /\ so_implements o = so_implements baseGenObj
    /\ so_comments o = so_comments baseGenObj
    /\ Forall2 (instantiates genericType) (so_blockProps baseGenObj) (so_blockProps o)
    /\ stringObj r
       = Some (parseSchemaObjToString (so_comments o) (so_type o) (so_name o)
                 (so_implements o) (so_blockProps o) false None).
Proof.
  intros Hgen Hmemo Horigin H. simpl in H.
  unfold createNewSchemaObjectFromGeneric_body in H.
  rewrite Hgen, Hmemo, Horigin in H.
  destruct (negb _); [discriminate |].
  unfold template_of.
  destruct (find _ schemaBreakDown) as [baseGenObj |]; [| discriminate].
  destruct (so_genericType baseGenObj) as [genericType |] eqn:Hg; [| discriminate].
  destruct (negb _); [discriminate |].
  apply bind_val in H as ([ps memo1] & m1 & Hps & H).
  apply ret_val in H as [H _]. cbn [fst snd] in H. inversion H; subst. clear H.
  exists baseGenObj, genericType. eexists. split; [reflexivity |]. split; [exact Hg |].
  split; [reflexivity |]. cbn [so_name so_type so_genericType so_implements so_comments
                               so_blockProps stringObj].
  repeat (split; [reflexivity |]).
  split; [| reflexivity].
  eapply instantiate_props_instantiates. exact Hps.
Qed.

Lemma instantiation_shape_witness :
  exists baseGenObj genericType o,
    template_of "Paged<Product>" [Objects.Paged] = Some baseGenObj
    /\ so_genericType baseGenObj = Some genericType
    /\ obj Objects.PagedProduct_result = Some o
    /\ so_name o = td_name Objects.PagedProduct
    /\ so_type o = so_type baseGenObj
    /\ so_genericType o = None
    /\ so_implements o = so_implements baseGenObj
    /\ so_comments o = so_comments baseGenObj
    /\ Forall2 (instantiates genericType) (so_blockProps baseGenObj) (so_blockProps o)
    /\ stringObj Objects.PagedProduct_result
       = Some (parseSchemaObjToString (so_comments o) (so_type o) (so_name o)
                 (so_implements o) (so_blockProps o) false None).
Proof.
  apply (instantiation_shape Collaborators.jsEval 0 Objects.PagedProduct [Objects.Paged] []
           emptyMemory Objects.PagedProduct_result
           [("PagedProduct", Objects.PagedProduct_result)] emptyMemory "Paged<Product>").
  - reflexivity.
  - reflexivity.
  - reflexivity.
  - vm_compute. reflexivity.
Defined.

(** X13.  [resolveGenericTypes], the loop that [buildSchemaString] and
    [getSchemaParts] run over the recorded generic uses, leaves none out:
    when it returns, every recorded use that is generic and does not depend
    on the parameters of its parent has an entry under its name, and every
    entry is a declaration bearing the name it is filed under, with its
    text. *)
Theorem generic_uses_materialized jsEval fuel schemaObjs m resolved m' :
  resolveGenericTypes jsEval fuel schemaObjs m = (Val resolved, m') ->
  instantiations_named resolved
  /\ forall td,
       In td (dict_values (memoizedGenericSchemaObjects m)) ->
       td_isGen td = true ->
       td_dependsOnParent td = false ->
       exists r, dict_get resolved (td_name td) = Some r.
Proof.
  unfold resolveGenericTypes. intros H.
  apply bind_val in H as (m0 & m1 & Hget & H). apply get_val in Hget as [-> ->].
  set (uses := List.filter (fun x => negb (td_dependsOnParent x))
                 (dict_values (memoizedGenericSchemaObjects m))) in *.
  assert (Hfold : forall l memo mm res mm',
            instantiations_named memo ->
            foldM (fun resolvedGenericTypes value =>
                     rm <- createNewSchemaObjectFromGeneric jsEval fuel value schemaObjs
                             resolvedGenericTypes ;;
                     ret (snd rm)) l memo mm = (Val res, mm') ->
            instantiations_named res /\ preserved memo res
            /\ forall td, In td l -> td_isGen td = true ->
                 exists r, dict_get res (td_name td) = Some r).
  { induction l as [| td l IH]; intros memo mm res mm' Hn Hf; simpl in Hf.
    - apply ret_val in Hf as [<- _]. split; [exact Hn |].
      split; [apply preserved_refl |]. intros td [].
    - apply bind_val in Hf as (memo1 & mm1 & Hstep & Hf).
      apply bind_val in Hstep as ([r1 memo1'] & mm2 & Hcreate & Hstep).
      apply ret_val in Hstep as [<- <-]. cbn [snd] in *.
      pose proof (createNewSchemaObjectFromGeneric_named _ _ _ _ _ _ _ _ _ Hn Hcreate) as Hn1.
      pose proof (createNewSchemaObjectFromGeneric_preserves _ _ _ _ _ _ _ _ _ Hcreate) as Hp1.
      destruct (IH memo1' mm2 res mm' Hn1 Hf) as (Hn2 & Hp2 & Hall).
      split; [exact Hn2 |]. split; [eapply preserved_trans; eassumption |].
      intros td' [<- | Hin] Hgen'.
      + destruct fuel as [| fuel']; [discriminate Hcreate |].
        simpl in Hcreate.
        pose proof (createNewSchemaObjectFromGeneric_body_stored _ _ _ _ _ _ _ _ _
                      Hgen' Hcreate) as Hstored.
        exists r1. apply Hp2. exact Hstored.
      + apply Hall; assumption. }
  destruct (Hfold uses [] m resolved m') as (Hn & _ & Hall); [| exact H |].
  { intros k r Hk. discriminate Hk. }
  split; [exact Hn |].
  intros td Hin Hgen Hdep. apply Hall; [| exact Hgen].
  unfold uses. apply filter_In. split; [exact Hin |]. rewrite Hdep. reflexivity.
Qed.

Lemma generic_uses_materialized_witness :
  instantiations_named [("PagedProduct", Objects.PagedProduct_result)]
  /\ forall td,
       In td (dict_values (memoizedGenericSchemaObjects More.paged_recorded)) ->
       td_isGen td = true ->
       td_dependsOnParent td = false ->
       exists r, dict_get [("PagedProduct", Objects.PagedProduct_result)] (td_name td) = Some r.
Proof.
  apply (generic_uses_materialized Collaborators.jsEval 1 [Objects.Paged]
           More.paged_recorded [("PagedProduct", Objects.PagedProduct_result)]
           More.paged_recorded).
  vm_compute. reflexivity.
Defined.

(* ===================================================================== *)
(** * Further properties of the caches *)
(* ===================================================================== *)

(** X14.  The escaper runs at most once for a text: what
    [escapeGraphQlSchemaPlus] returns for a non-empty text is stored under
    that text, and as long as it is not the empty string every later call
    for the text returns it from the cache, even with other markers,
    without changing the caches.  The empty text is returned as it is and
    is not cached. *)
Theorem escape_cached escapeGraphQlSchema sch cr t m v m' :
  escapeGraphQlSchemaPlus escapeGraphQlSchema sch cr t m = (Val v, m') ->
  (Js.truthy sch = false -> v = sch /\ m' = m)
  /\ (Js.truthy sch = true ->
      _s m' !! sch = Some v
      /\ (Js.truthy v = true ->
          forall escape' cr' t',
            escapeGraphQlSchemaPlus escape' sch cr' t' m' = (Val v, m'))).
Proof.
  unfold escapeGraphQlSchemaPlus. intros H.
  destruct (Js.truthy sch) eqn:Hs; cbn [negb] in H.
  - split; [discriminate |]. intros _.
    assert (Hstored : _s m' !! sch = Some v).
    { unfold bind at 1, get in H.
      destruct (_s m !! sch) as [c |] eqn:Hc.
      - destruct (Js.truthy c) eqn:Htc.
        + apply ret_val in H as [<- <-]. exact Hc.
        + unfold bind, modify, ret in H. inversion H; subst.
          cbn [set_s _s]. apply lookup_insert_eq.
      - unfold bind, modify, ret in H. inversion H; subst.
        cbn [set_s _s]. apply lookup_insert_eq. }
    split; [exact Hstored |].
    intros Hv escape' cr' t'. cbn [negb]. unfold bind at 1, get.
    rewrite Hstored, Hv. reflexivity.
  - split; [| discriminate]. intros _. apply ret_val in H as [<- <-]. auto.
Qed.

Lemma escape_cached_witness :
  _s (snd (escapeGraphQlSchemaPlus Collaborators.escapeGraphQlSchema Schemas.paged
             carrReturnEsc tabEsc emptyMemory)) !! Schemas.paged
  = Some (Collaborators.escapeGraphQlSchema Schemas.paged carrReturnEsc tabEsc).
Proof.
  apply (proj2 (escape_cached Collaborators.escapeGraphQlSchema Schemas.paged
                  carrReturnEsc tabEsc emptyMemory
                  (Collaborators.escapeGraphQlSchema Schemas.paged carrReturnEsc tabEsc)
                  (snd (escapeGraphQlSchemaPlus Collaborators.escapeGraphQlSchema
                          Schemas.paged carrReturnEsc tabEsc emptyMemory))
                  ltac:(vm_compute; reflexivity))).
  reflexivity.
Defined.

(** X15.  The alias annotations are read once per invocation:
    [getAllAliases] keeps the [alias] entries of the metadata of its first
    call, and every later call returns that list whatever metadata it is
    given. *)
Theorem aliases_read_once metadata m aliases m' :
  getAllAliases metadata m = (Val aliases, m') ->
  (memoizedAliases m = None ->
   aliases = List.filter (fun x => String.eqb (md_name x) "alias") metadata)
  /\ forall metadata', getAllAliases metadata' m' = (Val aliases, m').
Proof.
  unfold getAllAliases. intros H.
  unfold bind at 1, get in H.
  destruct (memoizedAliases m) as [a |] eqn:Hm.
  - apply ret_val in H as [<- <-]. split; [discriminate |].
    intros metadata'. unfold bind, get. rewrite Hm. reflexivity.
  - unfold bind, modify, ret in H. inversion H; subst.
    split; [reflexivity |]. intros metadata'. reflexivity.
Qed.

Lemma aliases_read_once_witness :
  (memoizedAliases emptyMemory = None ->
   [More.alias_md]
   = List.filter (fun x => String.eqb (md_name x) "alias") [More.md1; More.alias_md])
  /\ getAllAliases [] (snd (getAllAliases [More.md1; More.alias_md] emptyMemory))
     = (Val [More.alias_md], snd (getAllAliases [More.md1; More.alias_md] emptyMemory)).
Proof.
  destruct (aliases_read_once [More.md1; More.alias_md] emptyMemory [More.alias_md]
              (snd (getAllAliases [More.md1; More.alias_md] emptyMemory)) eq_refl)
    as [H1 H2].
  split; [exact H1 | apply H2].
Defined.

(** X16.  The alias of a generic use is computed once: an alias that
    [getAliasName] has returned for a use, if it is not the empty string,
    is returned again by every later call for that use, whatever metadata
    the call is given, and the caches stay as they are. *)
Theorem alias_memoized jsEval genericType metadata m alias m' :
  getAliasName jsEval (Some genericType) metadata m = (Val alias, m') ->
  Js.truthy alias = true ->
  memoizedGenericNameAliases m' !! genericType = Some alias
  /\ forall metadata',
       getAliasName jsEval (Some genericType) metadata' m' = (Val alias, m').
Proof.
  intros H Ha.
  assert (Hstored : memoizedGenericNameAliases m' !! genericType = Some alias).
  { unfold getAliasName in H. unfold bind at 1, get in H.
    change (default "undefined" (Some genericType)) with genericType in H.
    destruct (memoizedGenericNameAliases m !! genericType) as [a |] eqn:Hm.
    - destruct (Js.truthy a) eqn:Hta.
      + apply ret_val in H as [<- <-]. exact Hm.
      + destruct (Js.exec RX_UPTO_LT genericType); [| discriminate].
        apply bind_val in H as (aliases & m1 & _ & H).
        apply bind_val in H as (u & m2 & Hput & H).
        apply ret_val in H as [<- <-]. unfold modify in Hput. inversion Hput.
        cbn [set_memoizedGenericNameAliases memoizedGenericNameAliases].
        apply lookup_insert_eq.
    - destruct (Js.exec RX_UPTO_LT genericType); [| discriminate].
      apply bind_val in H as (aliases & m1 & _ & H).
      apply bind_val in H as (u & m2 & Hput & H).
      apply ret_val in H as [<- <-]. unfold modify in Hput. inversion Hput.
      cbn [set_memoizedGenericNameAliases memoizedGenericNameAliases].
      apply lookup_insert_eq. }
  split; [exact Hstored |].
  intros metadata'. unfold getAliasName. unfold bind at 1, get.
  change (default "undefined" (Some genericType)) with genericType.
  rewrite Hstored, Ha. reflexivity.
Qed.

Lemma alias_memoized_witness :
  memoizedGenericNameAliases
    (snd (getAliasName Collaborators.jsEval (Some "Paged<Product>") [] emptyMemory))
    !! "Paged<Product>" = Some "PagedProduct"
  /\ forall metadata',
       getAliasName Collaborators.jsEval (Some "Paged<Product>") metadata'
         (snd (getAliasName Collaborators.jsEval (Some "Paged<Product>") [] emptyMemory))
       = (Val "PagedProduct",
          snd (getAliasName Collaborators.jsEval (Some "Paged<Product>") [] emptyMemory)).
Proof.
  apply (alias_memoized Collaborators.jsEval "Paged<Product>" [] emptyMemory "PagedProduct").
  - vm_compute. reflexivity.
  - reflexivity.
Defined.

(* ===================================================================== *)
(** * Further properties of the declaration parser *)
(* ===================================================================== *)

(** X17.  [getBlockProperties] makes one property of every line of the
    block that is not a comment, in order: the comments of a property are
    the comment lines that precede it since the previous property, joined
    by a line break and four spaces, and comment lines after the last
    property are dropped; the [value] of every property is the rendering of
    its [details]. *)
Theorem block_properties_comments jsEval blockParts baseObj metadata m props m' :
  getBlockProperties jsEval blockParts baseObj metadata m = (Val props, m') ->
  map bp_comments props = attached_comments blockParts []
  /\ Forall (fun p => bp_value p = getPropertyValue (bp_details p)) props.
Proof.
  unfold getBlockProperties. intros H.
  apply bind_val in H as ([pending ps] & m1 & Hfold & H).
  apply ret_val in H as [<- _]. cbn [snd].
  match type of Hfold with
  | foldM ?f _ _ _ = _ => set (step := f) in Hfold
  end.
  assert (Hgen : forall parts c ps0 mm c' ps' mm',
            foldM step parts (c, ps0) mm = (Val (c', ps'), mm') ->
            map bp_comments ps' = map bp_comments ps0 ++ attached_comments parts c
            /\ (Forall (fun p => bp_value p = getPropertyValue (bp_details p)) ps0 ->
                Forall (fun p => bp_value p = getPropertyValue (bp_details p)) ps')).
  { induction parts as [| part parts IH]; intros c ps0 mm c' ps' mm' Hf; simpl in Hf.
    - apply ret_val in Hf as [Hf _]. inversion Hf; subst.
      rewrite app_nil_r. auto.
    - apply bind_val in Hf as ([c1 ps1] & mm1 & Hstep & Hf).
      apply IH in Hf as [Hc Hv]. unfold step in Hstep. cbn [fst snd] in Hstep.
      simpl attached_comments.
      destruct (Js.indexOf (Js.trim part) "#" =? 0)%Z.
      + apply ret_val in Hstep as [Hstep _]. inversion Hstep; subst c1 ps1.
        split; assumption.
      + apply bind_val in Hstep as (details & mm2 & _ & Hstep).
        apply ret_val in Hstep as [Hstep _]. inversion Hstep; subst c1 ps1.
        split.
        * rewrite Hc, map_app, <- app_assoc. reflexivity.
        * intros H0. apply Hv. apply Forall_app. split; [exact H0 |].
          constructor; [reflexivity | constructor]. }
  destruct (Hgen blockParts [] [] m pending ps m1 Hfold) as [Hc Hv].
  split; [exact Hc | apply Hv; constructor].
Qed.

Lemma block_properties_comments_witness :
  map bp_comments More.commented_props = ["# id" +:+ Js.LF +:+ "    # again"; ""]
  /\ Forall (fun p => bp_value p = getPropertyValue (bp_details p)) More.commented_props.
Proof.
  apply (block_properties_comments Collaborators.jsEval More.commented_block
           {| bo_type := "TYPE"; bo_name := "A"; bo_genericTypes := None |} []
           emptyMemory More.commented_props emptyMemory).
  vm_compute. reflexivity.
Defined.

(** X18.  [getSchemaObject] makes exactly one declaration of every
    fragment whose header starts with the keyword, in the order of the
    fragments, and of no other fragment: each is of the kind asked for,
    carries no comment yet and keeps the [extend] flag of its fragment; a
    scalar or a union is named by the text of its fragment and has no
    property. *)
Theorem schema_objects_of_fragments jsEval definitions t nameRegEx metadata m objs m' :
  getSchemaObject jsEval definitions t nameRegEx metadata m = (Val objs, m') ->
  Forall2 (declares t)
    (List.filter (fun d => (Js.indexOf (property d) (keyword t) =? 0)%Z) definitions)
    objs.
Proof.
  unfold getSchemaObject. intros H. apply mapM_Forall2 in H.
  eapply Forall2_impl; [exact H |].
  intros d o (ma & mb & Hf). cbv beta in Hf. unfold declares.
  destruct t;
    try (destruct (block d) as [l | s] eqn:Hb; [discriminate |];
         apply ret_val in Hf as [<- _]; repeat split; fail);
    (destruct (Js.exec RX_TYPEDEF (property d)) as [tm |]; [| discriminate];
     destruct (0 <=? Js.indexOf (Js.whole tm) "#")%Z; [discriminate |];
     destruct nameRegEx as [rx |]; [| discriminate];
     destruct (Js.exec rx (Js.whole tm)) as [nameMatch |]; [| discriminate];
     destruct (block d) as [blockParts | s]; [| discriminate];
     apply bind_val in Hf as (props & mm1 & _ & Hf);
     apply ret_val in Hf as [<- _]; repeat split).
Qed.

Lemma schema_objects_of_fragments_witness :
  Forall2 (declares TYPE)
    (List.filter (fun d => (Js.indexOf (property d) (keyword TYPE) =? 0)%Z) More.bits)
    [Objects.decl TYPE "A" None None [Objects.p1];
     mkSchemaObj TYPE true "Query" None None None [Objects.p2] None None None None None].
Proof.
  apply (schema_objects_of_fragments Collaborators.jsEval More.bits TYPE
           (Some TYPENAMEREGEX) [] emptyMemory _ emptyMemory).
  vm_compute. reflexivity.
Defined.

(* ===================================================================== *)
(** * Texts that a regular expression cannot match *)
(* ===================================================================== *)

(** The matcher answers with its continuation or fails: when the
    continuation fails on every rest of the input, so does the match. *)
Lemma rmatch_none r :
  forall pos rest cs k,
    (forall p l c, (exists pre, rest = pre ++ l) -> k p l c = None) ->
    Js.rmatch r pos rest cs k = None.
Proof.
  induction r as [| x | | neg items | | | r1 IH1 r2 IH2 | r1 IH1 r2 IH2
                 | mn mx greedy r1 IH1 | i r1 IH1 | positive r1 IH1];
    intros pos rest cs k Hk; simpl.
  - apply Hk. exists []. reflexivity.
  - destruct rest as [| y rest']; [reflexivity |].
    destruct (Js.eqc x y); [| reflexivity]. apply Hk. exists [y]. reflexivity.
  - destruct rest as [| y rest']; [reflexivity |].
    destruct (Js.is_newline y); [reflexivity |]. apply Hk. exists [y]. reflexivity.
  - destruct rest as [| y rest']; [reflexivity |].
    destruct (xorb neg (Js.in_class items y)); [| reflexivity].
    apply Hk. exists [y]. reflexivity.
  - destruct (pos =? 0); [| reflexivity]. apply Hk. exists []. reflexivity.
  - destruct rest; [| reflexivity]. apply Hk. exists []. reflexivity.
  - apply IH1. intros p l c [pre ->]. apply IH2. intros p' l' c' [pre' ->].
    apply Hk. exists (pre ++ pre'). rewrite app_assoc. reflexivity.
  - rewrite IH1, IH2 by assumption. reflexivity.
  - match goal with
    | |- ?f _ _ _ _ _ = None =>
        assert (G : forall fuel n p l c, (exists pre, rest = pre ++ l) ->
                                         f fuel n p l c = None)
    end.
    { induction fuel as [| fuel IHf]; intros n p l c Hl; simpl.
      - destruct greedy; unfold Js.orelse; destruct (mn <=? n);
          try reflexivity; rewrite (Hk p l c Hl); reflexivity.
      - assert (Hrest : forall (p0 : nat) l0, (exists pre0, l = pre0 ++ l0) ->
                                      exists pre, rest = pre ++ l0).
        { intros p0 l0 [pre0 ->]. destruct Hl as [pre ->]. exists (pre ++ pre0).
          rewrite app_assoc. reflexivity. }
        destruct greedy; unfold Js.orelse; destruct (Js.at_max mx n);
          destruct (mn <=? n) eqn:Emn; cbn [andb];
          rewrite ?(Hk p l c Hl); try reflexivity;
          (rewrite IH1;
           [rewrite ?(Hk p l c Hl); reflexivity
           | intros p0 l0 c0 Hl0; try destruct (p0 =? p); try reflexivity;
             apply IHf; apply (Hrest p0); exact Hl0]). }
    apply G. exists []. reflexivity.
  - apply IH1. intros p l c Hl. apply Hk. exact Hl.
  - destruct (Js.rmatch r1 pos rest cs (fun p l c => Some (p, l, c))) as [[[p l] c] |];
      destruct positive; try reflexivity; apply Hk; exists []; reflexivity.
Qed.

(** A regular expression that requires a character matches at no place of
    a text without it. *)
Lemma rmatch_requires c r :
  requires c r = true ->
  forall pos rest cs k, ~ In c rest -> Js.rmatch r pos rest cs k = None.
Proof.
  induction r as [| x | | neg items | | | r1 IH1 r2 IH2 | r1 IH1 r2 IH2
                 | mn mx greedy r1 IH1 | i r1 IH1 | positive r1 IH1];
    simpl; intros Hr pos rest cs k Hc; try discriminate.
  - destruct rest as [| y rest']; [reflexivity |].
    destruct (Js.eqc x y) eqn:E; [| reflexivity].
    unfold Js.eqc in *. apply Ascii.eqb_eq in E, Hr. subst.
    exfalso. apply Hc. left. reflexivity.
  - apply orb_true_iff in Hr as [Hr | Hr].
    + apply IH1; assumption.
    + apply rmatch_none. intros p l c0 [pre ->]. apply IH2; [exact Hr |].
      intros Hin. apply Hc. apply in_or_app. right. exact Hin.
  - apply andb_true_iff in Hr as [Hr1 Hr2].
    rewrite IH1, IH2 by assumption. reflexivity.
  - apply andb_true_iff in Hr as [Hmn Hr].
    destruct mn as [| mn']; [discriminate |]. simpl.
    rewrite (IH1 Hr) by assumption.
    destruct greedy, (Js.at_max mx 0); reflexivity.
  - apply IH1; assumption.
Qed.

Lemma exec_requires c r s :
  requires c r = true -> ~ In c (Js.chars s) -> Js.exec r s = None.
Proof.
  intros Hr. unfold Js.exec. generalize 0 as pos.
  induction (Js.chars s) as [| x rest IH]; intros pos Hc; simpl.
  - rewrite (rmatch_requires c r Hr) by exact Hc. reflexivity.
  - rewrite (rmatch_requires c r Hr) by exact Hc.
    apply IH. intros Hin. apply Hc. right. exact Hin.
Qed.

(** X19.  A text that lacks an opening brace, a closing brace or the mark
    of an escaped line break (one of its bytes) is no block:
    [breakdownSchemabBit] throws 'Schema error: Missing block' on it. *)
Theorem missing_block_error str c :
  In c (Js.chars "{░}") ->
  ~ In c (Js.chars str) ->
  breakdownSchemabBit str = Throw (Err "Schema error: Missing block").
Proof.
  intros Hin Hc. unfold breakdownSchemabBit.
  rewrite (exec_requires c RX_BLOCK str); [reflexivity | | exact Hc].
  simpl in Hin.
  repeat (destruct Hin as [<- | Hin]; [reflexivity |]). contradiction.
Qed.

Lemma missing_block_error_witness :
  breakdownSchemabBit "type A { id: ID }" = Throw (Err "Schema error: Missing block").
Proof.
  apply (missing_block_error "type A { id: ID }" "226"%char).
  - simpl. tauto.
  - vm_compute. intuition discriminate.
Defined.

(** X20.  A type expression that lacks [<] or [>] is no use of a generic
    type: [getTypeDetails] names it by the expression itself, without its
    directive and the white space around it, records nothing and leaves the
    memory as it is, and both alias functions return such a name as it
    is, without evaluating anything. *)
Theorem plain_type_not_generic jsEval t c metadata genericParentTypes s m :
  In c (Js.chars "<>") ->
  ~ In c (Js.chars t) ->
  getTypeDetails jsEval t metadata genericParentTypes m
    = (Val (plain_details t metadata genericParentTypes), m)
  /\ genericDefaultNameAlias t = t
  /\ getGenericAlias jsEval s t = t.
Proof.
  intros Hin Hc.
  assert (E : Js.exec GENERICTYPEREGEX t = None).
  { apply (exec_requires c); [| exact Hc].
    simpl in Hin.
    repeat (destruct Hin as [<- | Hin]; [reflexivity |]). contradiction. }
  assert (Ed : genericDefaultNameAlias t = t).
  { unfold genericDefaultNameAlias. rewrite E.
    destruct t; reflexivity. }
  split; [| split; [exact Ed |]].
  - unfold getTypeDetails. rewrite E. reflexivity.
  - unfold getGenericAlias. rewrite E, Ed. destruct (negb (Js.truthy s)); reflexivity.
Qed.

Lemma plain_type_not_generic_witness :
  getTypeDetails Collaborators.jsEval "[Post!]! @deprecated" [] (Some ["T"]) emptyMemory
    = (Val (plain_details "[Post!]! @deprecated" [] (Some ["T"])), emptyMemory)
  /\ genericDefaultNameAlias "[Post!]! @deprecated" = "[Post!]! @deprecated"
  /\ getGenericAlias Collaborators.jsEval "f" "[Post!]! @deprecated" = "[Post!]! @deprecated".
Proof.
  apply (plain_type_not_generic Collaborators.jsEval "[Post!]! @deprecated" "<"%char).
  - simpl. tauto.
  - vm_compute. intuition discriminate.
Defined.

(* ===================================================================== *)
(** * What resolution drops *)
(* ===================================================================== *)

Lemma getObjWithInterfaces_dropped fuel o objs m r m' :
  getObjWithInterfaces fuel o (Some objs) m = (Val r, m') ->
  match so_implements o with
  | Some (_ :: _) =>
      so_extend r = false /\ so_directive r = None
      /\ so_originalBlockProps r = Some (so_blockProps r)
      /\ so_blockProps r = so_blockProps o
  | _ => r = o
  end.
Proof.
  unfold getObjWithInterfaces. intros H.
  destruct (so_implements o) as [[| i l] |].
  - apply ret_val in H as [<- _]. reflexivity.
  - apply bind_val in H as (closures & m1 & _ & H).
    apply ret_val in H as [<- _]. repeat split.
  - apply ret_val in H as [<- _]. reflexivity.
Qed.

(** X21.  A declaration that inherits is rebuilt without its [extend]
    flag, so an extension that inherits is resolved to, and printed as, a
    plain declaration.  When it names an interface itself it is rebuilt
    once more: its directive is lost too and [originalBlockProps] holds
    the merged properties instead of its own; otherwise it keeps its
    directive and [originalBlockProps] holds its own properties. *)
Theorem inheriting_drops_extend fuel o schemaObjects inherits m r m' :
  so_inherits o = Some inherits ->
  memoizedExtendedObject m !! extension_key o = None ->
  getObjWithExtensions fuel o schemaObjects m = (Val r, m') ->
  so_extend r = false
  /\ match declared_interfaces o with
     | [] =>
         so_directive r = so_directive o
         /\ so_originalBlockProps r = Some (so_blockProps o)
     | _ :: _ =>
         so_directive r = None
         /\ so_originalBlockProps r = Some (so_blockProps r)
     end.
Proof.
  intros Hinh Hmemo H. destruct fuel as [| fuel]; [discriminate H |].
  simpl in H. unfold getObjWithExtensions_body in H. rewrite Hinh in H.
  apply bind_val in H as (m0 & m1 & Hget & H).
  apply get_val in Hget as [-> ->]. rewrite Hmemo in H.
  destruct (missingClasses _ _); [| discriminate].
  apply bind_val in H as (parents & m2 & _ & H).
  apply bind_val in H as (metadata & m3 & _ & H).
  apply bind_val in H as (u & m4 & _ & H).
  apply getObjWithInterfaces_dropped in H. cbn [so_implements] in H.
  fold (declared_interfaces o) in H.
  destruct (declared_interfaces o) as [| i l].
  - subst r. repeat split.
  - destruct H as (H1 & H2 & H3 & _). auto.
Qed.

Lemma inheriting_drops_extend_witness :
  so_extend More.Ext_resolved = false
  /\ so_directive More.Ext_resolved = None
  /\ so_originalBlockProps More.Ext_resolved = Some (so_blockProps More.Ext_resolved).
Proof.
  apply (inheriting_drops_extend 3 More.Ext More.interfaces_schema (Names ["Base"])
           emptyMemory More.Ext_resolved
           (snd (getObjWithExtensions 3 More.Ext More.interfaces_schema emptyMemory))).
  - reflexivity.
  - reflexivity.
  - vm_compute. reflexivity.
Defined.

(* ===================================================================== *)
(** * The two readings of a schema *)
(* ===================================================================== *)

(** X22.  [getSchemaParts] reads a schema the same way with and without
    [includeNewGenTypes]: when both readings return from the same memory,
    they share the resolved declarations of the schema, in order, and end
    with the same directive declarations; the reading with
    [includeNewGenTypes] has, between the two, exactly the declarations
    that [resolveGenericTypes] synthesizes from the shared declarations in
    the memory the other reading ends in. *)
Theorem parts_with_generics escape newShortId jsEval fuel sch metadata m parts m1 ast m2 :
  getSchemaParts escape newShortId jsEval fuel sch metadata false m = (Val parts, m1) ->
  getSchemaParts escape newShortId jsEval fuel sch metadata true m = (Val ast, m2) ->
  exists declarations resolved,
    parts = declarations ++ directive_objects metadata
    /\ resolveGenericTypes jsEval fuel declarations m1 = (Val resolved, m2)
    /\ ast = declarations ++ synthesized resolved ++ directive_objects metadata.
Proof.
  unfold getSchemaParts. intros Hf Ht.
  apply bind_val in Hf as (bits & ma & Hbits & Hf).
  apply bind_val in Ht as (bits' & ma' & Hbits' & Ht).
  rewrite Hbits in Hbits'. inversion Hbits'; subst bits' ma'. clear Hbits'.
  apply bind_val in Hf as (first & mb & Hfirst & Hf).
  apply bind_val in Ht as (first' & mb' & Hfirst' & Ht).
  rewrite Hfirst in Hfirst'. inversion Hfirst'; subst first' mb'. clear Hfirst'.
  apply bind_val in Hf as (extended & mc & Hext & Hf).
  apply bind_val in Ht as (extended' & mc' & Hext' & Ht).
  rewrite Hext in Hext'. inversion Hext'; subst extended' mc'. clear Hext'.
  apply bind_val in Hf as (v & md & Hv & Hf).
  apply bind_val in Ht as (v' & md' & Hv' & Ht).
  rewrite Hv in Hv'. inversion Hv'; subst v' md'. clear Hv'.
  apply bind_val in Hf as (vf & me & Hvf & Hf).
  apply ret_val in Hvf as [<- <-].
  apply bind_val in Ht as (vt & mf & Hvt & Ht).
  apply bind_val in Hvt as (resolved & mg & Hres & Hvt).
  apply ret_val in Hvt as [<- <-].
  exists v, resolved. unfold directive_objects, synthesized.
  destruct (List.filter md_directive metadata) as [| d ds];
    apply ret_val in Hf as [<- <-]; apply ret_val in Ht as [<- <-].
  - simpl. rewrite !app_nil_r. auto.
  - rewrite <- app_assoc. auto.
Qed.

Lemma parts_with_generics_witness :
  exists declarations resolved,
    More.paged_parts = declarations ++ directive_objects []
    /\ resolveGenericTypes Collaborators.jsEval 5 declarations (snd (More.parts false))
       = (Val resolved, snd (More.parts true))
    /\ More.paged_ast = declarations ++ synthesized resolved ++ directive_objects [].
Proof.
  apply (parts_with_generics Collaborators.escapeGraphQlSchema Collaborators.newShortId
           Collaborators.jsEval 5 Schemas.paged [] emptyMemory
           More.paged_parts (snd (More.parts false))
           More.paged_ast (snd (More.parts true)));
    vm_compute; reflexivity.
Defined.
